(** * CYK parser: grammar container, normalization pipeline and recognizer

    A shallow embedding of [cyk_parser.py].  Python objects become records
    and inductive values, methods that mutate [self] become functions in a
    small state-and-exception monad, [for] loops become folds over the
    iterated sequence and [while] loops become bounded iterations.

    Conventions.
    - A Python [str] is a list of characters.  The characters covered are
      the 256 code points U+0000..U+00FF and the letter U+03B5 (the one
      character outside that range the source writes in a literal).
    - A Python [set] is a duplicate-free list; iterating it visits the
      elements in insertion order.  CPython leaves that order to the
      hashes; which rules a grammar holds and whether a word is accepted
      do not depend on it, rule numbers handed out while iterating a set
      and the tie-break of the derivation do.
    - A Python [int] is a [Z]; indices into a word are [nat]. *)

From Stdlib Require Import Ascii String DecimalString DecimalNat.
From stdpp Require Import base gmap.
From Stdlib Require Import List ZArith Lia Bool Sorted Permutation.
Import ListNotations.

Local Open Scope Z_scope.
Local Open Scope list_scope.

(** ** Characters and strings *)

Inductive char : Type :=
| Latin1 (a : ascii)   (* a code point below 256 *)
| GreekEpsilon.        (* U+03B5 *)

Definition str : Type := list char.

Definition char_eqb (c d : char) : bool :=
  match c, d with
  | Latin1 a, Latin1 b => Ascii.eqb a b
  | GreekEpsilon, GreekEpsilon => true
  | _, _ => false
  end.

Fixpoint str_eqb (s t : str) : bool :=
  match s, t with
  | [], [] => true
  | c :: s', d :: t' => char_eqb c d && str_eqb s' t'
  | _, _ => false
  end.

(** A literal of the source, character by character. *)
Definition lit (s : string) : str := map Latin1 (list_ascii_of_string s).

Definition between (lo hi n : N) : bool := (N.leb lo n && N.leb n hi)%bool.

(** [str.isupper] on one character. *)
Definition isupper (c : char) : bool :=
  match c with
  | Latin1 a =>
      let n := N_of_ascii a in
      between 65 90 n || between 192 214 n || between 216 222 n
  | GreekEpsilon => false
  end.

(** [str.isdigit] on one character (the superscripts U+00B2, U+00B3 and
    U+00B9 count as digits). *)
Definition isdigit (c : char) : bool :=
  match c with
  | Latin1 a =>
      let n := N_of_ascii a in
      between 48 57 n || between 178 179 n || N.eqb n 185
  | GreekEpsilon => false
  end.

(** The characters [str.strip] removes and [str.isspace] accepts. *)
Definition is_whitespace (c : char) : bool :=
  match c with
  | Latin1 a =>
      let n := N_of_ascii a in
      between 9 13 n || between 28 32 n || N.eqb n 133 || N.eqb n 160
  | GreekEpsilon => false
  end.

Definition space : char := Latin1 " ".
Definition apostrophe : char := Latin1 "'".
Definition minus_sign : char := Latin1 "-".
Definition greater_sign : char := Latin1 ">".

(** [s.isspace()] *)
Definition isspace (s : str) : bool :=
  match s with
  | [] => false
  | _ => forallb is_whitespace s
  end.

Fixpoint lstrip (s : str) : str :=
  match s with
  | c :: s' => if is_whitespace c then lstrip s' else s
  | [] => []
  end.

Definition rstrip (s : str) : str := rev (lstrip (rev s)).

(** [s.strip()] *)
Definition strip (s : str) : str := rstrip (lstrip s).

(** [s.replace(" ", "")] *)
Definition remove_spaces (s : str) : str :=
  filter (fun c => negb (char_eqb c space)) s.

Definition is_arrow (c d : char) : bool :=
  char_eqb c minus_sign && char_eqb d greater_sign.

(** [s.split("->")]: the pieces between the occurrences of the separator,
    scanned from the left. *)
Fixpoint split_arrow (s : str) : list str :=
  match s with
  | [] => [[]]
  | c :: rest =>
      match rest with
      | d :: rest' =>
          if is_arrow c d then [] :: split_arrow rest'
          else match split_arrow rest with
               | p :: ps => (c :: p) :: ps
               | [] => [[c]]
               end
      | [] => [[c]]
      end
  end.

(** [''.join(parts)] *)
Definition join (parts : list str) : str := concat parts.

(** [str(n)] for a non-negative integer. *)
Definition str_of_nat (n : nat) : str :=
  lit (NilEmpty.string_of_uint (Nat.to_uint n)).

(** ** Exceptions *)

Inductive exn : Type :=
| ValueError (msg : string)
| TypeError (msg : string)
| IndexError (msg : string).

(** The outcome of a call: a value, a raised exception, or [Fuel] when the
    bound the model puts on a [while] loop or on a recursion was reached. *)
Inductive result (A : Type) : Type :=
| Ok (a : A)
| Raise (e : exn)
| Fuel.
Arguments Ok {A} a.
Arguments Raise {A} e.
Arguments Fuel {A}.

Definition rbind {A B} (r : result A) (k : A -> result B) : result B :=
  match r with
  | Ok a => k a
  | Raise e => Raise e
  | Fuel => Fuel
  end.

(** ** Symbols *)

Inductive Symbol : Type :=
| Terminal (v : str)
| Nonterminal (v : str)
| Epsilon.

Definition value (s : Symbol) : str :=
  match s with
  | Terminal v => v
  | Nonterminal v => v
  | Epsilon => [GreekEpsilon]
  end.

(** [Symbol.__str__] *)
Definition Symbol_str (s : Symbol) : str := value s.

(** [Symbol.__eq__], between two symbols: the values are compared, the
    classes are not. *)
Definition Symbol_eq (self other : Symbol) : bool :=
  str_eqb (value self) (value other).

Definition is_Nonterminal (s : Symbol) : bool :=
  match s with Nonterminal _ => true | _ => false end.

Definition is_Terminal (s : Symbol) : bool :=
  match s with Terminal _ => true | _ => false end.

(** [Nonterminal.__init__] *)
Definition Nonterminal_init (v : str) : result Symbol :=
  match v with
  | [] => Raise (IndexError "string index out of range")
  | c :: _ =>
      if negb (isupper c) then
        Raise (ValueError "Nonterminal must start with uppercase letter")
      else if (3 <? Z.of_nat (length v)) then
        Raise (ValueError "Nonterminal can't be longer than 3 characters")
      else Ok (Nonterminal v)
  end.

(** ** Grammar rules *)

Record GrammarRule : Type := mkRule {
  lhs : Symbol;
  rhs : list Symbol;
  rule_number : option Z
}.

Fixpoint all_eq (l1 l2 : list Symbol) : bool :=
  match l1, l2 with
  | s1 :: l1', s2 :: l2' => Symbol_eq s1 s2 && all_eq l1' l2'
  | _, _ => true
  end.

(** [GrammarRule.__eq__], between two rules. *)
Definition GrammarRule_eq (self other : GrammarRule) : bool :=
  Symbol_eq (lhs self) (lhs other)
  && Nat.eqb (length (rhs self)) (length (rhs other))
  && all_eq (rhs self) (rhs other).


Definition str_of_Z (n : Z) : str :=
  match n with
  | Zneg p => minus_sign :: str_of_nat (Pos.to_nat p)
  | _ => str_of_nat (Z.to_nat n)
  end.


(** ** The grammar container *)

Record Grammar : Type := mkGrammar {
  rules : list GrammarRule;       (* [self.rules], a set *)
  next_rule_number : Z            (* [self._next_rule_number] *)
}.

(** [Grammar.__init__] *)
Definition Grammar_init : Grammar := mkGrammar [] 1.

(** [rule in self.rules] *)
Definition rule_in (r : GrammarRule) (s : list GrammarRule) : bool :=
  existsb (GrammarRule_eq r) s.

(** [s.add(r)] on a set of rules: an equal element already there stays. *)
Definition rules_add (s : list GrammarRule) (r : GrammarRule) : list GrammarRule :=
  if rule_in r s then s else s ++ [r].

(** The sort key of [get_rules_list]: the rule number, or infinity ([None])
    when the rule has no number or has number 0. *)
Definition sort_key (x : GrammarRule) : option Z :=
  match rule_number x with
  | Some n => if n =? 0 then None else Some n
  | None => None
  end.

Definition key_le (a b : option Z) : bool :=
  match a, b with
  | Some m, Some n => m <=? n
  | _, None => true
  | None, Some _ => false
  end.

Fixpoint insert_sorted (x : GrammarRule) (l : list GrammarRule) : list GrammarRule :=
  match l with
  | [] => [x]
  | y :: l' =>
      if key_le (sort_key x) (sort_key y) then x :: l
      else y :: insert_sorted x l'
  end.

(** [sorted(l, key=...)]: a stable sort. *)
Definition sorted (l : list GrammarRule) : list GrammarRule :=
  fold_right insert_sorted [] l.

(** [Grammar.get_rules_list], which [Grammar.__iter__] iterates. *)
Definition get_rules_list (self : Grammar) : list GrammarRule :=
  sorted (rules self).

(** [Grammar.__len__] *)
Definition Grammar_len (self : Grammar) : nat := length (rules self).

(** [Grammar.__getitem__] *)
Definition Grammar_getitem (self : Grammar) (index : nat) : result GrammarRule :=
  match nth_error (get_rules_list self) index with
  | Some r => Ok r
  | None => Raise (IndexError "list index out of range")
  end.

(** *** Decoding a rule text *)

(** [rhs[-1]], when [rhs] is not empty. *)
Fixpoint last_symbol (l : list Symbol) : option Symbol :=
  match l with
  | [] => None
  | [x] => Some x
  | _ :: l' => last_symbol l'
  end.

(** The [while] loop of [add_rule] that reads the right-hand side;
    [rhs] is the list built so far. *)
Fixpoint read_rhs (rhs_str : str) (rhs : list Symbol) : result (list Symbol) :=
  match rhs_str with
  | [] => Ok rhs
  | c :: rest =>
      if isupper c then
        match rest with
        | next_char :: rest' =>
            if isdigit next_char || char_eqb next_char apostrophe then
              match Nonterminal_init [c; next_char] with
              | Ok nt => read_rhs rest' (rhs ++ [nt])
              | Raise e => Raise e
              | Fuel => Fuel
              end
            else
              match Nonterminal_init [c] with
              | Ok nt => read_rhs rest (rhs ++ [nt])
              | Raise e => Raise e
              | Fuel => Fuel
              end
        | [] =>
            match Nonterminal_init [c] with
            | Ok nt => Ok (rhs ++ [nt])
            | Raise e => Raise e
            | Fuel => Fuel
            end
        end
      else if char_eqb c apostrophe then
        match last_symbol rhs with
        | Some (Nonterminal v) =>
            match Nonterminal_init (v ++ [apostrophe]) with
            | Ok nt => read_rhs rest (removelast rhs ++ [nt])
            | Raise e => Raise e
            | Fuel => Fuel
            end
        | _ => read_rhs rest (rhs ++ [Terminal [c]])
        end
      else read_rhs rest (rhs ++ [Terminal [c]])
  end.

(** The right-hand sides that stand for an epsilon production. *)
Definition is_epsilon_text (rhs_str : str) : bool :=
  str_eqb rhs_str [] || isspace rhs_str
  || str_eqb rhs_str (lit "eps") || str_eqb rhs_str [GreekEpsilon].

(** Lines 57 to 98 of [add_rule]: from the text to the new rule, which has
    no number yet. *)
Definition decode_rule (rule_str : str) : result GrammarRule :=
  match split_arrow rule_str with
  | [part0; part1] =>
      let lhs_str := strip part0 in
      let rhs_str := strip part1 in
      rbind (Nonterminal_init lhs_str) (fun lhs =>
        if is_epsilon_text rhs_str
        then Ok (mkRule lhs [] None)
        else rbind (read_rhs (remove_spaces rhs_str) [])
                   (fun rhs => Ok (mkRule lhs rhs None)))
  | _ => Raise (ValueError "Invalid rule format")
  end.

(** *** Methods that change the grammar

    A method call takes the grammar it runs on and gives back its outcome
    together with the grammar as the call leaves it, also when it raises. *)

Definition M (A : Type) : Type := Grammar -> result A * Grammar.

Definition ret {A} (a : A) : M A := fun g => (Ok a, g).

Definition bind {A B} (m : M A) (k : A -> M B) : M B :=
  fun g =>
    match m g with
    | (Ok a, g') => k a g'
    | (Raise e, g') => (Raise e, g')
    | (Fuel, g') => (Fuel, g')
    end.

Definition raise {A} (e : exn) : M A := fun g => (Raise e, g).
Definition lift {A} (r : result A) : M A := fun g => (r, g).
Definition get : M Grammar := fun g => (Ok g, g).
Definition put (g : Grammar) : M unit := fun _ => (Ok tt, g).

Notation "x <- m ;; k" := (bind m (fun x => k))
  (at level 90, m at level 80, right associativity).
Notation "m ;;; k" := (bind m (fun _ => k))
  (at level 90, right associativity).

(** [for x in l: body(x)] *)
Fixpoint for_each {A} (l : list A) (body : A -> M unit) : M unit :=
  match l with
  | [] => ret tt
  | x :: l' => body x ;;; for_each l' body
  end.

Definition set_number (r : GrammarRule) (n : Z) : GrammarRule :=
  mkRule (lhs r) (rhs r) (Some n).

(** [Grammar.add_rule].  With a position, the method slices [self.rules],
    which is a set: the slice raises [TypeError], and the statements after
    it are never reached. *)
Definition add_rule (rule_str : str) (position : option Z) : M unit :=
  new_rule <- lift (decode_rule rule_str) ;;
  self <- get ;;
  if rule_in new_rule (rules self) then ret tt
  else
    match position with
    | None =>
        put (mkGrammar (rules self ++ [set_number new_rule (next_rule_number self)])
                       (next_rule_number self + 1))
    | Some position =>
        if position <? 1 then
          raise (ValueError "Rule position must be 1 or greater")
        else
          raise (TypeError "'set' object is not subscriptable")
    end.

(** The grammar [main] builds from the rule texts it reads, one call of
    [add_rule] for each; a text for which the call raises adds nothing. *)
Definition grammar_of (texts : list string) : Grammar :=
  fold_left (fun g t => snd (add_rule (lit t) None g)) texts Grammar_init.

(** [for x in l: acc = body(acc, x)], for a loop that also updates local
    variables. *)
Fixpoint fold_M {A S} (l : list A) (acc : S) (body : S -> A -> M S) : M S :=
  match l with
  | [] => ret acc
  | x :: l' => acc' <- body acc x ;; fold_M l' acc' body
  end.

(** [new_grammar = Grammar()], the calls on it, [return new_grammar]. *)
Definition build (m : M unit) : result Grammar :=
  match m Grammar_init with
  | (Ok _, g) => Ok g
  | (Raise e, _) => Raise e
  | (Fuel, _) => Fuel
  end.

(** ** The normalization pipeline *)

(** Sets of strings and of symbols, with [in] and [add]. *)
Definition str_in (s : str) (set : list str) : bool := existsb (str_eqb s) set.

Definition symbol_in (s : Symbol) (set : list Symbol) : bool :=
  existsb (Symbol_eq s) set.

Definition symbol_add (set : list Symbol) (s : Symbol) : list Symbol :=
  if symbol_in s set then set else set ++ [s].

(** [''.join(symbol.value for symbol in rhs)] *)
Definition rhs_text (rhs : list Symbol) : str := join (map value rhs).

(** *** Stage 1: non-productive symbols *)

(** The inner loop over [rule.rhs]: every nonterminal is in [productive]. *)
Definition all_productive (productive : list str) (rhs : list Symbol) : bool :=
  forallb (fun symbol =>
             if is_Nonterminal symbol then str_in (value symbol) productive
             else true) rhs.

(** One run of [for rule in grammar] inside the [while]. *)
Definition productive_pass (rs : list GrammarRule) (productive : list str)
  : list str * bool :=
  fold_left (fun '(productive, changed) rule =>
               if str_in (value (lhs rule)) productive then (productive, changed)
               else if all_productive productive (rhs rule)
                    then (productive ++ [value (lhs rule)], true)
                    else (productive, changed))
            rs (productive, false).

Fixpoint productive_loop (fuel : nat) (rs : list GrammarRule) (productive : list str)
  : result (list str) :=
  match fuel with
  | O => Fuel
  | S fuel' =>
      let '(productive', changed) := productive_pass rs productive in
      if changed then productive_loop fuel' rs productive' else Ok productive'
  end.

Definition find_productive_nonterminals (grammar : Grammar) : result (list str) :=
  let rs := get_rules_list grammar in
  productive_loop (S (length rs)) rs [].

Definition remove_nonproductive (grammar : Grammar) : result Grammar :=
  rbind (find_productive_nonterminals grammar) (fun productive_nts =>
    build (for_each (get_rules_list grammar) (fun rule =>
      if str_in (value (lhs rule)) productive_nts
         && all_productive productive_nts (rhs rule)
      then add_rule (value (lhs rule) ++ lit " -> " ++ rhs_text (rhs rule)) None
      else ret tt))).

(** *** Stage 2: unreachable symbols *)

Definition reachable_pass (rs : list GrammarRule) (reachable : list Symbol)
  : list Symbol :=
  fold_left (fun reachable rule =>
               if symbol_in (lhs rule) reachable then
                 fold_left (fun reachable symbol =>
                              if is_Nonterminal symbol
                              then symbol_add reachable symbol
                              else reachable)
                           (rhs rule) reachable
               else reachable)
            rs reachable.

Fixpoint reachable_loop (fuel : nat) (rs : list GrammarRule)
  (reachable : list Symbol) (old_size new_size : nat) : result (list Symbol) :=
  if Nat.eqb old_size new_size then Ok reachable
  else match fuel with
       | O => Fuel
       | S fuel' =>
           let old_size := length reachable in
           let reachable := reachable_pass rs reachable in
           reachable_loop fuel' rs reachable old_size (length reachable)
       end.

Definition remove_unreachable (grammar : Grammar) (start_symbol : str)
  : result Grammar :=
  rbind (Nonterminal_init start_symbol) (fun start =>
    let rs := get_rules_list grammar in
    rbind (reachable_loop (2 + length (flat_map rhs rs)) rs [start] 0 1)
      (fun reachable =>
        build (for_each rs (fun rule =>
          if symbol_in (lhs rule) reachable
          then add_rule (value (lhs rule) ++ lit "->" ++ rhs_text (rhs rule)) None
          else ret tt)))).

(** *** Stage 3: epsilon rules *)

Definition direct_eps_producers (rs : list GrammarRule) : list Symbol :=
  fold_left (fun eps rule =>
               match rhs rule with
               | [] => symbol_add eps (lhs rule)
               | _ => eps
               end) rs [].

Definition eps_pass (rs : list GrammarRule) (eps_producers : list Symbol)
  : list Symbol * bool :=
  fold_left (fun '(eps, changed) rule =>
               if negb (symbol_in (lhs rule) eps) then
                 match rhs rule with
                 | [] => (eps, changed)
                 | _ => if forallb (fun symbol => symbol_in symbol eps) (rhs rule)
                        then (symbol_add eps (lhs rule), true)
                        else (eps, changed)
                 end
               else (eps, changed))
            rs (eps_producers, false).

Fixpoint eps_loop (fuel : nat) (rs : list GrammarRule) (eps_producers : list Symbol)
  : result (list Symbol) :=
  match fuel with
  | O => Fuel
  | S fuel' =>
      let '(eps, changed) := eps_pass rs eps_producers in
      if changed then eps_loop fuel' rs eps else Ok eps
  end.

(** [enumerate(l)] *)
Definition enumerate {A} (l : list A) : list (nat * A) :=
  combine (seq 0 (length l)) l.

(** The positions of the nullable symbols of a right-hand side. *)
Definition eps_positions_of (eps_producers : list Symbol) (rhs : list Symbol)
  : list nat :=
  map fst (filter (fun '(_, symbol) => symbol_in symbol eps_producers)
                  (enumerate rhs)).

(** The positions a mask leaves out: those whose bit is 0. *)
Definition skip_positions_of (eps_positions : list nat) (mask : Z) : list nat :=
  map snd (filter (fun '(i, _) => Z.land mask (Z.shiftl 1 (Z.of_nat i)) =? 0)
                  (enumerate eps_positions)).

(** The right-hand side built for one mask. *)
Definition masked_rhs (rhs : list Symbol) (eps_positions : list nat) (mask : Z)
  : list Symbol :=
  let skip_positions := skip_positions_of eps_positions mask in
  map snd (filter (fun '(i, _) => negb (existsb (Nat.eqb i) skip_positions))
                  (enumerate rhs)).

(** All right-hand sides built for a rule, in the order of the masks
    [range(2**n_eps)]. *)
Definition eps_variants (eps_producers : list Symbol) (rhs : list Symbol)
  : list (list Symbol) :=
  let eps_positions := eps_positions_of eps_producers rhs in
  map (fun mask => masked_rhs rhs eps_positions (Z.of_nat mask))
      (seq 0 (2 ^ length eps_positions)).

Definition remove_epsilon_rules (grammar : Grammar) (start_symbol : Symbol)
  : result Grammar :=
  let rs := get_rules_list grammar in
  rbind (eps_loop (S (length rs)) rs (direct_eps_producers rs))
    (fun eps_producers =>
      build (
        (if symbol_in start_symbol eps_producers then
           new_start <- lift (Nonterminal_init (value start_symbol ++ lit "1")) ;;
           add_rule (Symbol_str new_start ++ lit " -> " ++ Symbol_str start_symbol)
                    None ;;;
           add_rule (Symbol_str new_start ++ lit " -> " ++ [GreekEpsilon]) None
         else ret tt) ;;;
        for_each rs (fun rule =>
          match rhs rule with
          | [] => ret tt
          | _ =>
              match eps_positions_of eps_producers (rhs rule) with
              | [] =>
                  add_rule (Symbol_str (lhs rule) ++ lit " -> "
                            ++ join (map Symbol_str (rhs rule))) None
              | _ =>
                  for_each (eps_variants eps_producers (rhs rule)) (fun new_rhs =>
                    match new_rhs with
                    | [] => ret tt
                    | _ => add_rule (Symbol_str (lhs rule) ++ lit " -> "
                                     ++ join (map Symbol_str new_rhs)) None
                    end)
              end
          end))).

(** *** Stage 4: chain rules *)

(** [len(rule.rhs) == 1 and isinstance(rule.rhs[0], Nonterminal)] *)
Definition is_chain_rule (rule : GrammarRule) : bool :=
  match rhs rule with
  | [s] => is_Nonterminal s
  | _ => false
  end.

(** [chain.update(other)] *)
Definition symbols_update (chain other : list Symbol) : list Symbol :=
  fold_left symbol_add other chain.

(** [find_chain(nt, visited)]: the chain found, and [visited] as the call
    leaves it.  [rs] is [grammar.rules]. *)
Fixpoint find_chain (fuel : nat) (rs : list GrammarRule) (nt : Symbol)
  (visited : list Symbol) : result (list Symbol * list Symbol) :=
  match fuel with
  | O => Fuel
  | S fuel' =>
      if symbol_in nt visited then Ok ([], visited)
      else
        fold_left
          (fun acc rule =>
             rbind acc (fun '(chain, visited) =>
               if Symbol_eq (lhs rule) nt && is_chain_rule rule then
                 match rhs rule with
                 | s :: _ =>
                     rbind (find_chain fuel' rs s visited) (fun '(sub, visited') =>
                       Ok (symbols_update chain sub, visited'))
                 | [] => Ok (chain, visited)
                 end
               else Ok (chain, visited)))
          rs (Ok ([nt], symbol_add visited nt))
  end.

Definition eliminate_chain_rules (grammar : Grammar) : result Grammar :=
  let rs := rules grammar in
  build (
    fold_M rs ([] : list str) (fun processed_rules rule =>
      let nt := lhs rule in
      chain <- lift (rbind (find_chain (2 + length rs) rs nt []) (fun r => Ok (fst r))) ;;
      fold_M chain processed_rules (fun processed_rules b =>
        fold_M rs processed_rules (fun processed_rules rule_b =>
          if Symbol_eq (lhs rule_b) b then
            if is_chain_rule rule_b then ret processed_rules
            else
              let new_rule_str :=
                Symbol_str nt ++ lit " -> " ++ join (map Symbol_str (rhs rule_b)) in
              if negb (str_in new_rule_str processed_rules) then
                add_rule new_rule_str None ;;;
                ret (processed_rules ++ [new_rule_str])
              else ret processed_rules
          else ret processed_rules)))
    ;;; ret tt).

(** *** Stage 5: Chomsky normal form *)

(** [get_new_nonterminal()]: the new nonterminal and [next_nt_number] as the
    call leaves it. *)
Fixpoint get_new_nonterminal (fuel : nat) (rs : list GrammarRule)
  (next_nt_number : Z) : result (Symbol * Z) :=
  match fuel with
  | O => Fuel
  | S fuel' =>
      let new_nt := lit "X" ++ str_of_Z next_nt_number in
      let next_nt_number := next_nt_number + 1 in
      if negb (existsb (fun rule => str_eqb (value (lhs rule)) new_nt) rs) then
        rbind (Nonterminal_init new_nt) (fun nt => Ok (nt, next_nt_number))
      else get_new_nonterminal fuel' rs next_nt_number
  end.

(** The local variables of [to_chomsky_normal_form]. *)
Record cnf_state : Type := mkCnf {
  cnf : Grammar;
  new_rules : list (GrammarRule * (Symbol * list Symbol));   (* a dict *)
  terminal_rules : list (str * Symbol);                      (* a dict *)
  next_nt_number : Z
}.

Definition dict_get (d : list (str * Symbol)) (k : str) : option Symbol :=
  option_map snd (find (fun '(k', _) => str_eqb k k') d).

(** [new_rules[rule] = v] *)
Fixpoint new_rules_set (d : list (GrammarRule * (Symbol * list Symbol)))
  (rule : GrammarRule) (v : Symbol * list Symbol)
  : list (GrammarRule * (Symbol * list Symbol)) :=
  match d with
  | [] => [(rule, v)]
  | (k, w) :: d' =>
      if GrammarRule_eq rule k then (k, v) :: d'
      else (k, w) :: new_rules_set d' rule v
  end.

(** [cnf.rules.add(GrammarRule(lhs, rhs))] *)
Definition cnf_rules_add (g : Grammar) (lhs : Symbol) (rhs : list Symbol) : Grammar :=
  mkGrammar (rules_add (rules g) (mkRule lhs rhs None)) (next_rule_number g).

(** The loop over the symbols of a rule with two or more of them: every
    terminal is replaced by its nonterminal, made on first use. *)
Fixpoint isolate_terminals (rs : list GrammarRule) (symbols : list Symbol)
  (new_rhs : list Symbol) (st : cnf_state) : result (list Symbol * cnf_state) :=
  match symbols with
  | [] => Ok (new_rhs, st)
  | symbol :: symbols' =>
      if is_Terminal symbol then
        match dict_get (terminal_rules st) (value symbol) with
        | Some nt => isolate_terminals rs symbols' (new_rhs ++ [nt]) st
        | None =>
            rbind (get_new_nonterminal (S (length rs)) rs (next_nt_number st))
              (fun '(new_nt, next) =>
                match add_rule (value new_nt ++ lit " -> " ++ value symbol) None
                               (cnf st) with
                | (Ok _, cnf') =>
                    isolate_terminals rs symbols' (new_rhs ++ [new_nt])
                      (mkCnf cnf' (new_rules st)
                             (terminal_rules st ++ [(value symbol, new_nt)]) next)
                | (Raise e, _) => Raise e
                | (Fuel, _) => Fuel
                end)
        end
      else isolate_terminals rs symbols' (new_rhs ++ [symbol]) st
  end.

(** [l[-2]] and [l[-1]] with [l[:-2]], for a list of two or more. *)
Definition split_last_two (l : list Symbol)
  : option (list Symbol * Symbol * Symbol) :=
  match rev l with
  | z :: y :: front => Some (rev front, y, z)
  | _ => None
  end.

(** The [while len(current_rhs) > 2] loop. *)
Fixpoint binarize (fuel : nat) (rs : list GrammarRule) (current_rhs : list Symbol)
  (g : Grammar) (next : Z) : result (list Symbol * Grammar * Z) :=
  if (2 <? length current_rhs)%nat then
    match fuel with
    | O => Fuel
    | S fuel' =>
        rbind (get_new_nonterminal (S (length rs)) rs next) (fun '(new_nt, next') =>
          match split_last_two current_rhs with
          | Some (front, y, z) =>
              binarize fuel' rs (front ++ [new_nt]) (cnf_rules_add g new_nt [y; z]) next'
          | None => Raise (IndexError "list index out of range")
          end)
    end
  else Ok (current_rhs, g, next).

(** The position of a rule in a list of rules. *)
Fixpoint index_of (r : GrammarRule) (l : list GrammarRule) : Z :=
  match l with
  | [] => 0
  | x :: l' => if GrammarRule_eq r x then 0 else 1 + index_of r l'
  end.

(** The last lines: every rule gets as number its place, from 1, in the
    sorted sequence; the set keeps its elements. *)
Definition renumber (g : Grammar) : Grammar :=
  let sorted_rules := sorted (rules g) in
  mkGrammar (map (fun rule => set_number rule (1 + index_of rule sorted_rules))
                 (rules g))
            (Z.of_nat (length (rules g)) + 1).

Definition to_chomsky_normal_form (grammar : Grammar) : result Grammar :=
  let rs := rules grammar in
  (* terminals within longer rules *)
  rbind
    (fold_left
       (fun acc rule =>
          rbind acc (fun st =>
            if (2 <=? length (rhs rule))%nat then
              rbind (isolate_terminals rs (rhs rule) [] st) (fun '(new_rhs, st') =>
                Ok (mkCnf (cnf st')
                          (new_rules_set (new_rules st') rule (lhs rule, new_rhs))
                          (terminal_rules st') (next_nt_number st')))
            else
              Ok (mkCnf (cnf_rules_add (cnf st) (lhs rule) (rhs rule))
                        (new_rules st) (terminal_rules st) (next_nt_number st))))
       (get_rules_list grammar)
       (Ok (mkCnf Grammar_init [] [] 1)))
    (fun st =>
       (* rules with more than two nonterminals *)
       rbind
         (fold_left
            (fun acc '(_, (lhs, rhs)) =>
               rbind acc (fun '(g, next) =>
                 rbind (binarize (length rhs) rs rhs g next)
                   (fun '(current_rhs, g', next') =>
                      match current_rhs with
                      | [] => Ok (g', next')
                      | _ => Ok (cnf_rules_add g' lhs current_rhs, next')
                      end)))
            (new_rules st)
            (Ok (cnf st, next_nt_number st)))
         (fun '(g, _) => Ok (renumber g))).

(** ** The CYK recognizer *)

(** An element of a cell of the table: [(rule.lhs, rule.rule_number)]. *)
Definition entry : Type := Symbol * option Z.

Definition number_eqb (a b : option Z) : bool :=
  match a, b with
  | Some m, Some n => m =? n
  | None, None => true
  | _, _ => false
  end.

Definition entry_eq (a b : entry) : bool :=
  Symbol_eq (fst a) (fst b) && number_eqb (snd a) (snd b).

(** [cell.add(nt_rule)] *)
Definition cell_add (cell : list entry) (nt_rule : entry) : list entry :=
  if existsb (entry_eq nt_rule) cell then cell else cell ++ [nt_rule].

Record CYKParser : Type := mkParser {
  start_symbol : option Symbol;
  grammar : Grammar;
  recognition_table : gmap (nat * nat) (list entry)
}.

(** [CYKParser.__init__] *)
Definition CYKParser_init (grammar : Grammar) : result CYKParser :=
  let start_symbol :=
    match get_rules_list grammar with
    | first :: _ => Some (lhs first)
    | [] => None
    end in
  match start_symbol with
  | Some start =>
      rbind (remove_nonproductive grammar) (fun grammar =>
      rbind (remove_unreachable grammar (value start)) (fun grammar =>
      rbind (remove_epsilon_rules grammar start) (fun grammar =>
      rbind (eliminate_chain_rules grammar) (fun grammar =>
      rbind (to_chomsky_normal_form grammar) (fun grammar =>
        Ok (mkParser (Some start) grammar ∅))))))
  | None => Ok (mkParser None grammar ∅)
  end.

(** [CYKParser.add_to_table], on the table. *)
Definition add_to_table (table : gmap (nat * nat) (list entry)) (i j : nat)
  (nt_rule : entry) : gmap (nat * nat) (list entry) :=
  let cell := match table !! (i, j) with Some cell => cell | None => [] end in
  <[(i, j) := cell_add cell nt_rule]> table.

(** The rule is [A -> t] with [t] a terminal whose value is the character. *)
Definition is_unit_rule_for (rule : GrammarRule) (c : char) : bool :=
  match rhs rule with
  | [t] => is_Terminal t && str_eqb (value t) [c]
  | _ => false
  end.

(** The first loop of [parse], for the spans of length 1. *)
Definition fill_base (rs : list GrammarRule) (word : str)
  (table : gmap (nat * nat) (list entry)) : gmap (nat * nat) (list entry) :=
  fold_left (fun table '(i, c) =>
               fold_left (fun table rule =>
                            if is_unit_rule_for rule c
                            then add_to_table table i 1 (lhs rule, rule_number rule)
                            else table)
                         rs table)
            (enumerate word) table.

(** The body of the loop over the rules, at a cell [(i, j)] and a split [k]. *)
Definition fill_rule (i j k : nat) (table : gmap (nat * nat) (list entry))
  (rule : GrammarRule) : gmap (nat * nat) (list entry) :=
  match rhs rule with
  | [rhs0; rhs1] =>
      match table !! (i, k), table !! ((i + k)%nat, (j - k)%nat) with
      | Some left_cell, Some right_cell =>
          fold_left (fun table '(left_nt, _) =>
            fold_left (fun table '(right_nt, _) =>
                         if Symbol_eq rhs0 left_nt && Symbol_eq rhs1 right_nt
                         then add_to_table table i j (lhs rule, rule_number rule)
                         else table)
                      right_cell table)
            left_cell table
      | _, _ => table
      end
  | _ => table
  end.

(** The second loop of [parse], for the spans of length 2 and more. *)
Definition fill_table (rs : list GrammarRule) (n : nat)
  (table : gmap (nat * nat) (list entry)) : gmap (nat * nat) (list entry) :=
  fold_left (fun table j =>
    fold_left (fun table i =>
      fold_left (fun table k =>
        fold_left (fill_rule i j k) rs table)
        (seq 1 (j - 1)) table)
      (seq 0 (n - j + 1)) table)
    (seq 2 (n - 1)) table.

(** [_trace_rules] for a span of length 1. *)
Fixpoint trace_unit (rs : list GrammarRule) (word : str) (i : nat)
  (current_nt : Symbol) : result (list (option Z)) :=
  match rs with
  | [] => Ok []
  | rule :: rs' =>
      match rhs rule with
      | [t] =>
          if is_Terminal t && Symbol_eq (lhs rule) current_nt then
            match nth_error word i with
            | Some c =>
                if str_eqb (value t) [c] then Ok [rule_number rule]
                else trace_unit rs' word i current_nt
            | None => Raise (IndexError "string index out of range")
            end
          else trace_unit rs' word i current_nt
      | _ => trace_unit rs' word i current_nt
      end
  end.

(** The condition under which [_trace_rules] returns from its loops. *)
Definition justifies (current_nt left_nt right_nt : Symbol) (rule : GrammarRule)
  : bool :=
  Symbol_eq (lhs rule) current_nt
  && match rhs rule with
     | [rhs0; rhs1] => Symbol_eq rhs0 left_nt && Symbol_eq rhs1 right_nt
     | _ => false
     end.

(** What the three loops of [_trace_rules] below a split visit, in the
    order they run: the left cell, the right cell, the rules. *)
Definition candidates (rs : list GrammarRule) (left_cell right_cell : list entry)
  : list (Symbol * Symbol * GrammarRule) :=
  flat_map (fun '(left_nt, _) =>
    flat_map (fun '(right_nt, _) =>
      map (fun rule => (left_nt, right_nt, rule)) rs)
      right_cell)
    left_cell.

(** The loops of [_trace_rules] below a split [k]: the first candidate at
    which they return. *)
Definition choose_at (self : CYKParser) (i j k : nat) (current_nt : Symbol)
  : option (Symbol * Symbol * GrammarRule) :=
  match recognition_table self !! (i, k),
        recognition_table self !! ((i + k)%nat, (j - k)%nat) with
  | Some left_cell, Some right_cell =>
      find (fun '(left_nt, right_nt, rule) =>
              justifies current_nt left_nt right_nt rule)
           (candidates (get_rules_list (grammar self)) left_cell right_cell)
  | _, _ => None
  end.

(** The loop over the splits: the first split at which the inner loops
    return. *)
Fixpoint choose_from (self : CYKParser) (i j : nat) (current_nt : Symbol)
  (ks : list nat) : option (nat * (Symbol * Symbol * GrammarRule)) :=
  match ks with
  | [] => None
  | k :: ks' =>
      match choose_at self i j k current_nt with
      | Some found => Some (k, found)
      | None => choose_from self i j current_nt ks'
      end
  end.

Definition choose (self : CYKParser) (i j : nat) (current_nt : Symbol)
  : option (nat * (Symbol * Symbol * GrammarRule)) :=
  choose_from self i j current_nt (seq 1 (j - 1)).

(** [_trace_rules(i, j, current_nt)].  The recursion is on shorter spans;
    [fuel] bounds its depth and any [fuel >= j] is enough. *)
Fixpoint trace_rules (fuel : nat) (self : CYKParser) (word : str) (i j : nat)
  (current_nt : Symbol) : result (list (option Z)) :=
  if Nat.eqb j 1 then trace_unit (get_rules_list (grammar self)) word i current_nt
  else
    match choose self i j current_nt with
    | None => Ok []
    | Some (k, (left_nt, right_nt, rule)) =>
        match fuel with
        | O => Fuel
        | S fuel' =>
            rbind (trace_rules fuel' self word i k left_nt) (fun left =>
            rbind (trace_rules fuel' self word (i + k) (j - k) right_nt) (fun right =>
              Ok (rule_number rule :: left ++ right)))
        end
    end.

(** [rule_number] is [None] or 0. *)
Definition falsy (n : option Z) : bool :=
  match n with
  | Some n => n =? 0
  | None => true
  end.

(** [CYKParser.get_derivation_rules] *)
Definition get_derivation_rules (self : CYKParser) (word : str)
  : result (list (option Z)) :=
  let n := length word in
  match recognition_table self !! (0%nat, n), start_symbol self with
  | Some cell, Some start =>
      let start_rule_number :=
        match find (fun '(nt, _) => Symbol_eq nt start) cell with
        | Some (_, rule_number) => rule_number
        | None => None
        end in
      if falsy start_rule_number then Ok []
      else trace_rules n self word 0 n start
  | _, _ => Ok []
  end.

(** [CYKParser.parse]: what the call returns, and the parser as the call
    leaves it. *)
Definition parse (self : CYKParser) (word : str)
  : result (bool * option (list (option Z))) * CYKParser :=
  let n := length word in
  let rs := get_rules_list (grammar self) in
  let table := fill_table rs n (fill_base rs word ∅) in
  let self := mkParser (start_symbol self) (grammar self) table in
  match table !! (0%nat, n), start_symbol self with
  | Some cell, Some start =>
      if existsb (fun '(nt, _) => Symbol_eq nt start) cell then
        (rbind (get_derivation_rules self word) (fun rule_numbers =>
           Ok (true, Some rule_numbers)), self)
      else (Ok (false, None), self)
  | _, _ => (Ok (false, None), self)
  end.

(** What [main] does with the rule texts it reads and a word: build the
    grammar, construct the parser, call [parse]. *)
Definition recognize (texts : list string) (word : string)
  : result (bool * option (list (option Z))) :=
  rbind (CYKParser_init (grammar_of texts)) (fun parser =>
    fst (parse parser (lit word))).

(** ** Notions the properties are stated with *)

(** [Symbol.__hash__], where [hash] is Python's hash of a [str]. *)
Definition Symbol_hash (hash : str -> Z) (self : Symbol) : Z := hash (value self).

(** The class of a symbol. *)
Inductive category : Type := IsTerminal | IsNonterminal | IsEpsilon.

Definition category_of (s : Symbol) : category :=
  match s with
  | Terminal _ => IsTerminal
  | Nonterminal _ => IsNonterminal
  | Epsilon => IsEpsilon
  end.

(** The words a symbol derives with a set of rules: a terminal derives its
    own character, the left-hand side of a rule derives what the symbols of
    the right-hand side derive one after the other. *)
Inductive derives (rs : list GrammarRule) : Symbol -> str -> Prop :=
| derives_terminal v : derives rs (Terminal v) v
| derives_rule rule w :
    In rule rs -> derives_rhs rs (rhs rule) w -> derives rs (lhs rule) w
with derives_rhs (rs : list GrammarRule) : list Symbol -> str -> Prop :=
| derives_nil : derives_rhs rs [] []
| derives_cons s rest w1 w2 :
    derives rs s w1 -> derives_rhs rs rest w2 ->
    derives_rhs rs (s :: rest) (w1 ++ w2).

(** The two shapes of a rule in Chomsky normal form. *)
Definition cnf_shape (rule : GrammarRule) : bool :=
  match rhs rule with
  | [Terminal _] => true
  | [Nonterminal _; Nonterminal _] => true
  | _ => false
  end.

(** The two rules [remove_epsilon_rules] adds for a nullable start symbol. *)
Definition start_exception (start : Symbol) (rule : GrammarRule) : bool :=
  str_eqb (value (lhs rule)) (value start ++ lit "1")
  && match rhs rule with
     | [] => true
     | [s] => Symbol_eq s start
     | _ => false
     end.

(** The text a stage writes for a rule, read back by [add_rule]. *)
Definition stage_text (rule : GrammarRule) : str :=
  value (lhs rule) ++ lit " -> " ++ rhs_text (rhs rule).

Definition no_space (s : str) : bool :=
  forallb (fun c => negb (char_eqb c space)) s.

(** No occurrence of the separator in a text. *)
Fixpoint no_arrow (s : str) : bool :=
  match s with
  | c :: rest =>
      match rest with
      | d :: _ => negb (is_arrow c d) && no_arrow rest
      | [] => true
      end
  | [] => true
  end.

(** A text with no whitespace at either end, which [strip] leaves as it
    is. *)
Definition clean (s : str) : Prop := lstrip s = s /\ lstrip (rev s) = rev s.

(** A cell of the table holds a nonterminal. *)
Definition in_cell (self : CYKParser) (i j : nat) (nt : Symbol) : Prop :=
  exists (cell : list entry) (n : option Z),
    recognition_table self !! (i, j) = Some cell /\ In (nt, n) cell.

(** Every cell of the table lies within a word of length [n]. *)
Definition table_within (table : gmap (nat * nat) (list entry)) (n : nat) : Prop :=
  forall i j cell, table !! (i, j) = Some cell -> (1 <= j /\ i + j <= n)%nat.

(** No cell of the table covers the position [p]. *)
Definition table_avoids (table : gmap (nat * nat) (list entry)) (p : nat) : Prop :=
  forall i j, (i <= p < i + j)%nat -> table !! (i, j) = None.

(** ** Notions the further properties are stated with *)

(** *** The grammar container *)

(** The order of two rules in the sequence [get_rules_list] returns. *)
Definition key_order (a b : GrammarRule) : Prop :=
  key_le (sort_key a) (sort_key b) = true.

Definition same_key (k : option Z) (x : GrammarRule) : bool :=
  number_eqb (sort_key x) k.

(** The rules of a list carry the numbers [n], [n + 1], ... in the order of
    the list. *)
Fixpoint numbered (l : list GrammarRule) (n : Z) : Prop :=
  match l with
  | [] => True
  | r :: l' => rule_number r = Some n /\ numbered l' (n + 1)
  end.

(** No two rules of a list are equal for [GrammarRule.__eq__]. *)
Fixpoint distinct (l : list GrammarRule) : Prop :=
  match l with
  | [] => True
  | r :: l' => rule_in r l' = false /\ distinct l'
  end.

(** A name [Nonterminal.__init__] accepts. *)
Definition valid_name (v : str) : Prop := Nonterminal_init v = Ok (Nonterminal v).

(** A symbol as [add_rule] reads it from a right-hand side: a terminal of
    one character that is neither an uppercase letter nor a space, or a
    nonterminal with a valid name. *)
Definition read_symbol (s : Symbol) : Prop :=
  match s with
  | Terminal [c] => isupper c = false /\ c <> space
  | Nonterminal v => valid_name v
  | _ => False
  end.

(** A rule as [add_rule] decodes it. *)
Definition read_rule (r : GrammarRule) : Prop :=
  (exists v, lhs r = Nonterminal v /\ valid_name v) /\ Forall read_symbol (rhs r).

(** A grammar as calls of [add_rule] leave it: the rules are numbered from
    1 in the order they were added, the next number follows the last one,
    no rule is there twice, and every rule is as [add_rule] decodes it. *)
Definition grammar_ok (g : Grammar) : Prop :=
  numbered (rules g) 1
  /\ next_rule_number g = 1 + Z.of_nat (length (rules g))
  /\ distinct (rules g)
  /\ Forall read_rule (rules g).

(** A computation on a grammar keeps a property of the grammar. *)
Definition keeps {A} (P : Grammar -> Prop) (m : M A) : Prop :=
  forall g, P g -> P (snd (m g)).

(** *** The recognizer *)

(** [word[i:i+j]] *)
Definition span (word : str) (i j : nat) : str := firstn j (skipn i word).

(** The words a nonterminal derives with the rules of the two shapes the
    recognizer looks at, [A -> t] and [A -> B C].  As the recognizer does,
    the relation goes by the values of the symbols. *)
Inductive cnf_derives (rs : list GrammarRule) : str -> str -> Prop :=
| cnf_derives_unit rule c :
    In rule rs -> is_unit_rule_for rule c = true ->
    cnf_derives rs (value (lhs rule)) [c]
| cnf_derives_pair rule rhs0 rhs1 w1 w2 :
    In rule rs -> rhs rule = [rhs0; rhs1] ->
    cnf_derives rs (value rhs0) w1 -> cnf_derives rs (value rhs1) w2 ->
    cnf_derives rs (value (lhs rule)) (w1 ++ w2).

(** A derivation of a word from a nonterminal, written as the numbers of
    its rules from the root down and from left to right. *)
Inductive derivation_of (rs : list GrammarRule)
  : str -> str -> list (option Z) -> Prop :=
| derivation_unit rule c :
    In rule rs -> is_unit_rule_for rule c = true ->
    derivation_of rs (value (lhs rule)) [c] [rule_number rule]
| derivation_pair rule rhs0 rhs1 w1 w2 d1 d2 :
    In rule rs -> rhs rule = [rhs0; rhs1] ->
    derivation_of rs (value rhs0) w1 d1 -> derivation_of rs (value rhs1) w2 d2 ->
    derivation_of rs (value (lhs rule)) (w1 ++ w2) (rule_number rule :: d1 ++ d2).

(** A cell of a table holds a symbol. *)
Definition in_table (table : gmap (nat * nat) (list entry)) (i j : nat)
  (nt : Symbol) : Prop :=
  exists (cell : list entry) (m : option Z),
    table !! (i, j) = Some cell /\ In (nt, m) cell.

(** A cell of a table holds a symbol of a given value. *)
Definition table_has (table : gmap (nat * nat) (list entry)) (i j : nat)
  (v : str) : Prop :=
  exists nt, in_table table i j nt /\ value nt = v.

(** Every element of the table is there for a reason: it is the left-hand
    side and the number of a rule that, for a span of length 1, has the
    character of the word at that place, and for a longer span has its two
    symbols in the two cells of a split. *)
Definition table_justified (rs : list GrammarRule) (word : str)
  (table : gmap (nat * nat) (list entry)) : Prop :=
  forall i j (cell : list entry) nt m,
    table !! (i, j) = Some cell -> In (nt, m) cell ->
    exists rule,
      In rule rs /\ lhs rule = nt /\ rule_number rule = m
      /\ ((j = 1%nat
           /\ exists c, nth_error word i = Some c
                        /\ is_unit_rule_for rule c = true)
          \/ ((2 <= j)%nat
              /\ exists k rhs0 rhs1 left_nt right_nt,
                   (1 <= k < j)%nat /\ rhs rule = [rhs0; rhs1]
                   /\ in_table table i k left_nt
                   /\ in_table table (i + k) (j - k) right_nt
                   /\ Symbol_eq rhs0 left_nt = true
                   /\ Symbol_eq rhs1 right_nt = true)).

(** The table [parse] builds for a word. *)
Definition table_of (self : CYKParser) (word : str)
  : gmap (nat * nat) (list entry) :=
  fill_table (get_rules_list (grammar self)) (length word)
    (fill_base (get_rules_list (grammar self)) word ∅).

(** The cells of the spans up to a length hold all that is derived. *)
Definition complete_upto (rs : list GrammarRule) (word : str) (J : nat)
  (table : gmap (nat * nat) (list entry)) : Prop :=
  forall i j v,
    (1 <= j <= J)%nat -> (i + j <= length word)%nat ->
    cnf_derives rs v (span word i j) -> table_has table i j v.

(** *** The analyses of the pipeline *)

(** The shape the loops of [find_productive_nonterminals] and of the
    nullable symbols share: passes over the rules that add to a set where a
    condition holds, until a pass adds nothing. *)
Definition sat_step {X S} (cond : S -> X -> bool) (add : S -> X -> S)
  (st : S * bool) (x : X) : S * bool :=
  if cond (fst st) x then (add (fst st) x, true) else st.

Definition sat_pass {X S} (cond : S -> X -> bool) (add : S -> X -> S)
  (xs : list X) (s : S) : S * bool :=
  fold_left (sat_step cond add) xs (s, false).

Fixpoint sat_loop {X S} (cond : S -> X -> bool) (add : S -> X -> S)
  (fuel : nat) (xs : list X) (s : S) : result S :=
  match fuel with
  | O => Fuel
  | S fuel' =>
      let '(s', changed) := sat_pass cond add xs s in
      if changed then sat_loop cond add fuel' xs s' else Ok s'
  end.

(** A nonterminal, by its name, is productive: it is the left-hand side of
    a rule whose nonterminals are all productive. *)
Inductive productive (rs : list GrammarRule) : str -> Prop :=
| productive_rule rule :
    In rule rs ->
    (forall s, In s (rhs rule) -> is_Nonterminal s = true ->
               productive rs (value s)) ->
    productive rs (value (lhs rule)).

(** A symbol, by its value, is nullable: it is the left-hand side of a rule
    whose symbols are all nullable, as are those of an empty right-hand
    side. *)
Inductive nullable (rs : list GrammarRule) : str -> Prop :=
| nullable_rule rule :
    In rule rs ->
    (forall s, In s (rhs rule) -> nullable rs (value s)) ->
    nullable rs (value (lhs rule)).

Definition productive_cond (productive : list str) (rule : GrammarRule) : bool :=
  negb (str_in (value (lhs rule)) productive)
  && all_productive productive (rhs rule).

Definition productive_add (productive : list str) (rule : GrammarRule) : list str :=
  productive ++ [value (lhs rule)].

Definition eps_cond (eps : list Symbol) (rule : GrammarRule) : bool :=
  negb (symbol_in (lhs rule) eps)
  && match rhs rule with
     | [] => false
     | _ => forallb (fun symbol => symbol_in symbol eps) (rhs rule)
     end.

Definition eps_add (eps : list Symbol) (rule : GrammarRule) : list Symbol :=
  symbol_add eps (lhs rule).

(** What the loops keep of the set of nullable symbols. *)
Definition eps_invariant (rs : list GrammarRule) (eps : list Symbol) : Prop :=
  NoDup (map value eps)
  /\ incl (map value eps) (map (fun rule => value (lhs rule)) rs)
  /\ forall s, In s eps -> nullable rs (value s).

(** A nonterminal, by its name, is reachable from the start symbol: it is
    the start symbol, or it stands in the right-hand side of a rule of a
    reachable symbol. *)
Inductive reachable_from (rs : list GrammarRule) (start : str) : str -> Prop :=
| reachable_start : reachable_from rs start start
| reachable_step rule s :
    In rule rs -> reachable_from rs start (value (lhs rule)) ->
    In s (rhs rule) -> is_Nonterminal s = true ->
    reachable_from rs start (value s).

(** What the loop of [remove_unreachable] keeps of its set. *)
Definition reachable_invariant (rs : list GrammarRule) (start : str)
  (reachable : list Symbol) : Prop :=
  NoDup (map value reachable)
  /\ incl (map value reachable) (start :: map value (flat_map rhs rs))
  /\ In start (map value reachable)
  /\ forall s, In s reachable -> reachable_from rs start (value s).

(** A further pass would add nothing to the set. *)
Definition reachable_closed (rs : list GrammarRule) (reachable : list Symbol)
  : Prop :=
  forall rule s,
    In rule rs -> symbol_in (lhs rule) reachable = true ->
    In s (rhs rule) -> is_Nonterminal s = true ->
    symbol_in s reachable = true.

(** A right-hand side with some of its nullable symbols left out, the
    other symbols in their order. *)
Inductive omits (eps : list Symbol) : list Symbol -> list Symbol -> Prop :=
| omits_nil : omits eps [] []
| omits_keep s l l' : omits eps l l' -> omits eps (s :: l) (s :: l')
| omits_drop s l l' :
    symbol_in s eps = true -> omits eps l l' -> omits eps (s :: l) l'.

(** *** The shape of the rules after [to_chomsky_normal_form] *)

(** A nonterminal with a name [Nonterminal] accepts. *)
Definition nonterminal_symbol (s : Symbol) : Prop :=
  exists v, s = Nonterminal v /\ valid_name v.

(** A right-hand side of at most two symbols, and of nonterminals when it
    has two. *)
Definition binary_shape (rule : GrammarRule) : Prop :=
  (length (rhs rule) <= 2)%nat
  /\ ((length (rhs rule) = 2)%nat ->
      Forall (fun symbol => is_Nonterminal symbol = true) (rhs rule)).

(** What [to_chomsky_normal_form] keeps of the grammar it builds. *)
Definition shaped (g : Grammar) : Prop :=
  Forall read_rule (rules g) /\ Forall binary_shape (rules g).

(** What [to_chomsky_normal_form] keeps of its local variables. *)
Definition cnf_state_ok (st : cnf_state) : Prop :=
  shaped (cnf st)
  /\ Forall (fun '(_, (lhs, rhs)) =>
               nonterminal_symbol lhs /\ Forall nonterminal_symbol rhs)
            (new_rules st)
  /\ Forall (fun '(_, nt) => nonterminal_symbol nt) (terminal_rules st).

(** *** Chains of unit rules *)

(** A chain rule leads from the name of its left-hand side to the name of
    the nonterminal that is its right-hand side. *)
Definition chain_step (rs : list GrammarRule) (a b : str) : Prop :=
  exists rule s,
    In rule rs /\ value (lhs rule) = a /\ rhs rule = [s]
    /\ is_Nonterminal s = true /\ value s = b.

(** The names reached from a name through chain rules. *)
Inductive chain_of (rs : list GrammarRule) (a : str) : str -> Prop :=
| chain_of_self : chain_of rs a a
| chain_of_step b c : chain_of rs a b -> chain_step rs b c -> chain_of rs a c.

(** The rules whose left-hand side [find_chain] has not visited. *)
Definition unvisited (rs : list GrammarRule) (visited : list Symbol)
  : list GrammarRule :=
  filter (fun rule => negb (symbol_in (lhs rule) visited)) rs.

(** What a call of [find_chain] on [nt] with the set [visited] returns:
    the set [chain] and the set [visited'] the call leaves. *)
Definition find_chain_post (rs : list GrammarRule) (nt : Symbol)
  (visited chain visited' : list Symbol) : Prop :=
  (forall v, In v (map value visited) -> In v (map value visited'))
  /\ (forall v, In v (map value chain)
                <-> In v (map value visited') /\ ~ In v (map value visited))
  /\ In (value nt) (map value visited')
  /\ (forall u w, In u (map value chain) -> chain_step rs u w ->
                  In w (map value visited'))
  /\ (forall u, In u (map value chain) -> chain_of rs (value nt) u).

(** The same in the course of the loop of [find_chain] over the rules,
    when the rules of [done] have been seen. *)
Definition find_chain_during (rs : list GrammarRule) (nt : Symbol)
  (visited : list Symbol) (done : list GrammarRule)
  (chain visited' : list Symbol) : Prop :=
  (forall v, In v (map value visited) -> In v (map value visited'))
  /\ (forall v, In v (map value chain)
                <-> In v (map value visited') /\ ~ In v (map value visited))
  /\ In (value nt) (map value chain)
  /\ (forall u w, In u (map value chain) -> u <> value nt -> chain_step rs u w ->
                  In w (map value visited'))
  /\ (forall rule s rest,
        In rule done -> Symbol_eq (lhs rule) nt && is_chain_rule rule = true ->
        rhs rule = s :: rest -> In (value s) (map value visited'))
  /\ (forall u, In u (map value chain) -> chain_of rs (value nt) u).

(** *** Rules that read back from their text *)

(** A rule as a stage makes it: without a number. *)
Definition without_number (rule : GrammarRule) : GrammarRule :=
  mkRule (lhs rule) (rhs rule) None.

(** A rule that [add_rule] decodes from the text a stage writes for it. *)
Definition stable (rule : GrammarRule) : Prop :=
  decode_rule (stage_text rule) = Ok (without_number rule).

(** What a call of [add_rule] that has decoded a rule does to the grammar. *)
Definition add_decoded (g : Grammar) (rule : GrammarRule) : Grammar :=
  if rule_in rule (rules g) then g
  else mkGrammar (rules g ++ [set_number rule (next_rule_number g)])
                 (next_rule_number g + 1).

(** *** The loops of [eliminate_chain_rules] *)

(** The rule made from the name of [a] and the right-hand side of [b], and
    the text written for it. *)
Definition chain_rule_of (a b : GrammarRule) : GrammarRule :=
  mkRule (lhs a) (rhs b) None.

Definition chain_rule_text (a b : GrammarRule) : str :=
  Symbol_str (lhs a) ++ lit " -> " ++ join (map Symbol_str (rhs b)).

(** One turn of the innermost loop, over the rules [b], for the rule [a]
    and the member [c] of its chain: what it does to [processed_rules] and
    to the new grammar when the text is read as the rule it stands for. *)
Definition chain_rule_step (a : GrammarRule) (c : Symbol)
  (st : list str * Grammar) (b : GrammarRule) : list str * Grammar :=
  if Symbol_eq (lhs b) c then
    if is_chain_rule b then st
    else (if negb (str_in (chain_rule_text a b) (fst st))
          then fst st ++ [chain_rule_text a b] else fst st,
          add_decoded (snd st) (chain_rule_of a b))
  else st.

(** The set [find_chain] returns for the left-hand side of a rule. *)
Definition chain_of_rule (rs : list GrammarRule) (a : GrammarRule) : list Symbol :=
  match find_chain (2 + length rs) rs (lhs a) [] with
  | Ok (chain, _) => chain
  | _ => []
  end.

(** One turn of the outer loop. *)
Definition chain_rules_pass (rs : list GrammarRule) (st : list str * Grammar)
  (a : GrammarRule) : list str * Grammar :=
  fold_left (fun st c => fold_left (chain_rule_step a c) rs st)
            (chain_of_rule rs a) st.

(** Every text of [processed_rules] stands for a rule of the new grammar. *)
Definition processed_ok (st : list str * Grammar) : Prop :=
  forall text,
    In text (fst st) ->
    exists rule, decode_rule text = Ok rule /\ rule_in rule (rules (snd st)) = true.

(** A rule made from a rule [a] and a rule [b] that is no chain rule and
    whose left-hand side is in the chain of the one of [a]. *)
Definition chain_made (rs : list GrammarRule) (rule : GrammarRule) : Prop :=
  exists a b,
    In a rs /\ In b rs /\ lhs rule = lhs a /\ rhs rule = rhs b
    /\ chain_of rs (value (lhs a)) (value (lhs b))
    /\ is_chain_rule b = false.

(** * Properties *)

(** ** Equality of characters, strings and symbols *)

Lemma char_eqb_eq (c d : char) : char_eqb c d = true <-> c = d.
Proof.
  destruct c as [a|], d as [b|]; simpl; split; intros H;
    try discriminate; try reflexivity.
  - apply Ascii.eqb_eq in H. now subst.
  - injection H as ->. apply Ascii.eqb_refl.
Qed.

Lemma str_eqb_eq (s t : str) : str_eqb s t = true <-> s = t.
Proof.
  revert t; induction s as [|c s IH]; intros [|d t]; simpl; split; intros H;
    try discriminate; try reflexivity.
  - apply andb_true_iff in H as [Hc Hs].
    apply char_eqb_eq in Hc. apply IH in Hs. now subst.
  - injection H as -> ->. apply andb_true_iff. split.
    + now apply char_eqb_eq.
    + now apply IH.
Qed.

Lemma str_eqb_refl (s : str) : str_eqb s s = true.
Proof. now apply str_eqb_eq. Qed.

Lemma Symbol_eq_value (a b : Symbol) : Symbol_eq a b = true <-> value a = value b.
Proof. unfold Symbol_eq. apply str_eqb_eq. Qed.

(** C5, as the code has it.  Two symbols are equal exactly when their
    values are the same, whatever their classes; equal symbols have equal
    hashes; a terminal and a nonterminal written with the same character
    are equal. *)
Theorem Symbol_eq_by_value (hash : str -> Z) (a b : Symbol) :
  (Symbol_eq a b = true <-> value a = value b)
  /\ (Symbol_eq a b = true -> Symbol_hash hash a = Symbol_hash hash b)
  /\ (forall c, Symbol_eq (Terminal [c]) (Nonterminal [c]) = true).
Proof.
  split; [apply Symbol_eq_value|]. split.
  - intros H. apply Symbol_eq_value in H. unfold Symbol_hash. now rewrite H.
  - intros c. apply Symbol_eq_value. reflexivity.
Qed.

Lemma Symbol_eq_by_value_witness :
  Symbol_eq (Terminal (lit "a")) (Terminal (lit "a")) = true
  /\ Symbol_hash (fun s => Z.of_nat (length s)) (Terminal (lit "a"))
     = Symbol_hash (fun s => Z.of_nat (length s)) (Terminal (lit "a")).
Proof.
  split; [reflexivity|].
  apply (proj1 (proj2 (Symbol_eq_by_value (fun s => Z.of_nat (length s))
                         (Terminal (lit "a")) (Terminal (lit "a"))))).
  reflexivity.
Defined.

(** C5, as the claim has it, fails: the terminal [A] and the nonterminal
    [A], which [Nonterminal.__init__] accepts, are of different classes and
    equal. *)
Lemma Symbol_eq_across_classes :
  Nonterminal_init (lit "A") = Ok (Nonterminal (lit "A"))
  /\ category_of (Terminal (lit "A")) <> category_of (Nonterminal (lit "A"))
  /\ Symbol_eq (Terminal (lit "A")) (Nonterminal (lit "A")) = true.
Proof. repeat split; [discriminate]. Qed.

(** ** The grammar container *)

(** C9.  A call of [add_rule] that raises, whatever the exception, leaves
    the grammar as it was: the rules, their numbers and the next number. *)
Theorem add_rule_failure_keeps_grammar (rule_str : str) (position : option Z)
  (self self' : Grammar) (e : exn) :
  add_rule rule_str position self = (Raise e, self') -> self' = self.
Proof.
  unfold add_rule, bind, lift, get, put, ret, raise.
  destruct (decode_rule rule_str) as [new_rule|e'|]; [|congruence|congruence].
  destruct (rule_in new_rule (rules self)); [congruence|].
  destruct position as [p|]; [|congruence].
  destruct (p <? 1); congruence.
Qed.

Lemma add_rule_failure_keeps_grammar_witness :
  snd (add_rule (lit "S -> b") (Some 0) (grammar_of ["S -> a"%string]))
  = grammar_of ["S -> a"%string].
Proof.
  apply (add_rule_failure_keeps_grammar (lit "S -> b") (Some 0)
           (grammar_of ["S -> a"%string]) _
           (ValueError "Rule position must be 1 or greater")).
  reflexivity.
Defined.

(** With a position of 1 or more and a rule that is new, [add_rule] raises
    [TypeError] and changes nothing. *)
Lemma add_rule_position_raises (rule_str : str) (position : Z) (self : Grammar)
  (new_rule : GrammarRule) :
  decode_rule rule_str = Ok new_rule ->
  rule_in new_rule (rules self) = false ->
  1 <= position ->
  add_rule rule_str (Some position) self
  = (Raise (TypeError "'set' object is not subscriptable"), self).
Proof.
  intros Hd Hin Hp. unfold add_rule, bind, lift, get, raise.
  rewrite Hd, Hin. destruct (position <? 1) eqn:E; [|reflexivity].
  apply Z.ltb_lt in E. lia.
Qed.

(** C6 at a grammar that holds [S -> a] as rule 1: inserting [S -> b] at
    position 1 raises [TypeError]; the rule [S -> a] keeps number 1 and the
    new rule is not in the grammar. *)
Theorem add_rule_at_position_1 :
  let self := grammar_of ["S -> a"%string] in
  rules self = [mkRule (Nonterminal (lit "S")) [Terminal (lit "a")] (Some 1)]
  /\ add_rule (lit "S -> b") (Some 1) self
     = (Raise (TypeError "'set' object is not subscriptable"), self).
Proof. split; reflexivity. Qed.

(** ** The pipeline and the recognizer at particular grammars *)

(** The word [parse] is given has no letters: the table stays empty and the
    word is rejected, whatever the grammar. *)
Lemma parse_empty_word (self : CYKParser) :
  fst (parse self []) = Ok (false, None).
Proof.
  unfold parse, fill_table, fill_base. simpl.
  rewrite lookup_empty. reflexivity.
Qed.

(** C2 at the grammar [S -> A S], [S -> eps], [A -> a], whose start symbol
    is nullable: the parser is constructed, its grammar holds the rule
    [S1 -> eps] with an empty right-hand side, the start symbol it keeps is
    [S], and the empty word is rejected. *)
Theorem nullable_start_rejects_empty_word :
  exists parser,
    CYKParser_init (grammar_of ["S -> A S"; "S -> eps"; "A -> a"]%string)
    = Ok parser
    /\ In (mkRule (Nonterminal (lit "S1")) [] (Some 1)) (rules (grammar parser))
    /\ start_symbol parser = Some (Nonterminal (lit "S"))
    /\ fst (parse parser []) = Ok (false, None).
Proof.
  eexists. split; [vm_compute; reflexivity|].
  split; [simpl; auto|]. split; reflexivity.
Qed.

(** C7 at the grammar [S'' -> eps], which [add_rule] accepts: the start
    symbol is nullable and its name has 3 characters, and constructing the
    parser raises [ValueError]. *)
Theorem three_character_start_raises :
  add_rule (lit "S'' -> eps") None Grammar_init
  = (Ok tt, mkGrammar [mkRule (Nonterminal (lit "S''")) [] (Some 1)] 2)
  /\ CYKParser_init (grammar_of ["S'' -> eps"%string])
     = Raise (ValueError "Nonterminal can't be longer than 3 characters").
Proof. split; vm_compute; reflexivity. Qed.

(** Constructing the parser also raises when two neighbouring terminals
    spell the separator. *)
Lemma arrow_terminals_raise :
  CYKParser_init (grammar_of ["S -> - >"%string])
  = Raise (ValueError "Invalid rule format").
Proof. vm_compute; reflexivity. Qed.

(** C3 at the grammar [S -> e A p s], [A -> a], [A -> eps], whose start
    symbol is not nullable: the grammar the pipeline returns holds the rule
    [S -> eps] with an empty right-hand side, which has neither of the two
    shapes and is not a rule added for a nullable start. *)
Theorem pipeline_output_not_cnf :
  exists parser rule,
    CYKParser_init (grammar_of ["S -> e A p s"; "A -> a"; "A -> eps"]%string)
    = Ok parser
    /\ start_symbol parser = Some (Nonterminal (lit "S"))
    /\ In rule (rules (grammar parser))
    /\ lhs rule = Nonterminal (lit "S") /\ rhs rule = []
    /\ cnf_shape rule = false
    /\ start_exception (Nonterminal (lit "S")) rule = false.
Proof.
  eexists. exists (mkRule (Nonterminal (lit "S")) [] (Some 4)).
  split; [vm_compute; reflexivity|].
  split; [reflexivity|]. split; [simpl; auto 10|]. repeat split.
Qed.

(** C1 at the grammar with the one rule [S -> e p s]: the grammar derives
    the word [eps] from its start symbol, the parser is constructed, and
    the word is rejected. *)
Theorem derived_word_rejected :
  let G := grammar_of ["S -> e p s"%string] in
  derives (rules G) (Nonterminal (lit "S")) (lit "eps")
  /\ exists parser,
       CYKParser_init G = Ok parser
       /\ start_symbol parser = Some (Nonterminal (lit "S"))
       /\ fst (parse parser (lit "eps")) = Ok (false, None).
Proof.
  split.
  - apply (derives_rule _
             (mkRule (Nonterminal (lit "S"))
                     [Terminal (lit "e"); Terminal (lit "p"); Terminal (lit "s")]
                     (Some 1))).
    + left. reflexivity.
    + apply (derives_cons _ (Terminal (lit "e")) _ (lit "e") (lit "ps"));
        [constructor|].
      apply (derives_cons _ (Terminal (lit "p")) _ (lit "p") (lit "s"));
        [constructor|].
      apply (derives_cons _ (Terminal (lit "s")) _ (lit "s") []);
        constructor.
  - eexists. split; [vm_compute; reflexivity|]. split; [reflexivity|].
    vm_compute. reflexivity.
Qed.

(** The same happens without the letters of [eps]: a digit that follows a
    nonterminal once a nullable symbol between them is dropped. *)
Lemma derived_word_rejected_digit :
  recognize ["S -> A B' 1"; "A -> a"; "B' -> b"; "B' -> eps"]%string "a1"
  = Ok (false, None)
  /\ recognize ["S -> A B' 1"; "A -> a"; "B' -> b"; "B' -> eps"]%string "ab1"
     = Ok (true, Some [Some 5; Some 2; Some 4; Some 3; Some 1]).
Proof. split; vm_compute; reflexivity. Qed.

(** ** The recognition table *)

Lemma fold_left_invariant {A B} (P : A -> Prop) (f : A -> B -> A) (l : list B) :
  forall a, P a -> (forall a b, In b l -> P a -> P (f a b)) -> P (fold_left f l a).
Proof.
  induction l as [|b l IH]; intros a Ha Hf; simpl; [exact Ha|].
  apply IH.
  - apply Hf; [now left | exact Ha].
  - intros a' b' Hb'. apply Hf. now right.
Qed.

Lemma enumerate_from_In {A} (l : list A) :
  forall s i x, In (i, x) (combine (seq s (length l)) l) ->
                (s <= i)%nat /\ nth_error l (i - s) = Some x.
Proof.
  induction l as [|y l IH]; intros s i x H; simpl in H; [contradiction|].
  destruct H as [H|H].
  - injection H as <- <-. rewrite Nat.sub_diag. split; [lia | reflexivity].
  - apply IH in H as [Hle Hnth]. split; [lia|].
    replace (i - s)%nat with (S (i - S s)) by lia. exact Hnth.
Qed.

Lemma enumerate_In {A} (l : list A) (i : nat) (x : A) :
  In (i, x) (enumerate l) -> nth_error l i = Some x.
Proof.
  intros H. apply enumerate_from_In in H as [_ H].
  now rewrite Nat.sub_0_r in H.
Qed.

Lemma nth_error_Some_lt {A} (l : list A) (i : nat) (x : A) :
  nth_error l i = Some x -> (i < length l)%nat.
Proof. intros H. apply nth_error_Some. congruence. Qed.

Lemma add_to_table_other (table : gmap (nat * nat) (list entry)) i j e i' j' :
  (i, j) <> (i', j') -> add_to_table table i j e !! (i', j') = table !! (i', j').
Proof. intros H. unfold add_to_table. now apply lookup_insert_ne. Qed.

Section TableInvariants.

Variable n : nat.   (* the length of the word *)
Variable p : nat.   (* a position of the word *)

Lemma add_to_table_within table i j e :
  (1 <= j /\ i + j <= n)%nat ->
  table_within table n -> table_within (add_to_table table i j e) n.
Proof.
  intros Hij Ht i' j' cell H.
  destruct (decide ((i, j) = (i', j'))) as [E|E].
  - injection E as <- <-. exact Hij.
  - rewrite add_to_table_other in H by exact E. now apply (Ht i' j' cell).
Qed.

Lemma add_to_table_avoids table i j e :
  ~ (i <= p < i + j)%nat ->
  table_avoids table p -> table_avoids (add_to_table table i j e) p.
Proof.
  intros Hij Ht i' j' H.
  destruct (decide ((i, j) = (i', j'))) as [E|E].
  - injection E as <- <-. contradiction.
  - rewrite add_to_table_other by exact E. now apply Ht.
Qed.

(** The loop for the spans of length 1 writes cells [(i, 1)] with [i]
    below the length of the word. *)
Lemma fill_base_within rs word table :
  length word = n -> table_within table n ->
  table_within (fill_base rs word table) n.
Proof.
  intros Hn Ht. unfold fill_base.
  apply fold_left_invariant; [exact Ht|].
  intros t [i c] Hic Hw.
  apply fold_left_invariant; [exact Hw|].
  intros t' rule _ Hw'.
  destruct (is_unit_rule_for rule c); [|exact Hw'].
  apply add_to_table_within; [|exact Hw'].
  apply enumerate_In, nth_error_Some_lt in Hic. lia.
Qed.

(** It writes no cell at a position whose character no unit rule has. *)
Lemma fill_base_avoids rs word table c0 :
  nth_error word p = Some c0 ->
  (forall rule, In rule rs -> is_unit_rule_for rule c0 = false) ->
  table_avoids table p -> table_avoids (fill_base rs word table) p.
Proof.
  intros Hp Hno Ht. unfold fill_base.
  apply fold_left_invariant; [exact Ht|].
  intros t [i c] Hic Hw.
  apply fold_left_invariant; [exact Hw|].
  intros t' rule Hrule Hw'.
  destruct (is_unit_rule_for rule c) eqn:Hu; [|exact Hw'].
  apply add_to_table_avoids; [|exact Hw'].
  intros Hcover. assert (i = p) by lia. subst i.
  apply enumerate_In in Hic. rewrite Hp in Hic. injection Hic as ->.
  rewrite (Hno rule Hrule) in Hu. discriminate.
Qed.

(** The two nested loops over the cells of a split keep a property of
    the table that writing the cell [(i, j)] keeps. *)
Lemma fill_rule_invariant (P : gmap (nat * nat) (list entry) -> Prop)
  i j k table rule :
  (forall left_cell right_cell,
      table !! (i, k) = Some left_cell ->
      table !! ((i + k)%nat, (j - k)%nat) = Some right_cell ->
      forall t e, P t -> P (add_to_table t i j e)) ->
  P table -> P (fill_rule i j k table rule).
Proof.
  intros Hadd Ht. unfold fill_rule.
  destruct (rhs rule) as [|rhs0 [|rhs1 [|? ?]]]; try exact Ht.
  destruct (table !! (i, k)) as [left_cell|] eqn:Hl; [|exact Ht].
  destruct (table !! ((i + k)%nat, (j - k)%nat)) as [right_cell|] eqn:Hr;
    [|exact Ht].
  apply fold_left_invariant; [exact Ht|].
  intros t [left_nt ?] _ Hw.
  apply fold_left_invariant; [exact Hw|].
  intros t' [right_nt ?] _ Hw'.
  destruct (Symbol_eq rhs0 left_nt && Symbol_eq rhs1 right_nt); [|exact Hw'].
  now apply (Hadd left_cell right_cell).
Qed.

(** The loop for the longer spans keeps a property of the table when
    writing a cell whose two parts are in the table keeps it. *)
Lemma fill_table_invariant (P : gmap (nat * nat) (list entry) -> Prop) rs table :
  (forall i j k t e,
      (2 <= j <= n)%nat -> (i + j <= n)%nat -> (1 <= k < j)%nat ->
      P t ->
      t !! (i, k) <> None -> t !! ((i + k)%nat, (j - k)%nat) <> None ->
      P (add_to_table t i j e)) ->
  P table -> P (fill_table rs n table).
Proof.
  intros Hadd Ht. unfold fill_table.
  apply fold_left_invariant; [exact Ht|].
  intros t1 j Hj H1. apply in_seq in Hj.
  apply fold_left_invariant; [exact H1|].
  intros t2 i Hi H2. apply in_seq in Hi.
  apply fold_left_invariant; [exact H2|].
  intros t3 k Hk H3. apply in_seq in Hk.
  apply fold_left_invariant; [exact H3|].
  intros t4 rule _ H4.
  apply (fill_rule_invariant
           (fun t => P t /\ t !! (i, k) = t4 !! (i, k)
                     /\ t !! ((i + k)%nat, (j - k)%nat)
                        = t4 !! ((i + k)%nat, (j - k)%nat)));
    [|now repeat split].
  intros left_cell right_cell Hl Hr t e (Hp & El & Er). split; [|split].
  - apply (Hadd i j k); try lia;
      [exact Hp | rewrite El, Hl; discriminate | rewrite Er, Hr; discriminate].
  - rewrite add_to_table_other; [exact El|]. intros E. injection E. lia.
  - rewrite add_to_table_other; [exact Er|]. intros E. injection E. lia.
Qed.

Lemma fill_table_within rs table :
  table_within table n -> table_within (fill_table rs n table) n.
Proof.
  apply (fill_table_invariant (fun t => table_within t n)).
  intros i j k t e Hj Hij Hk Ht _ _.
  apply add_to_table_within; [lia | exact Ht].
Qed.

Lemma fill_table_avoids rs table :
  table_avoids table p -> table_avoids (fill_table rs n table) p.
Proof.
  apply (fill_table_invariant (fun t => table_avoids t p)).
  intros i j k t e Hj Hij Hk Ht Hl Hr.
  apply add_to_table_avoids; [|exact Ht].
  intros Hcover.
  destruct (Nat.lt_ge_cases p (i + k)) as [H|H].
  - apply Hl, Ht. lia.
  - apply Hr, Ht. lia.
Qed.

End TableInvariants.

(** ** The search for a split *)

Lemma choose_from_seq (self : CYKParser) (i j : nat) (current_nt : Symbol) :
  forall len s k found,
    choose_from self i j current_nt (seq s len) = Some (k, found) ->
    (s <= k < s + len)%nat
    /\ choose_at self i j k current_nt = Some found
    /\ forall k', (s <= k' < k)%nat -> choose_at self i j k' current_nt = None.
Proof.
  induction len as [|len IH]; intros s k found H; simpl in H; [discriminate|].
  destruct (choose_at self i j s current_nt) as [x|] eqn:Hs.
  - injection H as <- <-. split; [lia|]. split; [exact Hs|]. intros k' Hk'. lia.
  - apply IH in H as (Hk & Hat & Hbefore). split; [lia|]. split; [exact Hat|].
    intros k' Hk'. destruct (Nat.eq_dec k' s) as [->|Hne]; [exact Hs|].
    apply Hbefore. lia.
Qed.

Lemma choose_split (self : CYKParser) (i j k : nat) (current_nt : Symbol) found :
  choose self i j current_nt = Some (k, found) ->
  (1 <= k < j)%nat
  /\ choose_at self i j k current_nt = Some found
  /\ forall k', (1 <= k' < k)%nat -> choose_at self i j k' current_nt = None.
Proof.
  unfold choose. intros H. apply choose_from_seq in H as (Hk & Hat & Hbefore).
  split; [lia|]. split; [exact Hat | exact Hbefore].
Qed.

Lemma choose_at_cells (self : CYKParser) (i j k : nat) (current_nt : Symbol) found :
  choose_at self i j k current_nt = Some found ->
  exists left_cell right_cell,
    recognition_table self !! (i, k) = Some left_cell
    /\ recognition_table self !! ((i + k)%nat, (j - k)%nat) = Some right_cell
    /\ find (fun '(left_nt, right_nt, rule) =>
               justifies current_nt left_nt right_nt rule)
            (candidates (get_rules_list (grammar self)) left_cell right_cell)
       = Some found.
Proof.
  unfold choose_at. intros H.
  destruct (recognition_table self !! (i, k)) as [left_cell|]; [|discriminate].
  destruct (recognition_table self !! ((i + k)%nat, (j - k)%nat))
    as [right_cell|]; [|discriminate].
  exists left_cell, right_cell. now repeat split.
Qed.

Lemma candidates_In (rs : list GrammarRule) (left_cell right_cell : list entry)
  (left_nt right_nt : Symbol) (rule : GrammarRule) :
  In (left_nt, right_nt, rule) (candidates rs left_cell right_cell) <->
  (exists m, In (left_nt, m) left_cell)
  /\ (exists m, In (right_nt, m) right_cell)
  /\ In rule rs.
Proof.
  unfold candidates. rewrite in_flat_map. split.
  - intros ([l m] & Hl & H). apply in_flat_map in H as ([r m'] & Hr & H).
    apply in_map_iff in H as (rule' & E & Hrule). injection E as <- <- <-.
    split; [now exists m|]. split; [now exists m' | exact Hrule].
  - intros ((m & Hl) & (m' & Hr) & Hrule).
    exists (left_nt, m). split; [exact Hl|].
    apply in_flat_map. exists (right_nt, m'). split; [exact Hr|].
    apply in_map_iff. now exists rule.
Qed.






(** With the two elements of the cell [(0, 1)] in the other order, the same
    search returns rule 4: between the rules of a split the order of the
    cells decides. *)
Lemma tie_break_follows_cell_order :
  let S := Nonterminal (lit "S") in
  exists parser table,
    snd (parse (mkParser (Some S)
                  (mkGrammar [mkRule (Nonterminal (lit "A")) [Terminal (lit "a")] (Some 1);
                              mkRule (Nonterminal (lit "C")) [Terminal (lit "a")] (Some 2);
                              mkRule (Nonterminal (lit "B")) [Terminal (lit "b")] (Some 3);
                              mkRule S [Nonterminal (lit "C"); Nonterminal (lit "B")] (Some 4);
                              mkRule S [Nonterminal (lit "A"); Nonterminal (lit "B")] (Some 5)]
                             6) ∅)
               (lit "ab")) = parser
    /\ recognition_table parser !! (0%nat, 1%nat)
       = Some [(Nonterminal (lit "A"), Some 1); (Nonterminal (lit "C"), Some 2)]
    /\ table = <[(0%nat, 1%nat) :=
                  [(Nonterminal (lit "C"), Some 2); (Nonterminal (lit "A"), Some 1)]]>
                (recognition_table parser)
    /\ option_map (fun found => rule_number (snd (snd found)))
                  (choose parser 0 2 S) = Some (Some 5)
    /\ option_map (fun found => rule_number (snd (snd found)))
                  (choose (mkParser (Some S) (grammar parser) table) 0 2 S)
       = Some (Some 4).
Proof.
  intros S. eexists. eexists.
  split; [vm_compute; reflexivity|].
  split; [vm_compute; reflexivity|].
  split; [reflexivity|].
  split; vm_compute; reflexivity.
Qed.

(** ** The verdict of [parse] *)

Lemma insert_sorted_In (x y : GrammarRule) (l : list GrammarRule) :
  In x (insert_sorted y l) <-> x = y \/ In x l.
Proof.
  induction l as [|z l IH]; simpl.
  - intuition congruence.
  - destruct (key_le (sort_key y) (sort_key z)); simpl.
    + intuition congruence.
    + rewrite IH. intuition congruence.
Qed.

Lemma sorted_In (x : GrammarRule) (l : list GrammarRule) :
  In x (sorted l) <-> In x l.
Proof.
  unfold sorted. induction l as [|y l IH]; simpl; [reflexivity|].
  rewrite insert_sorted_In, IH. intuition congruence.
Qed.

Lemma trace_unit_ok (rs : list GrammarRule) (word : str) (i : nat)
  (current_nt : Symbol) :
  (i < length word)%nat ->
  exists d, trace_unit rs word i current_nt = Ok d.
Proof.
  intros Hi. destruct (nth_error word i) as [c|] eqn:Hc;
    [|apply nth_error_None in Hc; lia].
  induction rs as [|rule rs IH]; simpl; [now eexists|].
  destruct (rhs rule) as [|t [|? ?]]; try exact IH.
  destruct (is_Terminal t && Symbol_eq (lhs rule) current_nt); [|exact IH].
  rewrite Hc. destruct (str_eqb (value t) [c]); [now eexists | exact IH].
Qed.

Section Derivation.

Variable self : CYKParser.
Variable word : str.
Hypothesis within : table_within (recognition_table self) (length word).

(** On a cell of the table, [_trace_rules] returns a list: no index is
    out of range and the recursion, on shorter spans, ends. *)
Lemma trace_rules_ok :
  forall fuel i j current_nt,
    (j <= fuel)%nat ->
    recognition_table self !! (i, j) <> None ->
    exists d, trace_rules fuel self word i j current_nt = Ok d.
Proof.
  induction fuel as [|fuel IH]; intros i j current_nt Hfuel Hcell.
  - destruct (recognition_table self !! (i, j)) as [cell|] eqn:E;
      [|contradiction].
    apply within in E. lia.
  - simpl. destruct (Nat.eqb j 1) eqn:Hj.
    + apply Nat.eqb_eq in Hj. subst j.
      destruct (recognition_table self !! (i, 1%nat)) as [cell|] eqn:E;
        [|contradiction].
      apply within in E. apply trace_unit_ok. lia.
    + destruct (choose self i j current_nt) as [[k [[left_nt right_nt] rule]]|]
        eqn:Hch; [|now eexists].
      apply choose_split in Hch as (Hk & Hat & _).
      apply choose_at_cells in Hat as (left_cell & right_cell & Hl & Hr & _).
      destruct (IH i k left_nt) as [left ->]; [lia | congruence |].
      destruct (IH (i + k)%nat (j - k)%nat right_nt) as [right ->];
        [lia | congruence |].
      simpl. now eexists.
Qed.

Lemma get_derivation_rules_ok :
  exists d, get_derivation_rules self word = Ok d.
Proof.
  unfold get_derivation_rules.
  destruct (recognition_table self !! (0%nat, length word)) as [cell|] eqn:E;
    [|now eexists].
  destruct (start_symbol self) as [start|]; [|now eexists].
  destruct (falsy _); [now eexists|].
  apply trace_rules_ok; [lia | unfold entry in *; congruence].
Qed.

End Derivation.

Lemma empty_table_within (n : nat) : table_within ∅ n.
Proof. intros i j cell H. rewrite lookup_empty in H. discriminate. Qed.

Lemma empty_table_avoids (p : nat) : table_avoids ∅ p.
Proof. intros i j _. apply lookup_empty. Qed.

(** The table [parse] builds lies within the word. *)
Lemma parse_table_within (self : CYKParser) (word : str) :
  table_within (recognition_table (snd (parse self word))) (length word).
Proof.
  assert (H : table_within
                (fill_table (get_rules_list (grammar self)) (length word)
                   (fill_base (get_rules_list (grammar self)) word ∅))
                (length word)).
  { apply fill_table_within, fill_base_within;
      [reflexivity | apply empty_table_within]. }
  unfold parse.
  destruct (_ !! (0%nat, length word)) as [cell|];
    [|exact H].
  simpl. destruct (start_symbol self) as [start|]; [|exact H].
  destruct (existsb _ cell); exact H.
Qed.

(** A word with a character no unit rule has is rejected. *)
Lemma parse_unmatched_character (self : CYKParser) (word : str) (i : nat) (c : char) :
  nth_error word i = Some c ->
  (forall rule, In rule (rules (grammar self)) -> is_unit_rule_for rule c = false) ->
  fst (parse self word) = Ok (false, None).
Proof.
  intros Hc Hno.
  assert (H : fill_table (get_rules_list (grammar self)) (length word)
                (fill_base (get_rules_list (grammar self)) word ∅)
              !! (0%nat, length word) = None).
  { apply (fill_table_avoids (length word) i).
    - apply (fill_base_avoids i _ _ _ c Hc); [|apply empty_table_avoids].
      intros rule Hrule. apply Hno. now apply sorted_In.
    - apply nth_error_Some_lt in Hc. lia. }
  unfold parse. cbv zeta. unfold entry in *. rewrite H. reflexivity.
Qed.

(** C8.  For every parser and every word, [parse] returns a pair: it raises
    nothing and its recursion ends.  The derivation is there exactly when
    the word is accepted; a rejected word comes with [None].  A parser with
    no rules, a parser with no start symbol, and a word with a character
    that no rule [A -> t] has, give [(False, None)]. *)
Theorem parse_returns_verdict (self : CYKParser) (word : str) :
  (exists accepted derivation,
      fst (parse self word) = Ok (accepted, derivation)
      /\ (accepted = true <-> derivation <> None))
  /\ (rules (grammar self) = [] -> fst (parse self word) = Ok (false, None))
  /\ (start_symbol self = None -> fst (parse self word) = Ok (false, None))
  /\ (forall i c,
        nth_error word i = Some c ->
        (forall rule, In rule (rules (grammar self)) ->
                      is_unit_rule_for rule c = false) ->
        fst (parse self word) = Ok (false, None)).
Proof.
  split; [|split; [|split]].
  - assert (Hw : table_within
                    (fill_table (get_rules_list (grammar self)) (length word)
                       (fill_base (get_rules_list (grammar self)) word ∅))
                    (length word)).
    { apply fill_table_within, fill_base_within;
        [reflexivity | apply empty_table_within]. }
    unfold parse. cbv zeta.
    set (table := fill_table _ _ _) in *.
    destruct (table !! (0%nat, length word)) as [cell|];
      [|exists false, None; split; [reflexivity | split; [discriminate | congruence]]].
    cbn [start_symbol]. destruct (start_symbol self) as [start|];
      [|exists false, None; split; [reflexivity | split; [discriminate | congruence]]].
    destruct (existsb _ cell);
      [|exists false, None; split; [reflexivity | split; [discriminate | congruence]]].
    destruct (get_derivation_rules_ok
                (mkParser (Some start) (grammar self) table) word Hw) as [d Hd].
    cbn [fst]. rewrite Hd.
    exists true, (Some d). split; [reflexivity|]. split; [discriminate | reflexivity].
  - intros Hrules. destruct word as [|c word]; [apply parse_empty_word|].
    apply (parse_unmatched_character self (c :: word) 0 c); [reflexivity|].
    rewrite Hrules. intros rule [].
  - intros Hstart. unfold parse. rewrite Hstart.
    destruct (_ !! (0%nat, length word)); reflexivity.
  - intros i c. apply parse_unmatched_character.
Qed.

Lemma parse_returns_verdict_witness :
  fst (parse (mkParser (Some (Nonterminal (lit "S")))
                (grammar_of ["S -> a"%string]) ∅) (lit "ab"))
  = Ok (false, None).
Proof.
  apply (proj2 (proj2 (proj2 (parse_returns_verdict
           (mkParser (Some (Nonterminal (lit "S")))
              (grammar_of ["S -> a"%string]) ∅) (lit "ab")))) 1%nat (Latin1 "b")).
  - reflexivity.
  - intros rule [<-|[]]. reflexivity.
Defined.

(** ** Texts of rules, written and read back *)

(** *** Stripping *)

Lemma lstrip_suffix (s : str) :
  exists a, s = a ++ lstrip s.
Proof.
  induction s as [|c s [a IH]]; [now exists []|]. simpl.
  destruct (is_whitespace c); [|now exists []].
  exists (c :: a). simpl. now rewrite <- IH.
Qed.

Lemma lstrip_head (s : str) (c : char) (u : str) :
  lstrip s = c :: u -> is_whitespace c = false.
Proof.
  induction s as [|d s IH]; simpl; [discriminate|].
  destruct (is_whitespace d) eqn:E; [exact IH|].
  intros H. injection H as <- _. exact E.
Qed.

Lemma lstrip_fixed (s : str) : lstrip (lstrip s) = lstrip s.
Proof.
  destruct (lstrip s) as [|c u] eqn:E; [reflexivity|].
  simpl. now rewrite (lstrip_head _ _ _ E).
Qed.

Lemma strip_clean (s : str) : clean (strip s).
Proof.
  unfold clean, strip, rstrip. split.
  - destruct (lstrip_suffix (rev (lstrip s))) as [a Ha].
    apply (f_equal (@rev char)) in Ha. rewrite rev_involutive, rev_app_distr in Ha.
    destruct (rev (lstrip (rev (lstrip s)))) as [|c w] eqn:E; [reflexivity|].
    simpl in Ha. simpl. now rewrite (lstrip_head _ _ _ Ha).
  - rewrite rev_involutive. apply lstrip_fixed.
Qed.

Lemma clean_strip (s : str) : clean s -> strip s = s.
Proof.
  intros [H1 H2]. unfold strip, rstrip. rewrite H1, H2. apply rev_involutive.
Qed.


Lemma strip_space_before (s : str) : strip (space :: s) = strip s.
Proof. reflexivity. Qed.

(** What [strip] returns is a piece of the text. *)
Lemma strip_segment (s : str) : exists a b, s = a ++ strip s ++ b.
Proof.
  destruct (lstrip_suffix s) as [a Ha].
  destruct (lstrip_suffix (rev (lstrip s))) as [b Hb].
  apply (f_equal (@rev char)) in Hb. rewrite rev_involutive, rev_app_distr in Hb.
  exists a, (rev b). unfold strip, rstrip. now rewrite <- Hb.
Qed.

(** *** Splitting at the separator *)

Lemma str_ind2 (P : str -> Prop) :
  P [] -> (forall c, P [c]) ->
  (forall c d s, P s -> P (d :: s) -> P (c :: d :: s)) ->
  forall s, P s.
Proof.
  intros H0 H1 H2.
  assert (H : forall s, P s /\ forall c, P (c :: s)).
  { induction s as [|d s [IHs IHc]]; [now split|].
    split; [apply IHc|]. intros c. apply H2; [exact IHs | apply IHc]. }
  intros s. apply H.
Qed.

Lemma is_arrow_true (c d : char) :
  is_arrow c d = true <-> c = minus_sign /\ d = greater_sign.
Proof.
  unfold is_arrow. rewrite andb_true_iff, !char_eqb_eq. reflexivity.
Qed.

Lemma no_arrow_step (c d : char) (s : str) :
  no_arrow (c :: d :: s) = negb (is_arrow c d) && no_arrow (d :: s).
Proof. reflexivity. Qed.

Lemma no_arrow_tail (c : char) (s : str) :
  no_arrow (c :: s) = true -> no_arrow s = true.
Proof.
  destruct s as [|d s]; [reflexivity|].
  cbn [no_arrow]. intros H. now apply andb_true_iff in H as [_ H].
Qed.

Lemma no_arrow_app (a b : str) :
  no_arrow (a ++ b) = true -> no_arrow a = true /\ no_arrow b = true.
Proof.
  induction a as [|c a IH]; intros H; [now split|].
  pose proof (no_arrow_tail _ _ H) as Ht. apply IH in Ht as [Ha Hb].
  split; [|exact Hb].
  destruct a as [|d a]; [reflexivity|].
  cbn [no_arrow app] in *. apply andb_true_iff in H as [H _].
  now rewrite H, Ha.
Qed.

Lemma no_arrow_with_arrow (a b : str) :
  no_arrow (a ++ minus_sign :: greater_sign :: b) = false.
Proof.
  induction a as [|c a IH]; [reflexivity|].
  apply not_true_is_false. intros E.
  change (no_arrow (c :: (a ++ minus_sign :: greater_sign :: b)) = true) in E.
  apply no_arrow_tail in E. rewrite IH in E. discriminate.
Qed.


Lemma no_arrow_space_before (s : str) :
  no_arrow (space :: s) = no_arrow s.
Proof. destruct s; reflexivity. Qed.

Lemma split_arrow_step (c d : char) (s : str) :
  split_arrow (c :: d :: s)
  = if is_arrow c d then [] :: split_arrow s
    else match split_arrow (d :: s) with
         | p :: ps => (c :: p) :: ps
         | [] => [[c]]
         end.
Proof. reflexivity. Qed.

Lemma split_arrow_not_nil (s : str) : split_arrow s <> [].
Proof.
  induction s as [| c | c d s IHs IHd] using str_ind2;
    try (intros H; discriminate H).
  rewrite split_arrow_step. destruct (is_arrow c d); [intros H; discriminate H|].
  destruct (split_arrow (d :: s)); intros H; discriminate H.
Qed.

(** A text without the separator is one piece. *)
Lemma split_arrow_one (s : str) : no_arrow s = true -> split_arrow s = [s].
Proof.
  induction s as [| c | c d s IHs IHd] using str_ind2; intros H; try reflexivity.
  pose proof (IHd (no_arrow_tail _ _ H)) as Hd.
  cbn [no_arrow] in H. apply andb_true_iff in H as [H _].
  apply negb_true_iff in H. rewrite split_arrow_step. now rewrite H, Hd.
Qed.

(** The first piece ends at the first separator. *)
Lemma split_arrow_first (a b : str) :
  no_arrow a = true ->
  split_arrow (a ++ minus_sign :: greater_sign :: b) = a :: split_arrow b.
Proof.
  induction a as [| c | c d s IHs IHd] using str_ind2; intros H.
  - reflexivity.
  - change ([c] ++ minus_sign :: greater_sign :: b)
      with (c :: minus_sign :: greater_sign :: b).
    rewrite split_arrow_step. unfold is_arrow at 1. rewrite andb_false_r.
    reflexivity.
  - pose proof (IHd (no_arrow_tail _ _ H)) as Hd.
    cbn [no_arrow] in H. apply andb_true_iff in H as [H _].
    apply negb_true_iff in H.
    change ((c :: d :: s) ++ minus_sign :: greater_sign :: b)
      with (c :: d :: (s ++ minus_sign :: greater_sign :: b)).
    rewrite split_arrow_step, H.
    change (d :: (s ++ minus_sign :: greater_sign :: b))
      with ((d :: s) ++ minus_sign :: greater_sign :: b).
    now rewrite Hd.
Qed.

(** Two pieces: the text is the two pieces around one separator, and
    neither piece holds a separator. *)
Lemma split_arrow_pieces (s : str) :
  forall p ps,
    split_arrow s = p :: ps ->
    no_arrow p = true
    /\ ((ps = [] /\ s = p)
        \/ exists q qs rest,
             ps = q :: qs /\ s = p ++ minus_sign :: greater_sign :: rest
             /\ split_arrow rest = q :: qs).
Proof.
  induction s as [| c | c d s IHs IHd] using str_ind2; intros p ps H.
  - injection H as <- <-. split; [reflexivity|]. now left.
  - injection H as <- <-. split; [reflexivity|]. now left.
  - rewrite split_arrow_step in H. destruct (is_arrow c d) eqn:E.
    + injection H as <- <-. apply is_arrow_true in E as [-> ->].
      split; [reflexivity|]. right.
      destruct (split_arrow s) as [|q qs] eqn:Hs;
        [now apply split_arrow_not_nil in Hs|].
      now exists q, qs, s.
    + destruct (split_arrow (d :: s)) as [|p' ps'] eqn:Hd;
        [now apply split_arrow_not_nil in Hd|].
      injection H as <- <-.
      destruct (IHd p' ps' eq_refl) as [Hp' Hcase].
      assert (Hp : no_arrow (c :: p') = true).
      { destruct p' as [|e p'']; [reflexivity|].
        assert (e = d) as ->.
        { destruct Hcase as [[_ E'] | (q & qs & rest & _ & E' & _)];
            now injection E'. }
        rewrite no_arrow_step, E. exact Hp'. }
      split; [exact Hp|].
      destruct Hcase as [[-> E'] | (q & qs & rest & -> & E' & Hrest)].
      * left. split; [reflexivity|]. now rewrite E'.
      * right. exists q, qs, rest. split; [reflexivity|].
        split; [|exact Hrest]. simpl. now rewrite E'.
Qed.

Lemma split_arrow_two (s p0 p1 : str) :
  split_arrow s = [p0; p1] ->
  s = p0 ++ minus_sign :: greater_sign :: p1
  /\ no_arrow p0 = true /\ no_arrow p1 = true.
Proof.
  intros H. apply split_arrow_pieces in H as [H0 [[E _] | (q & qs & rest & E & Hs & Hrest)]];
    [discriminate|].
  injection E as <- <-.
  apply split_arrow_pieces in Hrest as [H1 [[_ E] | (? & ? & ? & E & _)]];
    [|discriminate].
  subst rest. now repeat split.
Qed.

(** The separator of a text with one separator is where it is. *)
Lemma arrow_unique (p0 p1 : str) :
  no_arrow p0 = true -> no_arrow p1 = true ->
  forall a b,
    p0 ++ minus_sign :: greater_sign :: p1 = a ++ minus_sign :: greater_sign :: b ->
    a = p0 /\ b = p1.
Proof.
  intros H0 H1. induction p0 as [|c p0 IH]; intros a b E.
  - destruct a as [|x [|y a]]; simpl in E.
    + injection E as <-. now split.
    + injection E as _ E _. discriminate.
    + injection E as _ _ E. rewrite E, no_arrow_with_arrow in H1. discriminate.
  - destruct a as [|x a]; simpl in E.
    + injection E as -> E. destruct p0 as [|e p0]; simpl in E.
      * injection E as E _. discriminate.
      * injection E as -> _. simpl in H0. discriminate.
    + injection E as <- E.
      destruct (IH (no_arrow_tail _ _ H0) a b E) as [-> ->]. now split.
Qed.

(** *** Reading a right-hand side *)

Lemma Nonterminal_init_Ok (v : str) (nt : Symbol) :
  Nonterminal_init v = Ok nt -> nt = Nonterminal v.
Proof.
  unfold Nonterminal_init. destruct v as [|c v]; [discriminate|].
  destruct (negb (isupper c)); [discriminate|].
  destruct (3 <? _); [discriminate|]. now intros [= <-].
Qed.

Lemma rhs_text_app (a b : list Symbol) :
  rhs_text (a ++ b) = rhs_text a ++ rhs_text b.
Proof. unfold rhs_text, join. now rewrite map_app, concat_app. Qed.

Lemma last_symbol_removelast (l : list Symbol) (x : Symbol) :
  last_symbol l = Some x -> l = removelast l ++ [x].
Proof.
  induction l as [|y l IH]; [discriminate|].
  destruct l as [|z l]; [now intros [= ->]|].
  intros H. change (y :: z :: l = y :: (removelast (z :: l) ++ [x])).
  f_equal. apply IH. exact H.
Qed.

Lemma read_rhs_step (c : char) (rest : str) (rhs : list Symbol) :
  read_rhs (c :: rest) rhs
  = if isupper c then
      match rest with
      | next_char :: rest' =>
          if isdigit next_char || char_eqb next_char apostrophe then
            match Nonterminal_init [c; next_char] with
            | Ok nt => read_rhs rest' (rhs ++ [nt])
            | Raise e => Raise e
            | Fuel => Fuel
            end
          else
            match Nonterminal_init [c] with
            | Ok nt => read_rhs rest (rhs ++ [nt])
            | Raise e => Raise e
            | Fuel => Fuel
            end
      | [] =>
          match Nonterminal_init [c] with
          | Ok nt => Ok (rhs ++ [nt])
          | Raise e => Raise e
          | Fuel => Fuel
          end
      end
    else if char_eqb c apostrophe then
      match last_symbol rhs with
      | Some (Nonterminal v) =>
          match Nonterminal_init (v ++ [apostrophe]) with
          | Ok nt => read_rhs rest (removelast rhs ++ [nt])
          | Raise e => Raise e
          | Fuel => Fuel
          end
      | _ => read_rhs rest (rhs ++ [Terminal [c]])
      end
    else read_rhs rest (rhs ++ [Terminal [c]]).
Proof. destruct rest; reflexivity. Qed.

(** The symbols [add_rule] reads from a text spell the text. *)
Lemma read_rhs_text :
  forall n rhs_str acc rhs,
    (length rhs_str <= n)%nat ->
    read_rhs rhs_str acc = Ok rhs ->
    rhs_text rhs = rhs_text acc ++ rhs_str.
Proof.
  induction n as [|n IH]; intros rhs_str acc rhs Hn H.
  - destruct rhs_str; [|simpl in Hn; lia].
    injection H as <-. now rewrite app_nil_r.
  - destruct rhs_str as [|c rest].
    { injection H as <-. now rewrite app_nil_r. }
    simpl in Hn. rewrite read_rhs_step in H.
    destruct (isupper c).
    + destruct rest as [|next_char rest'].
      * destruct (Nonterminal_init [c]) as [nt| |] eqn:Hnt; try discriminate.
        apply Nonterminal_init_Ok in Hnt as ->. injection H as <-.
        now rewrite rhs_text_app.
      * destruct (isdigit next_char || char_eqb next_char apostrophe).
        -- destruct (Nonterminal_init [c; next_char]) as [nt| |] eqn:Hnt;
             try discriminate.
           apply Nonterminal_init_Ok in Hnt as ->.
           apply IH in H; [|simpl in Hn; lia].
           rewrite H, rhs_text_app, <- app_assoc. reflexivity.
        -- destruct (Nonterminal_init [c]) as [nt| |] eqn:Hnt; try discriminate.
           apply Nonterminal_init_Ok in Hnt as ->.
           apply IH in H; [|simpl in *; lia].
           rewrite H, rhs_text_app, <- app_assoc. reflexivity.
    + assert (Hterm : forall rhs',
                 read_rhs rest (acc ++ [Terminal [c]]) = Ok rhs' ->
                 rhs_text rhs' = rhs_text acc ++ c :: rest).
      { intros rhs' H'. apply IH in H'; [|lia].
        rewrite H', rhs_text_app, <- app_assoc. reflexivity. }
      destruct (char_eqb c apostrophe) eqn:Hc; [|now apply Hterm].
      apply char_eqb_eq in Hc. subst c.
      destruct (last_symbol acc) as [[v|v|]|] eqn:Hlast; try now apply Hterm.
      destruct (Nonterminal_init (v ++ [apostrophe])) as [nt| |] eqn:Hnt;
        try discriminate.
      apply Nonterminal_init_Ok in Hnt as ->.
      apply IH in H; [|lia].
      apply last_symbol_removelast in Hlast.
      rewrite H, rhs_text_app. rewrite Hlast at 2. rewrite rhs_text_app.
      unfold rhs_text at 2 4. simpl. rewrite !app_nil_r, <- !app_assoc.
      reflexivity.
Qed.

(** *** A rule read from a text, written and read again *)




Lemma stage_text_arrow (rule : GrammarRule) :
  stage_text rule
  = (value (lhs rule) ++ [space])
    ++ minus_sign :: greater_sign :: space :: rhs_text (rhs rule).
Proof. unfold stage_text. now rewrite <- app_assoc. Qed.

(** What [add_rule] reads from a name, the separator between two spaces
    and a right-hand side, when neither holds a separator. *)
Lemma decode_rule_text (v c : str) :
  no_arrow (v ++ [space]) = true -> no_arrow (space :: c) = true ->
  decode_rule ((v ++ [space]) ++ minus_sign :: greater_sign :: space :: c)
  = rbind (Nonterminal_init (strip (v ++ [space]))) (fun lhs =>
      if is_epsilon_text (strip c) then Ok (mkRule lhs [] None)
      else rbind (read_rhs (remove_spaces (strip c)) [])
                 (fun rhs => Ok (mkRule lhs rhs None))).
Proof.
  intros Hv Hc. unfold decode_rule.
  rewrite (split_arrow_first _ _ Hv), (split_arrow_one _ Hc).
  now rewrite strip_space_before.
Qed.




(** * Further properties *)

(** ** The order of iteration *)

Lemma key_le_total (a b : option Z) : key_le a b = true \/ key_le b a = true.
Proof.
  destruct a as [m|], b as [n|]; simpl; auto.
  destruct (Z.leb_spec m n); [now left|]. right. apply Z.leb_le. lia.
Qed.

Lemma key_le_trans (a b c : option Z) :
  key_le a b = true -> key_le b c = true -> key_le a c = true.
Proof.
  destruct a as [m|], b as [n|], c as [k|]; simpl; try discriminate; auto.
  rewrite !Z.leb_le. lia.
Qed.

Lemma insert_sorted_Permutation (x : GrammarRule) (l : list GrammarRule) :
  Permutation (insert_sorted x l) (x :: l).
Proof.
  induction l as [|y l IH]; simpl; [reflexivity|].
  destruct (key_le (sort_key x) (sort_key y)); [reflexivity|].
  rewrite IH. apply perm_swap.
Qed.

Lemma insert_sorted_ordered (x : GrammarRule) (l : list GrammarRule) :
  StronglySorted key_order l -> StronglySorted key_order (insert_sorted x l).
Proof.
  induction 1 as [|y l Hl IH Hy]; simpl.
  - constructor; constructor.
  - destruct (key_le (sort_key x) (sort_key y)) eqn:E.
    + constructor; [now constructor|]. constructor; [exact E|].
      eapply Forall_impl; [|exact Hy]. intros z Hz.
      exact (key_le_trans _ _ _ E Hz).
    + constructor; [exact IH|].
      apply Forall_forall. intros z Hz. apply insert_sorted_In in Hz as [->|Hz].
      * destruct (key_le_total (sort_key y) (sort_key x)) as [H|H];
          [exact H | unfold key_order; congruence].
      * rewrite Forall_forall in Hy. now apply Hy.
Qed.

Lemma insert_sorted_same_key (k : option Z) (x : GrammarRule) (l : list GrammarRule) :
  filter (same_key k) (insert_sorted x l) = filter (same_key k) (x :: l).
Proof.
  induction l as [|y l IH]; [reflexivity|].
  cbn [insert_sorted]. destruct (key_le (sort_key x) (sort_key y)) eqn:E;
    [reflexivity|].
  cbn [filter] in *. rewrite IH.
  destruct (same_key k x) eqn:Hx, (same_key k y) eqn:Hy; try reflexivity.
  exfalso. unfold same_key in *.
  destruct (sort_key x) as [m|], (sort_key y) as [n|], k as [p|];
    simpl in *; try discriminate.
  apply Z.eqb_eq in Hx, Hy. subst. rewrite Z.leb_refl in E. discriminate.
Qed.

(** X1.  Iterating a grammar visits every rule of the set once, in the
    order of the rule numbers with the rules that have no number (or the
    number 0) last, and rules of the same number in the order the set
    gives them. *)
Theorem get_rules_list_ordered (self : Grammar) :
  Permutation (get_rules_list self) (rules self)
  /\ StronglySorted key_order (get_rules_list self)
  /\ forall k, filter (same_key k) (get_rules_list self)
               = filter (same_key k) (rules self).
Proof.
  unfold get_rules_list, sorted. induction (rules self) as [|x l (IHp & IHs & IHk)].
  - repeat split; constructor.
  - cbn [fold_right]. split; [|split].
    + rewrite insert_sorted_Permutation. now constructor.
    + now apply insert_sorted_ordered.
    + intros k. rewrite insert_sorted_same_key. cbn [filter]. now rewrite IHk.
Qed.

(** ** What [add_rule] keeps *)

Lemma str_eqb_sym (s t : str) : str_eqb s t = str_eqb t s.
Proof.
  destruct (str_eqb s t) eqn:E.
  - apply str_eqb_eq in E as ->. symmetry. apply str_eqb_refl.
  - destruct (str_eqb t s) eqn:E'; [|reflexivity].
    apply str_eqb_eq in E' as ->. now rewrite str_eqb_refl in E.
Qed.

Lemma Symbol_eq_refl (s : Symbol) : Symbol_eq s s = true.
Proof. apply str_eqb_refl. Qed.

Lemma Symbol_eq_sym (s t : Symbol) : Symbol_eq s t = Symbol_eq t s.
Proof. apply str_eqb_sym. Qed.

Lemma all_eq_refl (l : list Symbol) : all_eq l l = true.
Proof. induction l as [|s l IH]; simpl; [reflexivity|]. now rewrite Symbol_eq_refl. Qed.

Lemma all_eq_sym (l1 l2 : list Symbol) : all_eq l1 l2 = all_eq l2 l1.
Proof.
  revert l2; induction l1 as [|s l1 IH]; intros [|t l2]; simpl; try reflexivity.
  now rewrite Symbol_eq_sym, IH.
Qed.

Lemma GrammarRule_eq_refl (r : GrammarRule) : GrammarRule_eq r r = true.
Proof.
  unfold GrammarRule_eq. now rewrite Symbol_eq_refl, Nat.eqb_refl, all_eq_refl.
Qed.

Lemma GrammarRule_eq_sym (r1 r2 : GrammarRule) :
  GrammarRule_eq r1 r2 = GrammarRule_eq r2 r1.
Proof.
  unfold GrammarRule_eq.
  now rewrite Symbol_eq_sym, Nat.eqb_sym, all_eq_sym.
Qed.

Lemma GrammarRule_eq_set_number (r1 r2 : GrammarRule) (n : Z) :
  GrammarRule_eq r1 (set_number r2 n) = GrammarRule_eq r1 r2.
Proof. reflexivity. Qed.

Lemma rule_in_app (r : GrammarRule) (l1 l2 : list GrammarRule) :
  rule_in r (l1 ++ l2) = rule_in r l1 || rule_in r l2.
Proof. unfold rule_in. apply existsb_app. Qed.

Lemma numbered_snoc (l : list GrammarRule) (r : GrammarRule) (n : Z) :
  numbered l n -> rule_number r = Some (n + Z.of_nat (length l)) ->
  numbered (l ++ [r]) n.
Proof.
  revert n; induction l as [|x l IH]; intros n Hl Hr; simpl in *.
  - rewrite Z.add_0_r in Hr. now split.
  - destruct Hl as [Hx Hl]. split; [exact Hx|]. apply IH; [exact Hl|].
    rewrite Hr. f_equal. lia.
Qed.

Lemma distinct_snoc (l : list GrammarRule) (r : GrammarRule) :
  distinct l -> rule_in r l = false -> distinct (l ++ [r]).
Proof.
  induction l as [|x l IH]; intros Hl Hr; simpl in *; [now split|].
  destruct Hl as [Hx Hl]. apply orb_false_iff in Hr as [Hrx Hr].
  split; [|now apply IH].
  rewrite rule_in_app, Hx. simpl. now rewrite GrammarRule_eq_sym, Hrx.
Qed.

Lemma no_space_remove_spaces (s : str) : no_space (remove_spaces s) = true.
Proof.
  unfold no_space, remove_spaces. apply forallb_forall.
  intros c Hc. now apply filter_In in Hc as [_ Hc].
Qed.

Lemma Nonterminal_init_valid (v : str) (nt : Symbol) :
  Nonterminal_init v = Ok nt -> nt = Nonterminal v /\ valid_name v.
Proof.
  intros H. pose proof (Nonterminal_init_Ok _ _ H) as ->. now split.
Qed.

Lemma Forall_removelast {A} (P : A -> Prop) (l : list A) :
  Forall P l -> Forall P (removelast l).
Proof.
  induction 1 as [|x l Hx Hl IH]; [constructor|].
  destruct l as [|y l]; [constructor|]. now constructor.
Qed.

(** The symbols read from a text without spaces are terminals of one
    character, none an uppercase letter, and nonterminals of valid names. *)
Lemma read_rhs_symbols :
  forall n rhs_str acc rhs,
    (length rhs_str <= n)%nat ->
    no_space rhs_str = true ->
    Forall read_symbol acc ->
    read_rhs rhs_str acc = Ok rhs ->
    Forall read_symbol rhs.
Proof.
  induction n as [|n IH]; intros rhs_str acc rhs Hn Hsp Hacc H.
  - destruct rhs_str; [|simpl in Hn; lia]. now injection H as <-.
  - destruct rhs_str as [|c rest]; [now injection H as <-|].
    simpl in Hn. rewrite read_rhs_step in H.
    cbn [no_space forallb] in Hsp. apply andb_true_iff in Hsp as [Hc Hrest].
    fold (no_space rest) in Hrest.
    assert (Hsnoc : forall s, read_symbol s -> Forall read_symbol (acc ++ [s])).
    { intros s Hs. apply Forall_app. split; [exact Hacc|]. now constructor. }
    destruct (isupper c) eqn:Hup.
    + destruct rest as [|next_char rest'].
      * destruct (Nonterminal_init [c]) as [nt| |] eqn:Hnt; try discriminate.
        apply Nonterminal_init_valid in Hnt as [-> Hv]. injection H as <-.
        now apply Hsnoc.
      * destruct (isdigit next_char || char_eqb next_char apostrophe).
        -- destruct (Nonterminal_init [c; next_char]) as [nt| |] eqn:Hnt;
             try discriminate.
           apply Nonterminal_init_valid in Hnt as [-> Hv].
           apply IH in H; try assumption; [simpl in Hn; lia | |now apply Hsnoc].
           cbn [no_space forallb] in Hrest.
           now apply andb_true_iff in Hrest as [_ Hrest].
        -- destruct (Nonterminal_init [c]) as [nt| |] eqn:Hnt; try discriminate.
           apply Nonterminal_init_valid in Hnt as [-> Hv].
           apply IH in H; try assumption; [simpl in *; lia | now apply Hsnoc].
    + assert (Hterm : forall rhs',
                 read_rhs rest (acc ++ [Terminal [c]]) = Ok rhs' ->
                 Forall read_symbol rhs').
      { intros rhs' H'. apply IH in H'; try assumption; [lia|].
        apply Hsnoc. simpl. split; [exact Hup|].
        intros ->. now rewrite (proj2 (char_eqb_eq space space) eq_refl) in Hc. }
      destruct (char_eqb c apostrophe) eqn:Hap; [|now apply Hterm].
      destruct (last_symbol acc) as [[v|v|]|] eqn:Hlast; try now apply Hterm.
      destruct (Nonterminal_init (v ++ [apostrophe])) as [nt| |] eqn:Hnt;
        try discriminate.
      apply Nonterminal_init_valid in Hnt as [-> Hv].
      apply IH in H; try assumption; [lia|].
      apply Forall_app. split; [now apply Forall_removelast|].
      now constructor.
Qed.

Lemma decode_rule_read (rule_str : str) (rule : GrammarRule) :
  decode_rule rule_str = Ok rule ->
  rule_number rule = None /\ read_rule rule.
Proof.
  unfold decode_rule. intros H.
  destruct (split_arrow rule_str) as [|p0 [|p1 [|? ?]]]; try discriminate.
  destruct (Nonterminal_init (strip p0)) as [nt| |] eqn:Hnt; try discriminate.
  apply Nonterminal_init_valid in Hnt as [-> Hv]. simpl in H.
  destruct (is_epsilon_text (strip p1)).
  - injection H as <-. split; [reflexivity|]. split; [now eexists|constructor].
  - destruct (read_rhs (remove_spaces (strip p1)) []) as [symbols| |] eqn:Hr;
      try discriminate.
    injection H as <-. split; [reflexivity|]. split; [now eexists|].
    apply (read_rhs_symbols _ _ [] _ (Nat.le_refl _)
             (no_space_remove_spaces _) (Forall_nil _) Hr).
Qed.

(** X2.  A rule [add_rule] decodes from a text has no number yet; its
    left-hand side is a nonterminal with a name [Nonterminal] accepts; its
    right-hand side holds terminals of one character that is neither an
    uppercase letter nor a space and nonterminals with such names. *)
Theorem decode_rule_gives_read_rule (rule_str : str) (rule : GrammarRule) :
  decode_rule rule_str = Ok rule ->
  rule_number rule = None /\ read_rule rule.
Proof. apply decode_rule_read. Qed.

Lemma decode_rule_gives_read_rule_witness :
  read_rule (mkRule (Nonterminal (lit "S"))
                    [Terminal (lit "a"); Nonterminal (lit "B'")] None).
Proof.
  apply (decode_rule_gives_read_rule (lit "S -> a B'")). reflexivity.
Defined.

Lemma read_rule_set_number (r : GrammarRule) (n : Z) :
  read_rule r -> read_rule (set_number r n).
Proof. intros H. exact H. Qed.

Lemma add_rule_keeps_ok (rule_str : str) (position : option Z) :
  keeps grammar_ok (add_rule rule_str position).
Proof.
  intros self Hself. pose proof Hself as (Hnum & Hnext & Hdis & Hread).
  unfold add_rule, bind, lift, get, put, ret, raise.
  destruct (decode_rule rule_str) as [new_rule| |] eqn:Hdec;
    try exact Hself.
  destruct (rule_in new_rule (rules self)) eqn:Hin; [exact Hself|].
  destruct position as [p|]; [destruct (p <? 1); exact Hself|].
  cbn [snd]. unfold grammar_ok. cbn [rules next_rule_number].
  split; [|split; [|split]].
  - apply numbered_snoc; [exact Hnum|]. cbn [set_number rule_number].
    now rewrite Hnext.
  - rewrite length_app. simpl. rewrite Hnext. lia.
  - apply distinct_snoc; [exact Hdis | exact Hin].
  - apply Forall_app. split; [exact Hread|]. constructor; [|constructor].
    apply read_rule_set_number. now apply decode_rule_read in Hdec.
Qed.

Lemma grammar_init_ok : grammar_ok Grammar_init.
Proof. repeat split; constructor. Qed.

Lemma grammar_of_ok (texts : list string) : grammar_ok (grammar_of texts).
Proof.
  unfold grammar_of. apply fold_left_invariant; [apply grammar_init_ok|].
  intros g t _. apply add_rule_keeps_ok.
Qed.

(** X3.  Whatever the text and the position, and whether it returns or
    raises, a call of [add_rule] on a grammar whose rules are numbered 1,
    2, ... in the order they were added, with the next number after the
    last and no rule twice, leaves such a grammar. *)
Theorem add_rule_keeps_grammar_ok (rule_str : str) (position : option Z)
  (self : Grammar) :
  grammar_ok self -> grammar_ok (snd (add_rule rule_str position self)).
Proof. apply add_rule_keeps_ok. Qed.

Lemma add_rule_keeps_grammar_ok_witness :
  grammar_ok (snd (add_rule (lit "S -> a") None
                     (grammar_of ["S -> A S"; "S -> a"; "A -> b"]%string))).
Proof.
  apply add_rule_keeps_grammar_ok. apply grammar_of_ok.
Defined.

(** X4.  A second call of [add_rule] with a text that was added is a silent
    no-op: it returns, and the grammar is the one the first call left. *)
Theorem add_rule_twice (rule_str : str) (self self' : Grammar) :
  add_rule rule_str None self = (Ok tt, self') ->
  add_rule rule_str None self' = (Ok tt, self').
Proof.
  unfold add_rule, bind, lift, get, put, ret.
  destruct (decode_rule rule_str) as [new_rule| |]; try discriminate.
  destruct (rule_in new_rule (rules self)) eqn:Hin.
  - intros [= <-]. now rewrite Hin.
  - intros [= <-]. cbn [rules]. rewrite rule_in_app. cbn [rule_in existsb].
    now rewrite GrammarRule_eq_set_number, GrammarRule_eq_refl, orb_true_r.
Qed.

Lemma add_rule_twice_witness :
  add_rule (lit "S -> a b") None (grammar_of ["S -> a b"%string])
  = (Ok tt, grammar_of ["S -> a b"%string]).
Proof.
  apply (add_rule_twice (lit "S -> a b") Grammar_init). reflexivity.
Defined.

Lemma numbered_sorted (l : list GrammarRule) (n : Z) :
  1 <= n -> numbered l n -> sorted l = l.
Proof.
  revert n; induction l as [|r l IH]; intros n Hn Hl; [reflexivity|].
  destruct Hl as [Hr Hl]. unfold sorted in *. cbn [fold_right].
  rewrite (IH (n + 1)) by (try lia; exact Hl).
  destruct l as [|y l]; [reflexivity|]. destruct Hl as [Hy _].
  cbn [insert_sorted]. unfold sort_key. rewrite Hr, Hy.
  destruct (n =? 0) eqn:E1; [apply Z.eqb_eq in E1; lia|].
  destruct (n + 1 =? 0) eqn:E2; [apply Z.eqb_eq in E2; lia|].
  simpl. destruct (n <=? n + 1) eqn:E3; [reflexivity|].
  apply Z.leb_gt in E3. lia.
Qed.

(** X5.  On a grammar that calls of [add_rule] built, iteration, indexing
    and printing go through the rules in the order they were added: the
    sort of [get_rules_list] changes nothing. *)
Theorem get_rules_list_insertion_order (self : Grammar) :
  grammar_ok self -> get_rules_list self = rules self.
Proof.
  intros (Hnum & _). unfold get_rules_list. now apply (numbered_sorted _ 1).
Qed.

Lemma get_rules_list_insertion_order_witness :
  get_rules_list (grammar_of ["S -> A S"; "S -> a"]%string)
  = rules (grammar_of ["S -> A S"; "S -> a"]%string).
Proof.
  apply get_rules_list_insertion_order. apply grammar_of_ok.
Defined.

(** ** What the stages that call [add_rule] return *)

Lemma keeps_ret {A} (P : Grammar -> Prop) (a : A) : keeps P (ret a).
Proof. intros g Hg. exact Hg. Qed.

Lemma keeps_lift {A} (P : Grammar -> Prop) (r : result A) : keeps P (lift r).
Proof. intros g Hg. exact Hg. Qed.

Lemma keeps_bind {A B} (P : Grammar -> Prop) (m : M A) (k : A -> M B) :
  keeps P m -> (forall a, keeps P (k a)) -> keeps P (bind m k).
Proof.
  intros Hm Hk g Hg. unfold bind. specialize (Hm g Hg).
  destruct (m g) as [[a|e|] g']; simpl in *; [now apply Hk | exact Hm | exact Hm].
Qed.

Lemma keeps_for_each {A} (P : Grammar -> Prop) (l : list A) (body : A -> M unit) :
  (forall x, keeps P (body x)) -> keeps P (for_each l body).
Proof.
  intros Hb. induction l as [|x l IH]; simpl; [apply keeps_ret|].
  apply keeps_bind; [apply Hb | intros _; exact IH].
Qed.

Lemma keeps_fold_M {A S} (P : Grammar -> Prop) (l : list A) (body : S -> A -> M S) :
  (forall acc x, keeps P (body acc x)) -> forall acc, keeps P (fold_M l acc body).
Proof.
  intros Hb. induction l as [|x l IH]; intros acc; simpl; [apply keeps_ret|].
  apply keeps_bind; [apply Hb | intros acc'; apply IH].
Qed.

Lemma build_keeps (P : Grammar -> Prop) (m : M unit) (g : Grammar) :
  P Grammar_init -> keeps P m -> build m = Ok g -> P g.
Proof.
  intros H0 Hm. unfold build. specialize (Hm Grammar_init H0).
  destruct (m Grammar_init) as [[a|e|] g']; try discriminate.
  now intros [= <-].
Qed.

Lemma rbind_Ok {A B} (r : result A) (k : A -> result B) (b : B) :
  rbind r k = Ok b -> exists a, r = Ok a /\ k a = Ok b.
Proof. destruct r as [a| |]; try discriminate. intros H. now exists a. Qed.

Section Stages.

Variable P : Grammar -> Prop.
Hypothesis P_init : P Grammar_init.
Hypothesis P_add_rule : forall rule_str position, keeps P (add_rule rule_str position).

Lemma remove_nonproductive_keeps (grammar g : Grammar) :
  remove_nonproductive grammar = Ok g -> P g.
Proof.
  unfold remove_nonproductive. intros H.
  apply rbind_Ok in H as (productive & _ & H). revert H.
  apply build_keeps; [exact P_init|].
  apply keeps_for_each. intros rule.
  destruct (_ && _); [apply P_add_rule | apply keeps_ret].
Qed.

Lemma remove_unreachable_keeps (grammar g : Grammar) (start : str) :
  remove_unreachable grammar start = Ok g -> P g.
Proof.
  unfold remove_unreachable. intros H.
  apply rbind_Ok in H as (nt & _ & H).
  apply rbind_Ok in H as (reachable & _ & H). revert H.
  apply build_keeps; [exact P_init|].
  apply keeps_for_each. intros rule.
  destruct (symbol_in _ _); [apply P_add_rule | apply keeps_ret].
Qed.

Lemma remove_epsilon_rules_keeps (grammar g : Grammar) (start : Symbol) :
  remove_epsilon_rules grammar start = Ok g -> P g.
Proof.
  unfold remove_epsilon_rules. intros H.
  apply rbind_Ok in H as (eps & _ & H). revert H.
  apply build_keeps; [exact P_init|].
  apply keeps_bind.
  - destruct (symbol_in start eps); [|apply keeps_ret].
    apply keeps_bind; [apply keeps_lift|]. intros new_start.
    apply keeps_bind; [apply P_add_rule | intros _; apply P_add_rule].
  - intros _. apply keeps_for_each. intros rule.
    destruct (rhs rule); [apply keeps_ret|].
    destruct (eps_positions_of _ _); [apply P_add_rule|].
    apply keeps_for_each. intros new_rhs.
    destruct new_rhs; [apply keeps_ret | apply P_add_rule].
Qed.

Lemma eliminate_chain_rules_keeps (grammar g : Grammar) :
  eliminate_chain_rules grammar = Ok g -> P g.
Proof.
  unfold eliminate_chain_rules.
  apply build_keeps; [exact P_init|].
  apply keeps_bind; [|intros _; apply keeps_ret].
  apply keeps_fold_M. intros processed rule.
  apply keeps_bind; [apply keeps_lift|]. intros chain.
  apply keeps_fold_M. intros processed' b.
  apply keeps_fold_M. intros processed'' rule_b.
  destruct (Symbol_eq _ _); [|apply keeps_ret].
  destruct (is_chain_rule rule_b); [apply keeps_ret|].
  destruct (negb _); [|apply keeps_ret].
  apply keeps_bind; [apply P_add_rule | intros _; apply keeps_ret].
Qed.

End Stages.

(** X6.  The grammar each of the first four stages returns was built by
    calls of [add_rule] alone: its rules are numbered 1, 2, ... in the
    order the stage added them, no rule is there twice, and every rule is
    as [add_rule] decodes it. *)
Theorem stages_return_grammar_ok (grammar g : Grammar) :
  (remove_nonproductive grammar = Ok g -> grammar_ok g)
  /\ (forall start, remove_unreachable grammar start = Ok g -> grammar_ok g)
  /\ (forall start, remove_epsilon_rules grammar start = Ok g -> grammar_ok g)
  /\ (eliminate_chain_rules grammar = Ok g -> grammar_ok g).
Proof.
  split; [|split; [|split]]; intros.
  - eapply remove_nonproductive_keeps; eauto using grammar_init_ok, add_rule_keeps_ok.
  - eapply remove_unreachable_keeps; eauto using grammar_init_ok, add_rule_keeps_ok.
  - eapply remove_epsilon_rules_keeps; eauto using grammar_init_ok, add_rule_keeps_ok.
  - eapply eliminate_chain_rules_keeps; eauto using grammar_init_ok, add_rule_keeps_ok.
Qed.

Lemma stages_return_grammar_ok_witness :
  exists g,
    remove_epsilon_rules (grammar_of ["S -> A S"; "S -> eps"; "A -> a"]%string)
                         (Nonterminal (lit "S")) = Ok g
    /\ grammar_ok g.
Proof.
  eexists. split; [vm_compute; reflexivity|].
  apply (proj1 (proj2 (proj2 (stages_return_grammar_ok
           (grammar_of ["S -> A S"; "S -> eps"; "A -> a"]%string) _)))
           (Nonterminal (lit "S"))).
  vm_compute. reflexivity.
Defined.

(** ** The table of the recognizer *)

Lemma cell_add_In (cell : list entry) (e x : entry) :
  In x (cell_add cell e) -> In x cell \/ x = e.
Proof.
  unfold cell_add. destruct (existsb _ cell); [now left|].
  intros H. apply in_app_or in H as [H|[<-|[]]]; auto.
Qed.

Lemma cell_add_keeps (cell : list entry) (e x : entry) :
  In x cell -> In x (cell_add cell e).
Proof.
  unfold cell_add. destruct (existsb _ cell); [auto|].
  intros H. apply in_or_app. now left.
Qed.

Lemma add_to_table_same (table : gmap (nat * nat) (list entry)) i j e :
  add_to_table table i j e !! (i, j)
  = Some (cell_add (match table !! (i, j) with Some cell => cell | None => [] end) e).
Proof. unfold add_to_table. apply lookup_insert_eq. Qed.

(** Adding to the table removes nothing. *)
Lemma add_to_table_keeps (table : gmap (nat * nat) (list entry)) i j e i' j' nt :
  in_table table i' j' nt -> in_table (add_to_table table i j e) i' j' nt.
Proof.
  intros (cell & m & Hc & Hin).
  destruct (decide ((i, j) = (i', j'))) as [E|E].
  - injection E as -> ->. eexists. exists m.
    split; [apply add_to_table_same|]. rewrite Hc. now apply cell_add_keeps.
  - exists cell, m. split; [|exact Hin]. now rewrite add_to_table_other.
Qed.

Lemma add_to_table_In (table : gmap (nat * nat) (list entry)) i j e i' j'
  (cell : list entry) (x : entry) :
  add_to_table table i j e !! (i', j') = Some cell -> In x cell ->
  (exists cell', table !! (i', j') = Some cell' /\ In x cell')
  \/ ((i, j) = (i', j') /\ x = e).
Proof.
  intros Hc Hin. destruct (decide ((i, j) = (i', j'))) as [E|E].
  - injection E as <- <-. rewrite add_to_table_same in Hc. injection Hc as <-.
    apply cell_add_In in Hin as [Hin| ->]; [|now right].
    destruct (table !! (i, j)) as [cell'|]; [|contradiction].
    left. now exists cell'.
  - rewrite add_to_table_other in Hc by exact E. left. now exists cell.
Qed.

(** An element just added is in the table. *)
Lemma add_to_table_has (table : gmap (nat * nat) (list entry)) i j (e : entry) :
  table_has (add_to_table table i j e) i j (value (fst e)).
Proof.
  destruct (existsb (entry_eq e)
              (match table !! (i, j) with Some cell => cell | None => [] end))
    eqn:Hex.
  - apply existsb_exists in Hex as ([nt m] & Hin & Heq).
    unfold entry_eq in Heq. apply andb_true_iff in Heq as [Hv _].
    apply Symbol_eq_value in Hv. exists nt. split; [|now rewrite Hv].
    eexists. exists m. split; [apply add_to_table_same|].
    now apply cell_add_keeps.
  - exists (fst e). split; [|reflexivity].
    eexists. exists (snd e). split; [apply add_to_table_same|].
    unfold cell_add. rewrite Hex. apply in_or_app. right. left.
    now destruct e.
Qed.

Lemma table_has_keeps (table : gmap (nat * nat) (list entry)) i j e i' j' v :
  table_has table i' j' v -> table_has (add_to_table table i j e) i' j' v.
Proof.
  intros (nt & Hin & Hv). exists nt. split; [|exact Hv].
  now apply add_to_table_keeps.
Qed.

(** What the loops over the rules and the cells of a split keep, told the
    rule and the two symbols for which they write. *)
Lemma fill_rule_invariant_rule (P : gmap (nat * nat) (list entry) -> Prop)
  i j k table rule :
  (1 <= k < j)%nat ->
  (forall t rhs0 rhs1 left_nt right_nt,
      rhs rule = [rhs0; rhs1] ->
      in_table t i k left_nt -> in_table t (i + k) (j - k) right_nt ->
      Symbol_eq rhs0 left_nt = true -> Symbol_eq rhs1 right_nt = true ->
      P t -> P (add_to_table t i j (lhs rule, rule_number rule))) ->
  P table -> P (fill_rule i j k table rule).
Proof.
  intros Hk Hadd Ht. unfold fill_rule.
  destruct (rhs rule) as [|rhs0 [|rhs1 [|? ?]]] eqn:Hrhs; try exact Ht.
  destruct (table !! (i, k)) as [left_cell|] eqn:Hl; [|exact Ht].
  destruct (table !! ((i + k)%nat, (j - k)%nat)) as [right_cell|] eqn:Hr;
    [|exact Ht].
  assert (Hinv : forall t,
             P t /\ t !! (i, k) = Some left_cell
             /\ t !! ((i + k)%nat, (j - k)%nat) = Some right_cell ->
             forall left_nt m right_nt m',
               In (left_nt, m) left_cell -> In (right_nt, m') right_cell ->
               Symbol_eq rhs0 left_nt && Symbol_eq rhs1 right_nt = true ->
               let t' := add_to_table t i j (lhs rule, rule_number rule) in
               P t' /\ t' !! (i, k) = Some left_cell
               /\ t' !! ((i + k)%nat, (j - k)%nat) = Some right_cell).
  { intros t (Hp & El & Er) left_nt m right_nt m' Hinl Hinr Heq.
    apply andb_true_iff in Heq as [H0 H1]. split; [|split].
    - apply (Hadd t rhs0 rhs1 left_nt right_nt); try assumption; try reflexivity.
      + now exists left_cell, m.
      + now exists right_cell, m'.
    - rewrite add_to_table_other; [exact El|]. intros E. injection E. lia.
    - rewrite add_to_table_other; [exact Er|]. intros E. injection E. lia. }
  apply (fold_left_invariant
           (fun t => P t /\ t !! (i, k) = Some left_cell
                     /\ t !! ((i + k)%nat, (j - k)%nat) = Some right_cell));
    [now repeat split|].
  intros t [left_nt m] Hinl Ht'.
  apply (fold_left_invariant
           (fun t => P t /\ t !! (i, k) = Some left_cell
                     /\ t !! ((i + k)%nat, (j - k)%nat) = Some right_cell));
    [exact Ht'|].
  intros t' [right_nt m'] Hinr Ht''.
  destruct (Symbol_eq rhs0 left_nt && Symbol_eq rhs1 right_nt) eqn:Heq;
    [|exact Ht''].
  now apply (Hinv t' Ht'' left_nt m right_nt m').
Qed.

Lemma fill_base_invariant_rule (P : gmap (nat * nat) (list entry) -> Prop)
  rs word table :
  (forall t i c rule,
      nth_error word i = Some c -> In rule rs ->
      is_unit_rule_for rule c = true ->
      P t -> P (add_to_table t i 1 (lhs rule, rule_number rule))) ->
  P table -> P (fill_base rs word table).
Proof.
  intros Hadd Ht. unfold fill_base.
  apply fold_left_invariant; [exact Ht|].
  intros t [i c] Hic Hw. apply enumerate_In in Hic.
  apply fold_left_invariant; [exact Hw|].
  intros t' rule Hrule Hw'.
  destruct (is_unit_rule_for rule c) eqn:Hu; [|exact Hw'].
  now apply (Hadd t' i c rule).
Qed.

Lemma fill_table_invariant_rule (P : gmap (nat * nat) (list entry) -> Prop)
  rs n table :
  (forall t i j k rule rhs0 rhs1 left_nt right_nt,
      (2 <= j <= n)%nat -> (i + j <= n)%nat -> (1 <= k < j)%nat ->
      In rule rs -> rhs rule = [rhs0; rhs1] ->
      in_table t i k left_nt -> in_table t (i + k) (j - k) right_nt ->
      Symbol_eq rhs0 left_nt = true -> Symbol_eq rhs1 right_nt = true ->
      P t -> P (add_to_table t i j (lhs rule, rule_number rule))) ->
  P table -> P (fill_table rs n table).
Proof.
  intros Hadd Ht. unfold fill_table.
  apply fold_left_invariant; [exact Ht|].
  intros t1 j Hj H1. apply in_seq in Hj.
  apply fold_left_invariant; [exact H1|].
  intros t2 i Hi H2. apply in_seq in Hi.
  apply fold_left_invariant; [exact H2|].
  intros t3 k Hk H3. apply in_seq in Hk.
  apply fold_left_invariant; [exact H3|].
  intros t4 rule Hrule H4.
  apply fill_rule_invariant_rule; [lia | | exact H4].
  intros t rhs0 rhs1 left_nt right_nt Hrhs Hl Hr H0' H1' Hp.
  apply (Hadd t i j k rule rhs0 rhs1 left_nt right_nt); try assumption; lia.
Qed.

(** Writing an element that has a reason keeps the table justified. *)
Lemma add_to_table_justified rs word table i j rule :
  In rule rs ->
  ((j = 1%nat
    /\ exists c, nth_error word i = Some c /\ is_unit_rule_for rule c = true)
   \/ ((2 <= j)%nat
       /\ exists k rhs0 rhs1 left_nt right_nt,
            (1 <= k < j)%nat /\ rhs rule = [rhs0; rhs1]
            /\ in_table table i k left_nt
            /\ in_table table (i + k) (j - k) right_nt
            /\ Symbol_eq rhs0 left_nt = true
            /\ Symbol_eq rhs1 right_nt = true)) ->
  table_justified rs word table ->
  table_justified rs word (add_to_table table i j (lhs rule, rule_number rule)).
Proof.
  intros Hrule Hwhy Ht i' j' cell nt m Hc Hin.
  assert (Hgrow : forall r,
             In r rs ->
             ((j' = 1%nat
               /\ exists c, nth_error word i' = Some c
                            /\ is_unit_rule_for r c = true)
              \/ ((2 <= j')%nat
                  /\ exists k rhs0 rhs1 left_nt right_nt,
                       (1 <= k < j')%nat /\ rhs r = [rhs0; rhs1]
                       /\ in_table table i' k left_nt
                       /\ in_table table (i' + k) (j' - k) right_nt
                       /\ Symbol_eq rhs0 left_nt = true
                       /\ Symbol_eq rhs1 right_nt = true)) ->
             (j' = 1%nat
              /\ exists c, nth_error word i' = Some c
                           /\ is_unit_rule_for r c = true)
             \/ ((2 <= j')%nat
                 /\ exists k rhs0 rhs1 left_nt right_nt,
                      (1 <= k < j')%nat /\ rhs r = [rhs0; rhs1]
                      /\ in_table (add_to_table table i j (lhs rule, rule_number rule))
                                  i' k left_nt
                      /\ in_table (add_to_table table i j (lhs rule, rule_number rule))
                                  (i' + k) (j' - k) right_nt
                      /\ Symbol_eq rhs0 left_nt = true
                      /\ Symbol_eq rhs1 right_nt = true)).
  { intros r _ [H|(Hj' & k & rhs0 & rhs1 & l & rr & Hk & Hrhs & Hl & Hr & H0 & H1)];
      [now left|].
    right. split; [exact Hj'|]. exists k, rhs0, rhs1, l, rr.
    repeat split; try assumption; try lia; now apply add_to_table_keeps. }
  apply (add_to_table_In _ _ _ _ _ _ _ _ Hc) in Hin
    as [(cell' & Hc' & Hin') | [E Hx]].
  - destruct (Ht i' j' cell' nt m Hc' Hin') as (r & Hr & Hlhs & Hnum & Hwhy').
    exists r. repeat split; try assumption. now apply Hgrow.
  - injection E as <- <-. injection Hx as -> ->.
    exists rule. repeat split; try assumption. now apply Hgrow.
Qed.

Lemma empty_table_justified rs word : table_justified rs word ∅.
Proof. intros i j cell nt m H. rewrite lookup_empty in H. discriminate. Qed.

(** The table [parse] builds is justified. *)
Lemma table_of_justified (self : CYKParser) (word : str) :
  table_justified (get_rules_list (grammar self)) word (table_of self word).
Proof.
  unfold table_of.
  apply (fill_table_invariant_rule
           (table_justified (get_rules_list (grammar self)) word)).
  - intros t i j k rule rhs0 rhs1 l r Hj Hij Hk Hrule Hrhs Hl Hr H0 H1 Ht.
    apply add_to_table_justified; [exact Hrule | | exact Ht].
    right. split; [lia|]. now exists k, rhs0, rhs1, l, r.
  - apply (fill_base_invariant_rule
             (table_justified (get_rules_list (grammar self)) word)).
    + intros t i c rule Hc Hrule Hu Ht.
      apply add_to_table_justified; [exact Hrule | | exact Ht].
      left. split; [reflexivity|]. now exists c.
    + apply empty_table_justified.
Qed.

Lemma table_of_within (self : CYKParser) (word : str) :
  table_within (table_of self word) (length word).
Proof.
  apply fill_table_within, fill_base_within;
    [reflexivity | apply empty_table_within].
Qed.

(** *** Pieces of a word *)

Lemma span_one (word : str) (i : nat) (c : char) :
  nth_error word i = Some c -> span word i 1 = [c].
Proof.
  unfold span. revert word; induction i as [|i IH]; intros [|d word] H;
    try discriminate.
  - now injection H as ->.
  - now apply IH.
Qed.

Lemma firstn_split {A} (l : list A) (j k : nat) :
  (k <= j)%nat -> firstn j l = firstn k l ++ firstn (j - k) (skipn k l).
Proof.
  revert j l; induction k as [|k IH]; intros j l Hk.
  - now rewrite Nat.sub_0_r.
  - destruct j as [|j]; [lia|]. destruct l as [|x l]; [now rewrite skipn_nil, !firstn_nil|].
    simpl. f_equal. apply IH. lia.
Qed.

Lemma span_split (word : str) (i j k : nat) :
  (k <= j)%nat -> span word i j = span word i k ++ span word (i + k) (j - k).
Proof.
  intros Hk. unfold span. rewrite (firstn_split _ j k Hk).
  now rewrite skipn_skipn, (Nat.add_comm k i).
Qed.

Lemma span_all (word : str) : span word 0 (length word) = word.
Proof. unfold span. apply firstn_all. Qed.

Lemma span_length (word : str) (i j : nat) :
  (i + j <= length word)%nat -> length (span word i j) = j.
Proof.
  intros H. unfold span. rewrite length_firstn, length_skipn. lia.
Qed.

(** *** What is in the table is derived *)

Lemma in_table_derives rs word table :
  table_justified rs word table ->
  forall j i nt, in_table table i j nt -> cnf_derives rs (value nt) (span word i j).
Proof.
  intros Hjust j. induction j as [j IH] using lt_wf_ind.
  intros i nt (cell & m & Hc & Hin).
  destruct (Hjust i j cell nt m Hc Hin)
    as (rule & Hrule & <- & _ &
        [(-> & c & Hnth & Hu)
        |(Hj & k & rhs0 & rhs1 & l & r & Hk & Hrhs & Hl & Hr & H0 & H1)]).
  - rewrite (span_one _ _ _ Hnth). now apply cnf_derives_unit.
  - rewrite (span_split word i j k) by lia.
    apply (cnf_derives_pair rs rule rhs0 rhs1); try assumption.
    + apply Symbol_eq_value in H0. rewrite H0. apply IH; [lia | exact Hl].
    + apply Symbol_eq_value in H1. rewrite H1. apply IH; [lia | exact Hr].
Qed.

Lemma cnf_derives_incl rs rs' v w :
  (forall rule, In rule rs -> In rule rs') ->
  cnf_derives rs v w -> cnf_derives rs' v w.
Proof.
  intros Hincl. induction 1 as [rule c Hin Hu | rule rhs0 rhs1 w1 w2 Hin Hrhs _ IH1 _ IH2].
  - apply cnf_derives_unit; auto.
  - apply (cnf_derives_pair rs' rule rhs0 rhs1); auto.
Qed.

Lemma derivation_of_incl rs rs' v w d :
  (forall rule, In rule rs -> In rule rs') ->
  derivation_of rs v w d -> derivation_of rs' v w d.
Proof.
  intros Hincl.
  induction 1 as [rule c Hin Hu | rule rhs0 rhs1 w1 w2 d1 d2 Hin Hrhs _ IH1 _ IH2].
  - apply derivation_unit; auto.
  - apply (derivation_pair rs' rule rhs0 rhs1); auto.
Qed.

Lemma derivation_of_length rs v w d :
  derivation_of rs v w d -> (length d + 1 = 2 * length w)%nat.
Proof.
  induction 1 as [| rule rhs0 rhs1 w1 w2 d1 d2 _ _ _ IH1 _ IH2]; [reflexivity|].
  simpl. rewrite !length_app. lia.
Qed.

Lemma derivation_of_derives rs v w d :
  derivation_of rs v w d -> cnf_derives rs v w.
Proof.
  induction 1 as [rule c Hin Hu | rule rhs0 rhs1 w1 w2 d1 d2 Hin Hrhs _ IH1 _ IH2].
  - now apply cnf_derives_unit.
  - now apply (cnf_derives_pair rs rule rhs0 rhs1).
Qed.

(** *** The derivation *)

Lemma trace_unit_find (rs : list GrammarRule) (word : str) (i : nat)
  (c : char) (current_nt : Symbol) :
  nth_error word i = Some c ->
  trace_unit rs word i current_nt
  = match find (fun rule => is_unit_rule_for rule c
                            && Symbol_eq (lhs rule) current_nt) rs with
    | Some rule => Ok [rule_number rule]
    | None => Ok []
    end.
Proof.
  intros Hc. induction rs as [|r rs IH]; [reflexivity|].
  cbn [trace_unit find]. unfold is_unit_rule_for at 1.
  destruct (rhs r) as [|t [|? ?]]; try exact IH.
  destruct (is_Terminal t); [|exact IH]. cbn [andb].
  destruct (Symbol_eq (lhs r) current_nt);
    [|rewrite andb_false_r; exact IH].
  rewrite Hc, andb_true_r. destruct (str_eqb (value t) [c]); [reflexivity|exact IH].
Qed.

Lemma trace_unit_derivation (rs : list GrammarRule) (word : str) (i : nat)
  (c : char) (current_nt : Symbol) :
  nth_error word i = Some c ->
  (exists rule, In rule rs /\ is_unit_rule_for rule c = true
                /\ Symbol_eq (lhs rule) current_nt = true) ->
  exists rule, In rule rs /\ is_unit_rule_for rule c = true
               /\ Symbol_eq (lhs rule) current_nt = true
               /\ trace_unit rs word i current_nt = Ok [rule_number rule].
Proof.
  intros Hc (rule & Hin & Hu & Heq). rewrite (trace_unit_find _ _ _ _ _ Hc).
  destruct (find _ rs) as [rule'|] eqn:Hf.
  - apply find_some in Hf as [Hin' Hb]. apply andb_true_iff in Hb as [Hu' Heq'].
    now exists rule'.
  - apply (find_none _ _ Hf) in Hin. now rewrite Hu, Heq in Hin.
Qed.

Lemma choose_from_some (self : CYKParser) (i j : nat) (current_nt : Symbol)
  (ks : list nat) (k : nat) :
  In k ks -> choose_at self i j k current_nt <> None ->
  choose_from self i j current_nt ks <> None.
Proof.
  induction ks as [|k' ks IH]; intros Hin Hk; [contradiction|].
  cbn [choose_from]. destruct (choose_at self i j k' current_nt) eqn:E;
    [discriminate|].
  destruct Hin as [->|Hin]; [contradiction | now apply IH].
Qed.

Lemma justifies_true (current_nt left_nt right_nt : Symbol) (rule : GrammarRule) :
  justifies current_nt left_nt right_nt rule = true <->
  Symbol_eq (lhs rule) current_nt = true
  /\ exists rhs0 rhs1, rhs rule = [rhs0; rhs1]
       /\ Symbol_eq rhs0 left_nt = true /\ Symbol_eq rhs1 right_nt = true.
Proof.
  unfold justifies. rewrite andb_true_iff. split.
  - intros [H1 H2]. split; [exact H1|].
    destruct (rhs rule) as [|rhs0 [|rhs1 [|? ?]]]; try discriminate.
    apply andb_true_iff in H2. now exists rhs0, rhs1.
  - intros [H1 (rhs0 & rhs1 & -> & H2 & H3)]. now rewrite H2, H3.
Qed.

Lemma in_table_in_cell (self : CYKParser) (i j : nat) (nt : Symbol) :
  in_table (recognition_table self) i j nt <-> in_cell self i j nt.
Proof. reflexivity. Qed.

Section ValidDerivation.

Variable self : CYKParser.
Variable word : str.
Let rs := get_rules_list (grammar self).
Hypothesis within : table_within (recognition_table self) (length word).
Hypothesis justified : table_justified rs word (recognition_table self).

(** For a symbol of a cell, [_trace_rules] returns a derivation of the
    piece of the word from it. *)
Lemma trace_rules_derivation :
  forall fuel i j nt current_nt,
    (j <= fuel)%nat ->
    in_table (recognition_table self) i j nt ->
    Symbol_eq nt current_nt = true ->
    exists d, trace_rules fuel self word i j current_nt = Ok d
              /\ derivation_of rs (value current_nt) (span word i j) d.
Proof.
  induction fuel as [|fuel IH]; intros i j nt current_nt Hfuel Hin Heq.
  - destruct Hin as (cell & m & Hc & _). apply within in Hc. lia.
  - pose proof Hin as (cell & m & Hc & Hcell).
    pose proof (within _ _ _ Hc) as Hbound.
    destruct (justified i j cell nt m Hc Hcell)
      as (rule & Hrule & Hlhs & _ &
          [(-> & c & Hnth & Hu)
          |(Hj & k & rhs0 & rhs1 & l & r & Hk & Hrhs & Hl & Hr & H0 & H1)]).
    + destruct (trace_unit_derivation rs word i c current_nt Hnth)
        as (rule' & Hin' & Hu' & Heq' & Ht).
      { exists rule. now rewrite Hlhs. }
      exists [rule_number rule']. split; [exact Ht|].
      rewrite (span_one _ _ _ Hnth). apply Symbol_eq_value in Heq'.
      rewrite <- Heq'. now apply derivation_unit.
    + cbn [trace_rules].
      replace (Nat.eqb j 1) with false by (symmetry; apply Nat.eqb_neq; lia).
      destruct (choose self i j current_nt) as [[k' [[l' r'] rule']]|] eqn:Hch.
      2:{ exfalso. revert Hch. unfold choose.
          apply (choose_from_some _ _ _ _ _ k); [apply in_seq; lia|].
          destruct Hl as (cl & ml & Hcl & Hinl), Hr as (cr & mr & Hcr & Hinr).
          unfold choose_at. unfold entry in *. rewrite Hcl, Hcr.
          intros Hnone.
          assert (Hj' : justifies current_nt l r rule = true).
          { apply justifies_true. split; [now rewrite Hlhs|].
            now exists rhs0, rhs1. }
          rewrite (find_none _ _ Hnone (l, r, rule)) in Hj'; [discriminate|].
          apply candidates_In. split; [now exists ml|].
          split; [now exists mr | exact Hrule]. }
      apply choose_split in Hch as (Hk' & Hat & _).
      apply choose_at_cells in Hat as (cl & cr & Hcl & Hcr & Hfind).
      apply find_some in Hfind as [Hcand Hj'].
      apply candidates_In in Hcand as ((ml & Hinl) & (mr & Hinr) & Hrule').
      apply justifies_true in Hj' as (Hlhs' & rhs0' & rhs1' & Hrhs' & H0' & H1').
      destruct (IH i k' l' l') as (d1 & -> & Hd1);
        [lia | now exists cl, ml | apply Symbol_eq_refl |].
      destruct (IH (i + k')%nat (j - k')%nat r' r') as (d2 & -> & Hd2);
        [lia | now exists cr, mr | apply Symbol_eq_refl |].
      cbn [rbind]. eexists. split; [reflexivity|].
      rewrite (span_split word i j k') by lia.
      apply Symbol_eq_value in Hlhs', H0', H1'. rewrite <- Hlhs'.
      apply (derivation_pair rs rule' rhs0' rhs1'); try assumption.
      * now rewrite H0'.
      * now rewrite H1'.
Qed.

End ValidDerivation.

(** *** What [parse] returns *)

Lemma parse_table (self : CYKParser) (word : str) :
  fst (parse self word)
  = match table_of self word !! (0%nat, length word), start_symbol self with
    | Some cell, Some start =>
        if existsb (fun '(nt, _) => Symbol_eq nt start) cell then
          rbind (get_derivation_rules
                   (mkParser (start_symbol self) (grammar self) (table_of self word))
                   word)
                (fun rule_numbers => Ok (true, Some rule_numbers))
        else Ok (false, None)
    | _, _ => Ok (false, None)
    end.
Proof.
  unfold parse, table_of. cbv zeta. unfold entry in *.
  destruct (_ !! (0%nat, length word)) as [cell|]; [|reflexivity].
  cbn [start_symbol]. destruct (start_symbol self) as [start|]; [|reflexivity].
  destruct (existsb _ cell); reflexivity.
Qed.

(** When [parse] accepts, the start symbol is in the top cell. *)
Lemma parse_accepts_in_table (self : CYKParser) (word : str) d :
  fst (parse self word) = Ok (true, d) ->
  exists start nt,
    start_symbol self = Some start
    /\ in_table (table_of self word) 0 (length word) nt
    /\ Symbol_eq nt start = true.
Proof.
  rewrite parse_table. unfold entry in *.
  destruct (_ !! (0%nat, length word)) as [cell|] eqn:Hc;
    [|cbv beta iota; intros H; discriminate H].
  destruct (start_symbol self) as [start|];
    [|cbv beta iota; intros H; discriminate H].
  cbv beta iota.
  destruct (existsb (fun '(nt, _) => Symbol_eq nt start) cell) eqn:Hex;
    [|intros H; discriminate H].
  intros _. apply existsb_exists in Hex as ([nt m] & Hin & Heq).
  exists start, nt. split; [reflexivity|]. split; [|exact Heq].
  now exists cell, m.
Qed.

Lemma parse_sound_rules (self : CYKParser) (word : str) d :
  fst (parse self word) = Ok (true, d) ->
  exists start,
    start_symbol self = Some start
    /\ cnf_derives (rules (grammar self)) (value start) word.
Proof.
  intros H. apply parse_accepts_in_table in H as (start & nt & Hs & Hin & Heq).
  exists start. split; [exact Hs|].
  apply (in_table_derives _ _ _ (table_of_justified self word)) in Hin.
  rewrite span_all in Hin. apply Symbol_eq_value in Heq. rewrite <- Heq.
  eapply cnf_derives_incl; [|exact Hin]. intros rule. apply sorted_In.
Qed.

Lemma parse_derivation_ok (self : CYKParser) (word : str)
  (d : option (list (option Z))) :
  (forall rule, In rule (rules (grammar self)) -> falsy (rule_number rule) = false) ->
  fst (parse self word) = Ok (true, d) ->
  exists start rule_numbers,
    start_symbol self = Some start
    /\ d = Some rule_numbers
    /\ derivation_of (rules (grammar self)) (value start) word rule_numbers
    /\ (length rule_numbers + 1 = 2 * length word)%nat.
Proof.
  intros Hnum H.
  pose proof (parse_accepts_in_table _ _ _ H) as (start & nt & Hs & Hin & Heq).
  pose proof (table_of_justified self word) as Hjust.
  pose proof (table_of_within self word) as Hwithin.
  rewrite parse_table in H.
  destruct Hin as (cell & m & Hc & Hcell). unfold entry in *. rewrite Hc, Hs in H.
  cbv beta iota in H.
  destruct (existsb (fun '(nt, _) => Symbol_eq nt start) cell) eqn:Hex;
    [|discriminate].
  set (self' := mkParser (Some start) (grammar self) (table_of self word)) in *.
  assert (Hd : exists rule_numbers,
             get_derivation_rules self' word = Ok rule_numbers
             /\ derivation_of (get_rules_list (grammar self)) (value start)
                              word rule_numbers).
  { unfold get_derivation_rules. cbn [recognition_table start_symbol self'].
    unfold entry in *. rewrite Hc.
    destruct (find (fun '(nt, _) => Symbol_eq nt start) cell) as [[nt' m']|] eqn:Hf.
    2:{ apply (find_none _ _ Hf) in Hcell. simpl in Hcell. congruence. }
    apply find_some in Hf as [Hin' Heq'].
    destruct (Hjust 0%nat (length word) cell nt' m' Hc Hin')
      as (rule & Hrule & _ & <- & _).
    rewrite (Hnum rule) by now apply sorted_In.
    destruct (trace_rules_derivation self' word Hwithin Hjust
                (length word) 0 (length word) nt' start)
      as (rule_numbers & Ht & Hder);
      [lia | now exists cell, (rule_number rule) | exact Heq' |].
    exists rule_numbers. split; [exact Ht|]. now rewrite span_all in Hder. }
  destruct Hd as (rule_numbers & Hget & Hder). rewrite Hget in H.
  cbn [rbind] in H. injection H as <-.
  exists start, rule_numbers. split; [exact Hs|]. split; [reflexivity|]. split.
  - eapply derivation_of_incl; [|exact Hder]. intros rule. apply sorted_In.
  - now apply derivation_of_length in Hder.
Qed.

(** X7.  When [parse] accepts a word from a parser whose rules all have a
    number other than 0, the list it returns with [True] is a derivation of
    the word from the start symbol: the numbers of rules of the grammar,
    from the root down and from left to right, each rule [A -> B C]
    followed by a derivation from [B] and one from [C] of the two parts of
    its piece of the word, each rule [A -> t] at the character [t].  So for
    a word of [n] characters the list has [2 n - 1] numbers. *)
Theorem parse_derivation_valid (self : CYKParser) (word : str)
  (d : option (list (option Z))) :
  (forall rule, In rule (rules (grammar self)) -> falsy (rule_number rule) = false) ->
  fst (parse self word) = Ok (true, d) ->
  exists start rule_numbers,
    start_symbol self = Some start
    /\ d = Some rule_numbers
    /\ derivation_of (rules (grammar self)) (value start) word rule_numbers
    /\ (length rule_numbers + 1 = 2 * length word)%nat.
Proof. apply parse_derivation_ok. Qed.

Lemma parse_derivation_valid_witness :
  exists start rule_numbers,
    start_symbol (mkParser (Some (Nonterminal (lit "S")))
                    (grammar_of ["S -> A S"; "S -> a"; "A -> b"]%string) ∅)
    = Some start
    /\ Some [Some 1; Some 3; Some 2] = Some rule_numbers
    /\ derivation_of (rules (grammar_of ["S -> A S"; "S -> a"; "A -> b"]%string))
                     (value start) (lit "ba") rule_numbers
    /\ (length rule_numbers + 1 = 2 * length (lit "ba"))%nat.
Proof.
  apply (parse_derivation_valid
           (mkParser (Some (Nonterminal (lit "S")))
              (grammar_of ["S -> A S"; "S -> a"; "A -> b"]%string) ∅)
           (lit "ba") (Some [Some 1; Some 3; Some 2])).
  - intros rule [<-|[<-|[<-|[]]]]; reflexivity.
  - vm_compute. reflexivity.
Defined.

(** *** What is derived is in the table *)

Lemma fold_left_establish {A B} (Q : A -> Prop) (f : A -> B -> A) (l : list B)
  (x : B) :
  In x l ->
  (forall a y, Q a -> Q (f a y)) ->
  (forall a, Q (f a x)) ->
  forall a, Q (fold_left f l a).
Proof.
  intros Hin Hkeep Hx. induction l as [|y l IH]; intros a; [contradiction|].
  simpl. destruct Hin as [->|Hin]; [|now apply IH].
  apply fold_left_invariant; [apply Hx|]. intros a' b _. apply Hkeep.
Qed.

Lemma fold_left_establish_from {A B} (R Q : A -> Prop) (f : A -> B -> A)
  (l : list B) (x : B) :
  In x l ->
  (forall a y, R a -> R (f a y)) ->
  (forall a y, Q a -> Q (f a y)) ->
  (forall a, R a -> Q (f a x)) ->
  forall a, R a -> Q (fold_left f l a).
Proof.
  intros Hin HR HQ Hx. induction l as [|y l IH]; intros a Ha; [contradiction|].
  simpl. destruct Hin as [->|Hin].
  - apply fold_left_invariant; [now apply Hx|]. intros a' b _. apply HQ.
  - apply IH; [exact Hin|]. now apply HR.
Qed.

Lemma fold_left_seq_invariant {A} (P : nat -> A -> Prop) (f : A -> nat -> A) :
  forall len s a,
    P s a ->
    (forall j a, (s <= j < s + len)%nat -> P j a -> P (S j) (f a j)) ->
    P (s + len)%nat (fold_left f (seq s len) a).
Proof.
  induction len as [|len IH]; intros s a Ha Hstep; simpl.
  - now rewrite Nat.add_0_r.
  - rewrite <- Nat.add_succ_comm. apply IH.
    + apply Hstep; [lia | exact Ha].
    + intros j a' Hj. apply Hstep. lia.
Qed.

Lemma enumerate_from_nth {A} (l : list A) :
  forall s i x, nth_error l i = Some x ->
                In ((s + i)%nat, x) (combine (seq s (length l)) l).
Proof.
  induction l as [|y l IH]; intros s i x H; [now destruct i|].
  destruct i as [|i]; simpl in *.
  - injection H as ->. left. now rewrite Nat.add_0_r.
  - right. rewrite <- Nat.add_succ_comm. now apply IH.
Qed.

Lemma enumerate_nth {A} (l : list A) (i : nat) (x : A) :
  nth_error l i = Some x -> In (i, x) (enumerate l).
Proof. intros H. apply (enumerate_from_nth l 0 i x H). Qed.

Lemma span_one_nth (word : str) (i : nat) (c : char) :
  span word i 1 = [c] -> nth_error word i = Some c.
Proof.
  unfold span. revert word; induction i as [|i IH]; intros [|d word] H;
    try discriminate.
  - now injection H as ->.
  - now apply IH.
Qed.

Lemma cnf_derives_nonempty rs v w : cnf_derives rs v w -> (1 <= length w)%nat.
Proof.
  induction 1 as [| rule rhs0 rhs1 w1 w2 _ _ _ IH1 _ IH2]; [simpl; lia|].
  rewrite length_app. lia.
Qed.

(** The loops of [parse] remove nothing from the table. *)
Lemma fill_rule_keeps i j k table rule i' j' v :
  table_has table i' j' v -> table_has (fill_rule i j k table rule) i' j' v.
Proof.
  apply (fill_rule_invariant (fun t => table_has t i' j' v)).
  intros _ _ _ _ t e. apply table_has_keeps.
Qed.

Lemma fill_rules_keeps rs i j k table i' j' v :
  table_has table i' j' v ->
  table_has (fold_left (fill_rule i j k) rs table) i' j' v.
Proof.
  intros H. apply fold_left_invariant; [exact H|].
  intros t rule _. apply fill_rule_keeps.
Qed.

Lemma fill_splits_keeps rs i j ks table i' j' v :
  table_has table i' j' v ->
  table_has (fold_left (fun table k => fold_left (fill_rule i j k) rs table)
               ks table) i' j' v.
Proof.
  intros H. apply fold_left_invariant; [exact H|].
  intros t k _. apply fill_rules_keeps.
Qed.

(** The rule [A -> B C], met with [B] and [C] in the two cells of a split,
    puts [A] in the cell of the whole span. *)
Lemma fill_rule_adds i j k table rule rhs0 rhs1 :
  (1 <= k < j)%nat -> rhs rule = [rhs0; rhs1] ->
  table_has table i k (value rhs0) ->
  table_has table (i + k) (j - k) (value rhs1) ->
  table_has (fill_rule i j k table rule) i j (value (lhs rule)).
Proof.
  intros Hk Hrhs (l & (cl & ml & Hcl & Hinl) & Hvl) (r & (cr & mr & Hcr & Hinr) & Hvr).
  unfold fill_rule. rewrite Hrhs. unfold entry in *. rewrite Hcl, Hcr.
  apply (fold_left_establish (fun t => table_has t i j (value (lhs rule)))
           _ cl (l, ml) Hinl).
  - intros t [l' ?] Ht. apply fold_left_invariant; [exact Ht|].
    intros t' [r' ?] _ Ht'. destruct (_ && _); [|exact Ht'].
    now apply table_has_keeps.
  - intros t.
    apply (fold_left_establish (fun t => table_has t i j (value (lhs rule)))
             _ cr (r, mr) Hinr).
    + intros t' [r' ?] Ht'. destruct (_ && _); [|exact Ht'].
      now apply table_has_keeps.
    + intros t'.
      rewrite (proj2 (Symbol_eq_value rhs0 l)) by now symmetry.
      rewrite (proj2 (Symbol_eq_value rhs1 r)) by now symmetry.
      apply (add_to_table_has t' i j (lhs rule, rule_number rule)).
Qed.

Section Completeness.

Variable rs : list GrammarRule.
Variable word : str.

Lemma fill_base_complete table : complete_upto rs word 1 (fill_base rs word table).
Proof.
  intros i j v Hj Hij Hder. assert (j = 1%nat) as -> by lia.
  inversion Hder as [rule c Hrule Hu Hv Hw | rule rhs0 rhs1 w1 w2 _ _ H1 H2 Hv Hw].
  - symmetry in Hw. apply span_one_nth in Hw. unfold fill_base.
    apply (fold_left_establish (fun t => table_has t i 1 (value (lhs rule)))
             _ _ (i, c) (enumerate_nth _ _ _ Hw)).
    + intros t [i' c'] Ht. apply fold_left_invariant; [exact Ht|].
      intros t' rule' _ Ht'. destruct (is_unit_rule_for rule' c'); [|exact Ht'].
      now apply table_has_keeps.
    + intros t.
      apply (fold_left_establish (fun t => table_has t i 1 (value (lhs rule)))
               _ _ rule Hrule).
      * intros t' rule' Ht'. destruct (is_unit_rule_for rule' c); [|exact Ht'].
        now apply table_has_keeps.
      * intros t'. rewrite Hu.
        apply (add_to_table_has t' i 1 (lhs rule, rule_number rule)).
  - apply cnf_derives_nonempty in H1, H2.
    apply (f_equal (@length char)) in Hw.
    rewrite length_app, span_length in Hw by exact Hij. lia.
Qed.

Lemma fill_span_complete (j : nat) table :
  (2 <= j <= length word)%nat ->
  complete_upto rs word (j - 1) table ->
  complete_upto rs word j
    (fold_left (fun table i =>
                  fold_left (fun table k => fold_left (fill_rule i j k) rs table)
                            (seq 1 (j - 1)) table)
               (seq 0 (length word - j + 1)) table).
Proof.
  intros Hj Hbefore i j0 v Hj0 Hij Hder.
  destruct (Nat.eq_dec j0 j) as [->|Hne].
  2:{ apply fold_left_invariant; [apply Hbefore; [lia | exact Hij | exact Hder]|].
      intros t i' _. apply fill_splits_keeps. }
  inversion Hder as [rule c Hrule Hu Hv Hw | rule rhs0 rhs1 w1 w2 Hrule Hrhs H1 H2 Hv Hw].
  { apply (f_equal (@length char)) in Hw. rewrite span_length in Hw by exact Hij.
    simpl in Hw. lia. }
  pose proof (cnf_derives_nonempty _ _ _ H1) as Hn1.
  pose proof (cnf_derives_nonempty _ _ _ H2) as Hn2.
  assert (Hlen : (length w1 + length w2 = j)%nat).
  { apply (f_equal (@length char)) in Hw.
    now rewrite length_app, span_length in Hw by exact Hij. }
  set (k := length w1) in *.
  rewrite (span_split word i j k) in Hw by lia.
  apply app_inj_1 in Hw as [Hw1 Hw2];
    [|rewrite span_length by lia; reflexivity].
  rewrite Hw1 in H1. rewrite Hw2 in H2.
  apply (fold_left_establish_from
           (fun t => table_has t i k (value rhs0)
                     /\ table_has t (i + k) (j - k) (value rhs1))
           (fun t => table_has t i j (value (lhs rule)))
           _ _ i).
  - apply in_seq. lia.
  - intros t i' [Ha Hb]. split; now apply fill_splits_keeps.
  - intros t i' Ht. now apply fill_splits_keeps.
  - intros t [Ha Hb].
    apply (fold_left_establish_from
             (fun t => table_has t i k (value rhs0)
                       /\ table_has t (i + k) (j - k) (value rhs1))
             (fun t => table_has t i j (value (lhs rule)))
             _ _ k).
    + apply in_seq. lia.
    + intros t' k' [Ha' Hb']. split; now apply fill_rules_keeps.
    + intros t' k' Ht'. now apply fill_rules_keeps.
    + intros t' [Ha' Hb'].
      apply (fold_left_establish_from
               (fun t => table_has t i k (value rhs0)
                         /\ table_has t (i + k) (j - k) (value rhs1))
               (fun t => table_has t i j (value (lhs rule)))
               _ _ rule Hrule).
      * intros t'' rule' [Ha'' Hb'']. split; now apply fill_rule_keeps.
      * intros t'' rule' Ht''. now apply fill_rule_keeps.
      * intros t'' [Ha'' Hb'']. apply (fill_rule_adds i j k t'' rule rhs0 rhs1);
          try assumption. lia.
      * now split.
    + now split.
  - split; apply Hbefore; try assumption; lia.
Qed.

Lemma fill_table_complete table :
  complete_upto rs word 1 table ->
  complete_upto rs word (length word) (fill_table rs (length word) table).
Proof.
  intros H1. destruct (length word) as [|n] eqn:Hn.
  - intros i j v Hj. lia.
  - unfold fill_table.
    pose proof (fold_left_seq_invariant
                  (fun j t => complete_upto rs word (j - 1) t)
                  (fun table j =>
                     fold_left (fun table i =>
                       fold_left (fun table k =>
                         fold_left (fill_rule i j k) rs table)
                         (seq 1 (j - 1)) table)
                       (seq 0 (S n - j + 1)) table)
                  (S n - 1) 2 table) as Hfold.
    cbv beta in Hfold.
    replace (2 + (S n - 1) - 1)%nat with (S n) in Hfold by lia.
    apply Hfold; [exact H1|].
    intros j t Hj Ht. replace (S j - 1)%nat with j by lia.
    rewrite <- Hn. apply fill_span_complete; [lia|]. exact Ht.
Qed.

End Completeness.

Lemma table_of_complete (self : CYKParser) (word : str) (i j : nat) (v : str) :
  (1 <= j)%nat -> (i + j <= length word)%nat ->
  cnf_derives (get_rules_list (grammar self)) v (span word i j) ->
  table_has (table_of self word) i j v.
Proof.
  intros Hj Hij Hder.
  apply (fill_table_complete _ word _ (fill_base_complete _ word ∅) i j v);
    [lia | exact Hij | exact Hder].
Qed.

(** X8.  The table [parse] builds holds a nonterminal at span [(i, j)]
    exactly when the nonterminal derives the [j] characters of the word
    from position [i] with the rules [A -> t] and [A -> B C] of the
    parser's grammar. *)
Theorem table_holds_what_is_derived (self : CYKParser) (word : str)
  (i j : nat) (v : str) :
  table_has (table_of self word) i j v <->
  (1 <= j)%nat /\ (i + j <= length word)%nat
  /\ cnf_derives (rules (grammar self)) v (span word i j).
Proof.
  split.
  - intros (nt & Hin & <-). pose proof Hin as (cell & m & Hc & _).
    apply (table_of_within self word) in Hc as [Hj Hij].
    split; [exact Hj|]. split; [exact Hij|].
    apply (in_table_derives _ _ _ (table_of_justified self word)) in Hin.
    eapply cnf_derives_incl; [|exact Hin]. intros rule. apply sorted_In.
  - intros (Hj & Hij & Hder). apply table_of_complete; try assumption.
    eapply cnf_derives_incl; [|exact Hder]. intros rule. apply sorted_In.
Qed.



(** *** The standard notion of derivation *)

Lemma read_rule_lhs (rule : GrammarRule) :
  read_rule rule -> lhs rule = Nonterminal (value (lhs rule)).
Proof. intros [(v & -> & _) _]. reflexivity. Qed.

Lemma valid_name_upper (v : str) :
  valid_name v -> exists c rest, v = c :: rest /\ isupper c = true.
Proof.
  unfold valid_name, Nonterminal_init. destruct v as [|c rest];
    [intros H; discriminate H|].
  destruct (isupper c) eqn:Hup; [|intros H; discriminate H].
  intros _. exists c, rest. now split.
Qed.

Lemma cnf_derives_lhs rs v w :
  cnf_derives rs v w -> exists rule, In rule rs /\ value (lhs rule) = v.
Proof. intros H. destruct H as [rule | rule]; now exists rule. Qed.

(** With rules as [add_rule] decodes them, a symbol that a rule has on the
    left is a nonterminal: no terminal has the value of a left-hand side. *)
Lemma read_symbol_derives rs (s : Symbol) (w : str) :
  Forall read_rule rs -> read_symbol s ->
  cnf_derives rs (value s) w -> s = Nonterminal (value s).
Proof.
  intros Hrs Hs Hder. destruct s as [[|c [|? ?]]|v|]; try contradiction;
    [|reflexivity].
  exfalso. destruct Hs as [Hup _].
  apply cnf_derives_lhs in Hder as (rule & Hin & Hv). simpl in Hv.
  rewrite Forall_forall in Hrs. destruct (Hrs rule Hin) as [(v & Hl & Hvalid) _].
  rewrite Hl in Hv. simpl in Hv. subst v.
  apply valid_name_upper in Hvalid as (c' & rest & [= <- <-] & Hup').
  congruence.
Qed.

Lemma cnf_derives_derives rs v w :
  Forall read_rule rs -> cnf_derives rs v w -> derives rs (Nonterminal v) w.
Proof.
  intros Hrs. pose proof Hrs as Hall. rewrite Forall_forall in Hall.
  induction 1 as [rule c Hin Hu | rule rhs0 rhs1 w1 w2 Hin Hrhs H1 IH1 H2 IH2].
  - rewrite <- (read_rule_lhs rule (Hall rule Hin)).
    apply derives_rule; [exact Hin|].
    unfold is_unit_rule_for in Hu.
    destruct (rhs rule) as [|t [|? ?]]; try discriminate.
    apply andb_true_iff in Hu as [Ht Hv]. apply str_eqb_eq in Hv.
    destruct t as [v'| |]; try discriminate. simpl in Hv. subst v'.
    rewrite <- (app_nil_r [c]). apply derives_cons; constructor.
  - rewrite <- (read_rule_lhs rule (Hall rule Hin)).
    apply derives_rule; [exact Hin|]. rewrite Hrhs.
    destruct (Hall rule Hin) as [_ Hsym]. rewrite Hrhs in Hsym.
    inversion Hsym as [|? ? Hs0 Hrest]; subst.
    inversion Hrest as [|? ? Hs1 _]; subst.
    rewrite (read_symbol_derives rs rhs0 w1 Hrs Hs0 H1).
    rewrite (read_symbol_derives rs rhs1 w2 Hrs Hs1 H2).
    replace (w1 ++ w2) with (w1 ++ (w2 ++ [])) by now rewrite app_nil_r.
    apply derives_cons; [exact IH1|].
    apply derives_cons; [exact IH2 | constructor].
Qed.

(** X10.  With a grammar whose rules are as [add_rule] decodes them, a word
    that [parse] accepts is derived from the start symbol, a nonterminal,
    in the usual sense: by replacing a left-hand side with the right-hand
    side of one of its rules down to the characters of the word. *)
Theorem parse_accepts_derived_word (self : CYKParser) (word : str)
  (d : option (list (option Z))) :
  Forall read_rule (rules (grammar self)) ->
  fst (parse self word) = Ok (true, d) ->
  exists name,
    option_map value (start_symbol self) = Some name
    /\ derives (rules (grammar self)) (Nonterminal name) word.
Proof.
  intros Hrs H. apply parse_sound_rules in H as (start & Hs & H).
  exists (value start). rewrite Hs. split; [reflexivity|].
  now apply cnf_derives_derives.
Qed.

Lemma parse_accepts_derived_word_witness :
  exists name,
    option_map value (Some (Nonterminal (lit "S"))) = Some name
    /\ derives (rules (grammar_of ["S -> A S"; "S -> a"; "A -> b"]%string))
               (Nonterminal name) (lit "ba").
Proof.
  apply (parse_accepts_derived_word
           (mkParser (Some (Nonterminal (lit "S")))
              (grammar_of ["S -> A S"; "S -> a"; "A -> b"]%string) ∅)
           (lit "ba") (Some [Some 1; Some 3; Some 2])).
  - apply grammar_of_ok.
  - vm_compute. reflexivity.
Defined.

(** ** The analyses of the pipeline *)

(** *** Passes until nothing is added *)

Section Saturation.

Context {X S : Type}.
Variable cond : S -> X -> bool.
Variable add : S -> X -> S.
Variable xs : list X.
Variable Inv : S -> Prop.
Variable size : S -> nat.
Variable bound : nat.

Hypothesis add_keeps :
  forall s x, In x xs -> Inv s -> cond s x = true ->
              Inv (add s x) /\ (size s < size (add s x))%nat.
Hypothesis size_bound : forall s, Inv s -> (size s <= bound)%nat.

Lemma sat_fold_spec :
  forall l st,
    (forall x, In x l -> In x xs) -> Inv (fst st) ->
    Inv (fst (fold_left (sat_step cond add) l st))
    /\ (size (fst st) <= size (fst (fold_left (sat_step cond add) l st)))%nat
    /\ (snd (fold_left (sat_step cond add) l st) = true ->
        snd st = true
        \/ (size (fst st) < size (fst (fold_left (sat_step cond add) l st)))%nat)
    /\ (snd (fold_left (sat_step cond add) l st) = false ->
        snd st = false
        /\ fst (fold_left (sat_step cond add) l st) = fst st
        /\ forall x, In x l -> cond (fst st) x = false).
Proof.
  induction l as [|x l IH]; intros st Hl Hinv; cbn [fold_left].
  - repeat split; auto. intros x [].
  - assert (Hx : In x xs) by (apply Hl; now left).
    assert (Hl' : forall y, In y l -> In y xs) by (intros y Hy; apply Hl; now right).
    destruct (cond (fst st) x) eqn:Hc.
    + assert (E : sat_step cond add st x = (add (fst st) x, true))
        by (unfold sat_step; now rewrite Hc).
      rewrite E.
      destruct (add_keeps _ _ Hx Hinv Hc) as [Hinv' Hsize].
      destruct (IH (add (fst st) x, true) Hl' Hinv') as (H1 & H2 & H3 & H4).
      cbn [fst snd] in *. split; [exact H1|]. split; [lia|].
      split; [intros _; right; lia|].
      intros Hf. destruct (H4 Hf) as [E' _]. discriminate E'.
    + assert (E : sat_step cond add st x = st)
        by (unfold sat_step; now rewrite Hc).
      rewrite E.
      destruct (IH st Hl' Hinv) as (H1 & H2 & H3 & H4).
      split; [exact H1|]. split; [exact H2|]. split; [exact H3|].
      intros Hf. destruct (H4 Hf) as (Hs & E' & Hall). split; [exact Hs|].
      split; [exact E'|].
      intros y [<-|Hy]; [exact Hc | now apply Hall].
Qed.

(** With enough passes allowed, the loop returns a set to which a further
    pass would add nothing. *)
Lemma sat_loop_returns :
  forall fuel s,
    Inv s -> (bound - size s < fuel)%nat ->
    exists s', sat_loop cond add fuel xs s = Ok s'
               /\ Inv s' /\ forall x, In x xs -> cond s' x = false.
Proof.
  induction fuel as [|fuel IH]; intros s Hinv Hfuel; [lia|].
  cbn [sat_loop]. unfold sat_pass.
  pose proof (sat_fold_spec xs (s, false) (fun x H => H) Hinv) as (H1 & H2 & H3 & H4).
  cbn [fst snd] in *.
  destruct (fold_left (sat_step cond add) xs (s, false)) as [s' changed].
  cbn [fst snd] in *. destruct changed.
  - destruct (H3 eq_refl) as [Hf|Hgrow]; [discriminate|].
    pose proof (size_bound _ H1). apply IH; [exact H1 | lia].
  - destruct (H4 eq_refl) as (_ & -> & Hall). now exists s.
Qed.

End Saturation.

Lemma fold_left_ext {A B} (f g : A -> B -> A) (l : list B) (a : A) :
  (forall a b, f a b = g a b) -> fold_left f l a = fold_left g l a.
Proof.
  intros H. revert a; induction l as [|b l IH]; intros a; [reflexivity|].
  simpl. now rewrite H, IH.
Qed.

Lemma NoDup_snoc {A} (l : list A) (x : A) :
  NoDup l -> ~ In x l -> NoDup (l ++ [x]).
Proof.
  induction 1 as [|y l Hy Hl IH]; intros Hx; simpl.
  - constructor; [intros []|constructor].
  - constructor.
    + intros H. apply in_app_or in H as [H|[->|[]]]; [contradiction|].
      apply Hx. now left.
    + apply IH. intros H. apply Hx. now right.
Qed.

Lemma str_in_In (s : str) (set : list str) : str_in s set = true <-> In s set.
Proof.
  unfold str_in. rewrite existsb_exists. split.
  - intros (t & Hin & E). apply str_eqb_eq in E. now subst.
  - intros H. exists s. split; [exact H | apply str_eqb_refl].
Qed.

Lemma symbol_in_value (s : Symbol) (set : list Symbol) :
  symbol_in s set = true <-> In (value s) (map value set).
Proof.
  unfold symbol_in. rewrite existsb_exists, in_map_iff. split.
  - intros (t & Hin & E). apply Symbol_eq_value in E. now exists t.
  - intros (t & E & Hin). exists t. split; [exact Hin|]. now apply Symbol_eq_value.
Qed.

(** *** The productive nonterminals *)

Lemma productive_pass_sat (rs : list GrammarRule) (p : list str) :
  productive_pass rs p = sat_pass productive_cond productive_add rs p.
Proof.
  unfold productive_pass, sat_pass. apply fold_left_ext.
  intros [q changed] rule. unfold sat_step, productive_cond, productive_add.
  cbn [fst]. destruct (str_in (value (lhs rule)) q); [reflexivity|].
  cbn [negb andb]. now destruct (all_productive q (rhs rule)).
Qed.

Lemma productive_loop_sat (rs : list GrammarRule) :
  forall fuel p,
    productive_loop fuel rs p = sat_loop productive_cond productive_add fuel rs p.
Proof.
  induction fuel as [|fuel IH]; intros p; [reflexivity|].
  cbn [productive_loop sat_loop]. rewrite productive_pass_sat.
  destruct (sat_pass _ _ rs p) as [p' changed]. destruct changed; [apply IH | reflexivity].
Qed.

Lemma all_productive_spec (rs : list GrammarRule) (p : list str) (rhs : list Symbol) :
  all_productive p rhs = true <->
  forall s, In s rhs -> is_Nonterminal s = true -> In (value s) p.
Proof.
  unfold all_productive. rewrite forallb_forall. split.
  - intros H s Hs Hnt. specialize (H s Hs). rewrite Hnt in H. now apply str_in_In.
  - intros H s Hs. destruct (is_Nonterminal s) eqn:Hnt; [|reflexivity].
    apply str_in_In. now apply H.
Qed.

Lemma find_productive_nonterminals_returns (grammar : Grammar) :
  exists productive_nts,
    find_productive_nonterminals grammar = Ok productive_nts
    /\ forall v, str_in v productive_nts = true <-> productive (rules grammar) v.
Proof.
  unfold find_productive_nonterminals. rewrite productive_loop_sat.
  set (rs := get_rules_list grammar).
  destruct (sat_loop_returns productive_cond productive_add rs
              (fun p => NoDup p
                        /\ incl p (map (fun rule => value (lhs rule)) rs)
                        /\ forall v, In v p -> productive rs v)
              (@length str) (length rs)) with (fuel := S (length rs)) (s := @nil str)
    as (p & Hloop & (Hnodup & Hincl & Hsound) & Hclosed).
  - intros q rule Hrule (Hnd & Hinc & Hs) Hc.
    unfold productive_cond in Hc. apply andb_true_iff in Hc as [Hnew Hall].
    apply negb_true_iff in Hnew.
    assert (Hnotin : ~ In (value (lhs rule)) q).
    { intros H. apply str_in_In in H. congruence. }
    unfold productive_add. split; [|rewrite length_app; simpl; lia].
    split; [|split].
    + now apply NoDup_snoc.
    + intros v Hv. apply in_app_or in Hv as [Hv|[<-|[]]]; [now apply Hinc|].
      apply in_map_iff. now exists rule.
    + intros v Hv. apply in_app_or in Hv as [Hv|[<-|[]]]; [now apply Hs|].
      apply productive_rule; [exact Hrule|].
      intros s Hin Hnt. apply Hs.
      now apply (proj1 (all_productive_spec rs q (rhs rule)) Hall).
  - intros q (Hnd & Hinc & _).
    rewrite <- (length_map (fun rule => value (lhs rule)) rs).
    now apply NoDup_incl_length.
  - split; [constructor|]. split; [intros v []|intros v []].
  - simpl. lia.
  - exists p. split; [exact Hloop|]. intros v.
    assert (Hrs : forall w, productive rs w <-> productive (rules grammar) w).
    { assert (Hincl' : forall rs1 rs2, (forall r, In r rs1 -> In r rs2) ->
                        forall w, productive rs1 w -> productive rs2 w).
      { intros rs1 rs2 H w Hw. induction Hw as [rule Hin _ IH].
        apply productive_rule; auto. }
      intros w. split; apply Hincl'; intros r; apply sorted_In. }
    rewrite <- Hrs, str_in_In. split; [apply Hsound|].
    intros Hv. induction Hv as [rule Hin _ IH].
    specialize (Hclosed rule Hin). unfold productive_cond in Hclosed.
    apply andb_false_iff in Hclosed as [Hc|Hc].
    + apply negb_false_iff in Hc. now apply str_in_In.
    + assert (all_productive p (rhs rule) = true); [|congruence].
      now apply (all_productive_spec rs).
Qed.

(** X11.  [find_productive_nonterminals] returns, and the set it returns
    holds exactly the names of the productive nonterminals: the left-hand
    sides of rules whose nonterminals are all productive. *)
Theorem find_productive_nonterminals_exact (grammar : Grammar) :
  exists productive_nts,
    find_productive_nonterminals grammar = Ok productive_nts
    /\ forall v, str_in v productive_nts = true <-> productive (rules grammar) v.
Proof. apply find_productive_nonterminals_returns. Qed.

(** *** The nullable symbols *)

Lemma eps_pass_sat (rs : list GrammarRule) (eps : list Symbol) :
  eps_pass rs eps = sat_pass eps_cond eps_add rs eps.
Proof.
  unfold eps_pass, sat_pass. apply fold_left_ext.
  intros [e changed] rule. unfold sat_step, eps_cond, eps_add. cbn [fst].
  destruct (symbol_in (lhs rule) e); [reflexivity|]. cbn [negb andb].
  destruct (rhs rule) as [|s l]; [reflexivity|].
  now destruct (forallb _ (s :: l)).
Qed.

Lemma eps_loop_sat (rs : list GrammarRule) :
  forall fuel eps, eps_loop fuel rs eps = sat_loop eps_cond eps_add fuel rs eps.
Proof.
  induction fuel as [|fuel IH]; intros eps; [reflexivity|].
  cbn [eps_loop sat_loop]. rewrite eps_pass_sat.
  destruct (sat_pass _ _ rs eps) as [e changed].
  destruct changed; [apply IH | reflexivity].
Qed.

Lemma symbol_add_invariant (rs : list GrammarRule) (eps : list Symbol)
  (rule : GrammarRule) :
  In rule rs -> nullable rs (value (lhs rule)) ->
  eps_invariant rs eps -> eps_invariant rs (symbol_add eps (lhs rule)).
Proof.
  intros Hrule Hnull (Hnd & Hinc & Hs). unfold symbol_add.
  destruct (symbol_in (lhs rule) eps) eqn:Hin; [now repeat split|].
  assert (Hnotin : ~ In (value (lhs rule)) (map value eps)).
  { intros H. apply symbol_in_value in H. congruence. }
  split; [|split].
  - rewrite map_app. now apply NoDup_snoc.
  - rewrite map_app. intros v Hv. apply in_app_or in Hv as [Hv|[<-|[]]];
      [now apply Hinc|]. apply in_map_iff. now exists rule.
  - intros s Hs'. apply in_app_or in Hs' as [Hs'|[<-|[]]]; [now apply Hs | exact Hnull].
Qed.

Lemma symbol_add_keeps (eps : list Symbol) (s t : Symbol) :
  symbol_in s eps = true -> symbol_in s (symbol_add eps t) = true.
Proof.
  unfold symbol_add. destruct (symbol_in t eps); [auto|].
  intros H. unfold symbol_in in *. rewrite existsb_app, H. reflexivity.
Qed.

Lemma symbol_add_in (eps : list Symbol) (s : Symbol) :
  symbol_in s (symbol_add eps s) = true.
Proof.
  unfold symbol_add. destruct (symbol_in s eps) eqn:E; [exact E|].
  unfold symbol_in. rewrite existsb_app. simpl.
  now rewrite Symbol_eq_refl, orb_true_r.
Qed.

Lemma direct_eps_producers_invariant (rs : list GrammarRule) :
  eps_invariant rs (direct_eps_producers rs)
  /\ forall rule, In rule rs -> rhs rule = [] ->
                  symbol_in (lhs rule) (direct_eps_producers rs) = true.
Proof.
  unfold direct_eps_producers. split.
  - apply fold_left_invariant.
    + split; [constructor|]. split; [intros v []|intros s []].
    + intros eps rule Hrule Hinv. destruct (rhs rule) eqn:Hrhs; [|exact Hinv].
      apply symbol_add_invariant; try assumption.
      apply nullable_rule; [exact Hrule|]. rewrite Hrhs. intros s [].
  - intros rule Hrule Hrhs.
    apply (fold_left_establish
             (fun eps => symbol_in (lhs rule) eps = true) _ rs rule Hrule).
    + intros eps rule' H. cbv beta. destruct (rhs rule'); [|exact H].
      now apply symbol_add_keeps.
    + intros eps. cbv beta. destruct (rhs rule); [apply symbol_add_in | discriminate Hrhs].
Qed.

(** X12.  The loop of [remove_epsilon_rules] that looks for the epsilon
    producers returns, and the set it returns holds exactly the nullable
    symbols: the left-hand sides of rules whose right-hand side is empty
    or made of nullable symbols only. *)
Theorem eps_producers_exact (grammar : Grammar) :
  let rs := get_rules_list grammar in
  exists eps_producers,
    eps_loop (S (length rs)) rs (direct_eps_producers rs) = Ok eps_producers
    /\ forall s, symbol_in s eps_producers = true
                 <-> nullable (rules grammar) (value s).
Proof.
  intros rs. rewrite eps_loop_sat.
  destruct (direct_eps_producers_invariant rs) as [Hinit Hdirect].
  destruct (sat_loop_returns eps_cond eps_add rs
              (fun eps => eps_invariant rs eps
                          /\ forall rule, In rule rs -> rhs rule = [] ->
                                          symbol_in (lhs rule) eps = true)
              (@length Symbol) (length rs))
    with (fuel := S (length rs)) (s := direct_eps_producers rs)
    as (eps & Hloop & ((Hnd & Hinc & Hsound) & Hdir) & Hclosed).
  - intros e rule Hrule [Hinv Hd] Hc.
    unfold eps_cond in Hc. apply andb_true_iff in Hc as [Hnew Hall].
    apply negb_true_iff in Hnew. unfold eps_add. split; [split|].
    + apply symbol_add_invariant; try assumption.
      apply nullable_rule; [exact Hrule|]. intros s Hs.
      destruct (rhs rule) as [|s0 l] eqn:Hrhs; [contradiction|].
      rewrite forallb_forall in Hall. specialize (Hall s Hs).
      apply symbol_in_value, in_map_iff in Hall as (t & <- & Ht).
      destruct Hinv as (_ & _ & Hs'). now apply Hs'.
    + intros rule' Hrule' Hrhs'. apply symbol_add_keeps. now apply Hd.
    + unfold symbol_add. rewrite Hnew, length_app. simpl. lia.
  - intros e [(Hnd & Hinc & _) _].
    rewrite <- (length_map value e),
            <- (length_map (fun rule => value (lhs rule)) rs).
    now apply NoDup_incl_length.
  - now split.
  - lia.
  - exists eps. split; [exact Hloop|]. intros s.
    assert (Hrs : forall w, nullable rs w <-> nullable (rules grammar) w).
    { assert (Hincl' : forall rs1 rs2, (forall r, In r rs1 -> In r rs2) ->
                        forall w, nullable rs1 w -> nullable rs2 w).
      { intros rs1 rs2 H w Hw. induction Hw as [rule Hin _ IH].
        apply nullable_rule; auto. }
      intros w. split; apply Hincl'; intros r; apply sorted_In. }
    rewrite <- Hrs. split.
    + intros H. apply symbol_in_value, in_map_iff in H as (t & <- & Ht).
      now apply Hsound.
    + assert (Hval : forall v, nullable rs v -> In v (map value eps)).
      { intros v Hv. induction Hv as [rule Hin _ IH].
        apply symbol_in_value.
        destruct (rhs rule) as [|s0 l] eqn:Hrhs; [now apply Hdir|].
        specialize (Hclosed rule Hin). unfold eps_cond in Hclosed.
        rewrite Hrhs in Hclosed.
        apply andb_false_iff in Hclosed as [Hc|Hc];
          [now apply negb_false_iff in Hc|].
        assert (forallb (fun symbol => symbol_in symbol eps) (s0 :: l) = true);
          [|congruence].
        apply forallb_forall. intros s' Hs'. apply symbol_in_value.
        apply IH. first [exact Hs' | now rewrite Hrhs]. }
      intros H. apply symbol_in_value. now apply Hval.
Qed.

(** *** The reachable nonterminals *)

(** A fold whose steps only ever make the state longer, and that leaves
    the length as it was, has changed nothing. *)
Lemma fold_left_stationary {A B} (len : A -> nat) (P : A -> B -> Prop)
  (f : A -> B -> A) :
  (forall a b, (len a <= len (f a b))%nat) ->
  (forall a b, len (f a b) = len a -> f a b = a /\ P a b) ->
  forall l a,
    (len a <= len (fold_left f l a))%nat
    /\ (len (fold_left f l a) = len a ->
        fold_left f l a = a /\ forall b, In b l -> P a b).
Proof.
  intros Hgrow Hsame. induction l as [|b l IH]; intros a; simpl.
  - split; [lia|]. intros _. split; [reflexivity | intros b []].
  - destruct (IH (f a b)) as [Hle Hstat]. pose proof (Hgrow a b) as Hab.
    split; [lia|]. intros Hlen.
    destruct (Hsame a b) as [E Hp]; [lia|]. rewrite E in *.
    destruct (Hstat Hlen) as [E' Hall]. split; [exact E'|].
    intros b' [<-|Hb']; [exact Hp | now apply Hall].
Qed.

Lemma symbol_add_length (set : list Symbol) (s : Symbol) :
  (length set <= length (symbol_add set s))%nat
  /\ (length (symbol_add set s) = length set ->
      symbol_add set s = set /\ symbol_in s set = true).
Proof.
  unfold symbol_add. destruct (symbol_in s set); [split; [lia | now split]|].
  rewrite length_app. simpl. split; lia.
Qed.

Lemma reachable_symbols_stationary (symbols : list Symbol) (reachable : list Symbol) :
  let f := fun reachable symbol =>
             if is_Nonterminal symbol then symbol_add reachable symbol
             else reachable in
  (length reachable <= length (fold_left f symbols reachable))%nat
  /\ (length (fold_left f symbols reachable) = length reachable ->
      fold_left f symbols reachable = reachable
      /\ forall s, In s symbols -> is_Nonterminal s = true ->
                   symbol_in s reachable = true).
Proof.
  intros f.
  apply (fold_left_stationary (@length Symbol)
           (fun r s => is_Nonterminal s = true -> symbol_in s r = true) f).
  - intros r s. unfold f. destruct (is_Nonterminal s); [|lia].
    apply symbol_add_length.
  - intros r s. unfold f. destruct (is_Nonterminal s); [|now split].
    intros H. destruct (proj2 (symbol_add_length r s) H) as [E Hin].
    now split.
Qed.

Lemma reachable_pass_stationary (rs : list GrammarRule) (reachable : list Symbol) :
  (length reachable <= length (reachable_pass rs reachable))%nat
  /\ (length (reachable_pass rs reachable) = length reachable ->
      reachable_pass rs reachable = reachable
      /\ reachable_closed rs reachable).
Proof.
  unfold reachable_pass.
  destruct (fold_left_stationary (@length Symbol)
              (fun r rule => symbol_in (lhs rule) r = true ->
                             forall s, In s (rhs rule) -> is_Nonterminal s = true ->
                                       symbol_in s r = true)
              (fun reachable rule =>
                 if symbol_in (lhs rule) reachable then
                   fold_left (fun reachable symbol =>
                                if is_Nonterminal symbol
                                then symbol_add reachable symbol
                                else reachable)
                             (rhs rule) reachable
                 else reachable)) with (l := rs) (a := reachable) as [Hle Hstat].
  - intros r rule. destruct (symbol_in (lhs rule) r); [|lia].
    apply reachable_symbols_stationary.
  - intros r rule. destruct (symbol_in (lhs rule) r); [|intros _; split; [reflexivity|discriminate]].
    intros H. destruct (proj2 (reachable_symbols_stationary (rhs rule) r) H) as [E Hall].
    split; [exact E|]. intros _. exact Hall.
  - split; [exact Hle|]. intros H. destruct (Hstat H) as [E Hall].
    split; [exact E|]. intros rule s Hrule Hlhs Hs Hnt. now apply (Hall rule).
Qed.

Lemma reachable_pass_invariant (rs : list GrammarRule) (start : str)
  (reachable : list Symbol) :
  reachable_invariant rs start reachable ->
  reachable_invariant rs start (reachable_pass rs reachable).
Proof.
  unfold reachable_pass. intros H. apply fold_left_invariant; [exact H|].
  intros r rule Hrule Hr. destruct (symbol_in (lhs rule) r) eqn:Hlhs; [|exact Hr].
  apply symbol_in_value, in_map_iff in Hlhs as (t & Ht & Hint).
  assert (Hreach : reachable_from rs start (value (lhs rule))).
  { destruct Hr as (_ & _ & _ & Hs). rewrite <- Ht. now apply Hs. }
  apply fold_left_invariant; [exact Hr|].
  intros r' s Hs (Hnd & Hinc & Hst & Hsound).
  destruct (is_Nonterminal s) eqn:Hnt; [|now repeat split].
  unfold symbol_add. destruct (symbol_in s r') eqn:Hin; [now repeat split|].
  assert (Hnotin : ~ In (value s) (map value r')).
  { intros Hc. apply symbol_in_value in Hc. congruence. }
  split; [|split; [|split]].
  - rewrite map_app. now apply NoDup_snoc.
  - rewrite map_app. intros v Hv. apply in_app_or in Hv as [Hv|[<-|[]]];
      [now apply Hinc|]. right. apply in_map, in_flat_map. now exists rule.
  - rewrite map_app. apply in_or_app. now left.
  - intros s' Hs'. apply in_app_or in Hs' as [Hs'|[<-|[]]]; [now apply Hsound|].
    now apply (reachable_step rs start rule).
Qed.

Lemma reachable_invariant_length (rs : list GrammarRule) (start : str)
  (reachable : list Symbol) :
  reachable_invariant rs start reachable ->
  (length reachable <= 1 + length (flat_map rhs rs))%nat.
Proof.
  intros (Hnd & Hinc & _).
  rewrite <- (length_map value reachable), <- (length_map value (flat_map rhs rs)).
  exact (NoDup_incl_length Hnd Hinc).
Qed.

Lemma reachable_loop_returns (rs : list GrammarRule) (start : str) :
  forall fuel reachable old_size,
    reachable_invariant rs start reachable ->
    (old_size = length reachable -> reachable_closed rs reachable) ->
    (1 + length (flat_map rhs rs) - length reachable + 1 <= fuel)%nat ->
    exists found,
      reachable_loop fuel rs reachable old_size (length reachable) = Ok found
      /\ reachable_invariant rs start found /\ reachable_closed rs found.
Proof.
  induction fuel as [|fuel IH]; intros r old Hinv Hclosed Hfuel; [lia|].
  cbn [reachable_loop]. destruct (Nat.eqb old (length r)) eqn:E.
  - apply Nat.eqb_eq in E. exists r.
    split; [reflexivity|]. split; [exact Hinv | now apply Hclosed].
  - pose proof (reachable_pass_invariant rs start r Hinv) as Hinv'.
    destruct (reachable_pass_stationary rs r) as [Hle Hstat].
    pose proof (reachable_invariant_length _ _ _ Hinv') as Hbound.
    destruct (Nat.eq_dec (length (reachable_pass rs r)) (length r)) as [Hsame|Hgrow].
    + destruct (Hstat Hsame) as [Er Hcl]. rewrite Er in *.
      exists r. split; [|split; [exact Hinv | exact Hcl]].
      destruct fuel as [|fuel]; cbn [reachable_loop]; now rewrite Nat.eqb_refl.
    + apply IH; [exact Hinv' | | lia].
      intros Heq. lia.
Qed.

Lemma reachable_loop_exact (grammar : Grammar) (start : str) (nt : Symbol) :
  Nonterminal_init start = Ok nt ->
  let rs := get_rules_list grammar in
  exists reachable,
    reachable_loop (2 + length (flat_map rhs rs)) rs [nt] 0 1 = Ok reachable
    /\ forall s, symbol_in s reachable = true
                 <-> reachable_from (rules grammar) start (value s).
Proof.
  intros Hnt rs. apply Nonterminal_init_Ok in Hnt as ->.
  destruct (reachable_loop_returns rs start (2 + length (flat_map rhs rs))
              [Nonterminal start] 0)
    as (found & Hloop & (Hnd & Hinc & Hst & Hsound) & Hclosed).
  - split; [repeat constructor; intros []|].
    split; [intros v [<-|[]]; now left|].
    split; [now left|]. intros s [<-|[]]. constructor.
  - simpl. discriminate.
  - simpl. lia.
  - exists found. split; [exact Hloop|]. intros s.
    assert (Hrs : forall w, reachable_from rs start w
                            <-> reachable_from (rules grammar) start w).
    { assert (Hincl' : forall rs1 rs2, (forall r, In r rs1 -> In r rs2) ->
                        forall w, reachable_from rs1 start w ->
                                  reachable_from rs2 start w).
      { intros rs1 rs2 H w Hw.
        induction Hw as [|rule s' Hin _ IH Hs' Hnt]; [constructor|].
        apply (reachable_step rs2 start rule); auto. }
      intros w. split; apply Hincl'; intros r; apply sorted_In. }
    rewrite <- Hrs. split.
    + intros H. apply symbol_in_value, in_map_iff in H as (t & <- & Ht).
      now apply Hsound.
    + assert (Hval : forall v, reachable_from rs start v -> In v (map value found)).
      { intros v Hv. induction Hv as [|rule s' Hin _ IH Hs' Hnt]; [exact Hst|].
        apply symbol_in_value. apply (Hclosed rule s'); try assumption.
        now apply symbol_in_value. }
      intros H. apply symbol_in_value. now apply Hval.
Qed.

(** X13.  For a start name [Nonterminal] accepts, the loop of
    [remove_unreachable] returns, and the set it returns holds exactly the
    nonterminals reachable from the start symbol through the right-hand
    sides of the rules. *)
Theorem reachable_exact (grammar : Grammar) (start : str) (nt : Symbol) :
  Nonterminal_init start = Ok nt ->
  let rs := get_rules_list grammar in
  exists reachable,
    reachable_loop (2 + length (flat_map rhs rs)) rs [nt] 0 1 = Ok reachable
    /\ forall s, symbol_in s reachable = true
                 <-> reachable_from (rules grammar) start (value s).
Proof. apply reachable_loop_exact. Qed.

Lemma reachable_exact_witness :
  exists reachable,
    reachable_loop (2 + length (flat_map rhs
                      (get_rules_list (grammar_of ["S -> A b"; "A -> a"; "B -> b"]%string))))
                   (get_rules_list (grammar_of ["S -> A b"; "A -> a"; "B -> b"]%string))
                   [Nonterminal (lit "S")] 0 1 = Ok reachable
    /\ forall s, symbol_in s reachable = true
                 <-> reachable_from
                       (rules (grammar_of ["S -> A b"; "A -> a"; "B -> b"]%string))
                       (lit "S") (value s).
Proof.
  apply (reachable_exact (grammar_of ["S -> A b"; "A -> a"; "B -> b"]%string)
           (lit "S") (Nonterminal (lit "S"))).
  reflexivity.
Defined.

(** *** Chomsky normal form: the rule numbers *)

Lemma sorted_Permutation (l : list GrammarRule) : Permutation (sorted l) l.
Proof.
  unfold sorted. induction l as [|x l IH]; cbn [fold_right]; [constructor|].
  rewrite insert_sorted_Permutation. now constructor.
Qed.

Lemma sorted_ordered (l : list GrammarRule) : StronglySorted key_order (sorted l).
Proof.
  unfold sorted. induction l as [|x l IH]; cbn [fold_right]; [constructor|].
  now apply insert_sorted_ordered.
Qed.

Lemma rule_in_false_In (r : GrammarRule) (l : list GrammarRule) :
  rule_in r l = false -> forall x, In x l -> GrammarRule_eq r x = false.
Proof.
  intros H x Hx. destruct (GrammarRule_eq r x) eqn:E; [|reflexivity].
  assert (rule_in r l = true) by (apply existsb_exists; now exists x).
  congruence.
Qed.

Lemma rule_in_Permutation (r : GrammarRule) (l l' : list GrammarRule) :
  Permutation l l' -> rule_in r l = rule_in r l'.
Proof.
  induction 1 as [|x l l' _ IH|x y l|l l' l'' _ IH1 _ IH2]; simpl.
  - reflexivity.
  - now rewrite IH.
  - now rewrite !orb_assoc, (orb_comm (GrammarRule_eq r y)).
  - congruence.
Qed.

Lemma distinct_Permutation (l l' : list GrammarRule) :
  Permutation l l' -> distinct l -> distinct l'.
Proof.
  induction 1 as [|x l l' Hp IH|x y l|l l' l'' _ IH1 _ IH2]; simpl.
  - trivial.
  - intros [Hx Hl]. split; [now rewrite <- (rule_in_Permutation x l l') | auto].
  - intros (Hy & Hx & Hl). apply orb_false_iff in Hy as [Hyx Hy].
    repeat split; try assumption.
    now rewrite GrammarRule_eq_sym, Hyx, Hx.
  - auto.
Qed.

Lemma rules_add_distinct (s : list GrammarRule) (r : GrammarRule) :
  distinct s -> distinct (rules_add s r).
Proof.
  intros H. unfold rules_add. destruct (rule_in r s) eqn:E; [exact H|].
  now apply distinct_snoc.
Qed.

Lemma distinct_set_number (f : GrammarRule -> Z) (l : list GrammarRule) :
  distinct l -> distinct (map (fun rule => set_number rule (f rule)) l).
Proof.
  induction l as [|x l IH]; simpl; [trivial|]. intros [Hx Hl].
  split; [|now apply IH]. rewrite <- Hx. clear.
  induction l as [|y l IH]; simpl; [reflexivity|]. now rewrite <- IH.
Qed.

(** In a list without two equal rules, a rule is found at its own place. *)
Lemma index_of_positions (l : list GrammarRule) :
  distinct l ->
  map (fun rule => index_of rule l) l = map Z.of_nat (seq 0 (length l)).
Proof.
  induction l as [|x l IH]; [reflexivity|]. intros [Hx Hl].
  cbn [map length seq index_of]. rewrite GrammarRule_eq_refl. f_equal.
  transitivity (map Z.succ (map (fun rule => index_of rule l) l)).
  - rewrite map_map. apply map_ext_in. intros r Hr. cbn [index_of].
    rewrite GrammarRule_eq_sym, (rule_in_false_In _ _ Hx r Hr). lia.
  - rewrite (IH Hl), <- seq_shift, !map_map. apply map_ext. intros i. lia.
Qed.

Lemma renumber_numbers (g : Grammar) :
  distinct (rules g) ->
  Permutation (map rule_number (rules (renumber g)))
              (map (fun i => Some (Z.of_nat i)) (seq 1 (length (rules g)))).
Proof.
  intros Hd. unfold renumber. cbn [rules]. rewrite map_map. cbn [set_number rule_number].
  pose proof (sorted_Permutation (rules g)) as Hp.
  rewrite <- (Permutation_map (fun rule => Some (1 + index_of rule (sorted (rules g)))) Hp).
  rewrite <- (map_map (fun rule => index_of rule (sorted (rules g)))
                      (fun z => Some (1 + z))).
  rewrite index_of_positions by (apply (distinct_Permutation (rules g)); [now symmetry | exact Hd]).
  rewrite (Permutation_length Hp), <- seq_shift, !map_map.
  erewrite map_ext; [reflexivity|]. intros i. cbv beta. f_equal. lia.
Qed.

Section SortedUnique.

Context {A : Type}.
Variable le : A -> A -> Prop.
Hypothesis le_antisym : forall a b, le a b -> le b a -> a = b.

(** Two sorted sequences of the same elements are the same sequence. *)
Lemma sorted_Permutation_unique (l1 l2 : list A) :
  StronglySorted le l1 -> StronglySorted le l2 -> Permutation l1 l2 -> l1 = l2.
Proof.
  intros H1. revert l2. induction H1 as [|a l1 Hs1 IH Ha]; intros l2 H2 Hp.
  - apply Permutation_nil in Hp. now subst.
  - destruct H2 as [|b l2 Hs2 Hb];
      [symmetry in Hp; apply Permutation_nil in Hp; discriminate|].
    assert (a = b) as <-.
    { assert (Hin1 : In a (b :: l2)) by (apply (Permutation_in _ Hp); now left).
      assert (Hin2 : In b (a :: l1))
        by (apply (Permutation_in _ (Permutation_sym Hp)); now left).
      destruct Hin1 as [->|Hin1]; [reflexivity|].
      destruct Hin2 as [->|Hin2]; [reflexivity|].
      rewrite Forall_forall in Ha, Hb. apply le_antisym; auto. }
    f_equal. apply IH; [exact Hs2|]. now apply Permutation_cons_inv in Hp.
Qed.

End SortedUnique.

Lemma key_le_antisym (a b : option Z) :
  key_le a b = true -> key_le b a = true -> a = b.
Proof.
  destruct a, b; simpl; try discriminate; try reflexivity.
  intros H1 H2. apply Z.leb_le in H1, H2. f_equal. lia.
Qed.

Lemma StronglySorted_map_key (l : list GrammarRule) :
  StronglySorted key_order l ->
  StronglySorted (fun a b => key_le a b = true) (map sort_key l).
Proof.
  induction 1 as [|x l Hl IH Hx]; simpl; constructor; [exact IH|].
  apply Forall_forall. intros k Hk. apply in_map_iff in Hk as (y & <- & Hy).
  rewrite Forall_forall in Hx. now apply Hx.
Qed.

Lemma numbers_ordered (n start : nat) :
  StronglySorted (fun a b => key_le a b = true)
                 (map (fun i => Some (Z.of_nat i)) (seq start n)).
Proof.
  revert start; induction n as [|n IH]; intros start; simpl; constructor;
    [apply IH|].
  apply Forall_forall. intros k Hk. apply in_map_iff in Hk as (i & <- & Hi).
  apply in_seq in Hi. simpl. apply Z.leb_le. lia.
Qed.

(** Rules that carry the numbers 1 to [n], each once, are iterated in the
    order of these numbers. *)
Lemma sorted_numbers (l : list GrammarRule) (n : nat) :
  Permutation (map rule_number l) (map (fun i => Some (Z.of_nat i)) (seq 1 n)) ->
  map rule_number (sorted l) = map (fun i => Some (Z.of_nat i)) (seq 1 n).
Proof.
  intros Hp.
  assert (Hkey : forall r, In r l -> sort_key r = rule_number r).
  { intros r Hr. apply (in_map rule_number) in Hr.
    apply (Permutation_in _ Hp), in_map_iff in Hr as (i & Hi & Hseq).
    apply in_seq in Hseq. unfold sort_key. rewrite <- Hi.
    destruct (Z.of_nat i =? 0) eqn:E; [apply Z.eqb_eq in E; lia | reflexivity]. }
  rewrite <- (map_ext_in sort_key rule_number (sorted l))
    by (intros r Hr; apply Hkey; now apply sorted_In).
  apply (sorted_Permutation_unique (fun a b => key_le a b = true) key_le_antisym).
  - apply StronglySorted_map_key, sorted_ordered.
  - apply numbers_ordered.
  - rewrite (Permutation_map sort_key (sorted_Permutation l)).
    now rewrite (map_ext_in sort_key rule_number l Hkey).
Qed.

Lemma add_rule_keeps_distinct (rule_str : str) (position : option Z) :
  keeps (fun g => distinct (rules g)) (add_rule rule_str position).
Proof.
  intros self Hself. unfold add_rule, bind, lift, get, put, ret, raise.
  destruct (decode_rule rule_str) as [new_rule| |]; try exact Hself.
  destruct (rule_in new_rule (rules self)) eqn:Hin; [exact Hself|].
  destruct position as [p|]; [destruct (p <? 1); exact Hself|].
  cbn [snd rules]. apply distinct_snoc; [exact Hself | exact Hin].
Qed.

Lemma fold_left_not_Ok {A S} (f : result S -> A -> result S) (l : list A) :
  (forall x r, (forall s, r <> Ok s) -> forall s, f r x <> Ok s) ->
  forall r, (forall s, r <> Ok s) -> forall s, fold_left f l r <> Ok s.
Proof.
  intros Hf. induction l as [|x l IH]; intros r Hr; simpl; [exact Hr|].
  apply IH. now apply Hf.
Qed.

(** A loop whose every turn keeps a property of its variables, or raises,
    returns variables with the property. *)
Lemma fold_left_result_invariant {A S} (P : S -> Prop)
  (f : result S -> A -> result S) (l : list A) :
  (forall x r, (forall s, r <> Ok s) -> forall s, f r x <> Ok s) ->
  (forall st x st', In x l -> f (Ok st) x = Ok st' -> P st -> P st') ->
  forall s0 s, fold_left f l (Ok s0) = Ok s -> P s0 -> P s.
Proof.
  intros Hf. induction l as [|x l IH]; intros Hstep s0 s H H0; simpl in H.
  - now injection H as <-.
  - destruct (f (Ok s0) x) as [st'| |] eqn:E.
    + apply (IH (fun st y st' Hy => Hstep st y st' (or_intror Hy)) st' s H).
      apply (Hstep s0 x st'); [now left | exact E | exact H0].
    + exfalso. revert H. apply (fold_left_not_Ok f l Hf). discriminate.
    + exfalso. revert H. apply (fold_left_not_Ok f l Hf). discriminate.
Qed.

Lemma rbind_not_Ok {A B} (r : result A) (k : A -> result B) :
  (forall a, r <> Ok a) -> forall b, rbind r k <> Ok b.
Proof. intros Hr b. destruct r as [a| |]; [now destruct (Hr a)| |]; discriminate. Qed.

Lemma isolate_terminals_distinct (rs : list GrammarRule) (symbols : list Symbol) :
  forall new_rhs st new_rhs' st',
    isolate_terminals rs symbols new_rhs st = Ok (new_rhs', st') ->
    distinct (rules (cnf st)) -> distinct (rules (cnf st')).
Proof.
  induction symbols as [|symbol symbols IH]; intros new_rhs st new_rhs' st' H Hd;
    cbn [isolate_terminals] in H.
  - now injection H as _ <-.
  - destruct (is_Terminal symbol); [|now apply IH in H].
    destruct (dict_get (terminal_rules st) (value symbol)); [now apply IH in H|].
    apply rbind_Ok in H as ([new_nt next] & _ & H).
    pose proof (add_rule_keeps_distinct
                  (value new_nt ++ lit " -> " ++ value symbol) None (cnf st) Hd) as Hd'.
    destruct (add_rule (value new_nt ++ lit " -> " ++ value symbol) None (cnf st))
      as [[[]| |] cnf']; try discriminate.
    now apply IH in H.
Qed.

Lemma binarize_distinct (rs : list GrammarRule) :
  forall fuel current_rhs g next current_rhs' g' next',
    binarize fuel rs current_rhs g next = Ok (current_rhs', g', next') ->
    distinct (rules g) -> distinct (rules g').
Proof.
  induction fuel as [|fuel IH]; intros current_rhs g next current_rhs' g' next' H Hd;
    cbn [binarize] in H; destruct (2 <? length current_rhs)%nat;
    try discriminate; try (now injection H as _ <- _).
  apply rbind_Ok in H as ([new_nt next1] & _ & H).
  destruct (split_last_two current_rhs) as [[[front y] z]|]; [|discriminate].
  apply IH in H; [exact H|]. cbn [cnf_rules_add rules]. now apply rules_add_distinct.
Qed.

Lemma to_chomsky_normal_form_renumber (grammar normal : Grammar) :
  to_chomsky_normal_form grammar = Ok normal ->
  exists g, normal = renumber g /\ distinct (rules g).
Proof.
  unfold to_chomsky_normal_form. intros H.
  apply rbind_Ok in H as (st & H1 & H).
  apply rbind_Ok in H as ([g next] & H2 & H). injection H as <-.
  exists g. split; [reflexivity|].
  assert (Hst : distinct (rules (cnf st))).
  { eapply (fold_left_result_invariant
               (fun st => distinct (rules (cnf st))));
      [| |exact H1|].
    - intros rule r Hr. now apply rbind_not_Ok.
    - intros st0 rule st' _ E Hd. cbn [rbind] in E.
      destruct (2 <=? length (rhs rule))%nat.
      + apply rbind_Ok in E as ([new_rhs st1] & E & E'). injection E' as <-.
        cbn [cnf]. now apply isolate_terminals_distinct in E.
      + injection E as <-. cbn [cnf cnf_rules_add rules].
        now apply rules_add_distinct.
    - exact I. }
  change (distinct (rules (fst (g, next)))).
  eapply (fold_left_result_invariant (fun p => distinct (rules (fst p))));
    [| |exact H2|].
  - intros [_ [l r]] acc Hacc. now apply rbind_not_Ok.
  - intros [g0 next0] [_ [l r]] [g1 next1] _ E Hd. cbn [rbind fst] in *.
    apply rbind_Ok in E as ([[current_rhs g'] next'] & E & E').
    apply binarize_distinct in E; [|exact Hd].
    destruct current_rhs; injection E' as <- _; [exact E|].
    cbn [cnf_rules_add rules]. now apply rules_add_distinct.
  - exact Hst.
Qed.

Lemma renumber_ok (g : Grammar) :
  distinct (rules g) ->
  map rule_number (get_rules_list (renumber g))
  = map (fun i => Some (Z.of_nat i)) (seq 1 (length (rules (renumber g))))
  /\ next_rule_number (renumber g) = Z.of_nat (length (rules (renumber g))) + 1
  /\ distinct (rules (renumber g)).
Proof.
  intros Hd.
  assert (Hlen : length (rules (renumber g)) = length (rules g))
    by (unfold renumber; cbn [rules]; apply length_map).
  rewrite Hlen. split; [|split].
  - unfold get_rules_list. apply sorted_numbers. now apply renumber_numbers.
  - reflexivity.
  - unfold renumber. cbn [rules]. now apply distinct_set_number.
Qed.

(** X14.  In the grammar [to_chomsky_normal_form] returns, iterating
    visits the rules with the numbers 1, 2, ..., N in this order, N being
    the number of rules: every number from 1 to N is carried by one rule,
    the next number to give is N + 1, and no rule is there twice. *)
Theorem to_chomsky_normal_form_numbers (grammar cnf : Grammar) :
  to_chomsky_normal_form grammar = Ok cnf ->
  map rule_number (get_rules_list cnf)
  = map (fun i => Some (Z.of_nat i)) (seq 1 (length (rules cnf)))
  /\ next_rule_number cnf = Z.of_nat (length (rules cnf)) + 1
  /\ distinct (rules cnf).
Proof.
  intros H. apply to_chomsky_normal_form_renumber in H as (g & -> & Hd).
  now apply renumber_ok.
Qed.

Lemma to_chomsky_normal_form_numbers_witness :
  exists cnf,
    to_chomsky_normal_form (grammar_of ["S -> A b C"; "A -> a"; "C -> c"]%string)
    = Ok cnf
    /\ map rule_number (get_rules_list cnf)
       = map (fun i => Some (Z.of_nat i)) (seq 1 (length (rules cnf)))
    /\ next_rule_number cnf = Z.of_nat (length (rules cnf)) + 1
    /\ distinct (rules cnf).
Proof.
  eexists. split; [vm_compute; reflexivity|].
  apply (to_chomsky_normal_form_numbers
           (grammar_of ["S -> A b C"; "A -> a"; "C -> c"]%string)).
  vm_compute. reflexivity.
Defined.

(** *** The right-hand sides built for a rule with nullable symbols *)

Lemma combine_map_l {A B C} (f : A -> C) (l1 : list A) (l2 : list B) :
  combine (map f l1) l2 = map (fun '(a, b) => (f a, b)) (combine l1 l2).
Proof.
  revert l2; induction l1 as [|a l1 IH]; intros [|b l2]; simpl; try reflexivity.
  now rewrite IH.
Qed.

Lemma combine_map_r {A B C} (f : B -> C) (l1 : list A) (l2 : list B) :
  combine l1 (map f l2) = map (fun '(a, b) => (a, f b)) (combine l1 l2).
Proof.
  revert l2; induction l1 as [|a l1 IH]; intros [|b l2]; simpl; try reflexivity.
  now rewrite IH.
Qed.

Lemma filter_map_comm {A B} (f : B -> bool) (g : A -> B) (l : list A) :
  filter f (map g l) = map g (filter (fun x => f (g x)) l).
Proof.
  induction l as [|x l IH]; simpl; [reflexivity|].
  destruct (f (g x)); simpl; now rewrite IH.
Qed.

Lemma enumerate_cons {A} (x : A) (l : list A) :
  enumerate (x :: l) = (0%nat, x) :: map (fun '(i, y) => (S i, y)) (enumerate l).
Proof.
  unfold enumerate. cbn [length seq combine]. f_equal.
  now rewrite <- seq_shift, combine_map_l.
Qed.

Lemma enumerate_map {A B} (f : A -> B) (l : list A) :
  enumerate (map f l) = map (fun '(i, y) => (i, f y)) (enumerate l).
Proof. unfold enumerate. now rewrite length_map, combine_map_r. Qed.

(** A filter over [enumerate(x :: l)], in terms of the one over
    [enumerate(l)]. *)
Lemma enumerate_filter_cons {A B} (f : nat * A -> bool) (g : nat * A -> B)
  (x : A) (l : list A) :
  map g (filter f (enumerate (x :: l)))
  = (if f (0%nat, x) then [g (0%nat, x)] else [])
    ++ map (fun p => g (S (fst p), snd p))
           (filter (fun p => f (S (fst p), snd p)) (enumerate l)).
Proof.
  rewrite enumerate_cons. cbn [filter].
  assert (E : map g (filter f (map (fun '(i, y) => (S i, y)) (enumerate l)))
              = map (fun p => g (S (fst p), snd p))
                    (filter (fun p => f (S (fst p), snd p)) (enumerate l))).
  { rewrite filter_map_comm, map_map.
    rewrite (filter_ext (fun x0 => f (let '(i, y) := x0 in (S i, y)))
                        (fun p => f (S (fst p), snd p))) by now intros [].
    apply map_ext. now intros []. }
  destruct (f (0%nat, x)); cbn [map app]; now rewrite E.
Qed.

Lemma eps_positions_of_cons (eps : list Symbol) (s : Symbol) (rhs : list Symbol) :
  eps_positions_of eps (s :: rhs)
  = (if symbol_in s eps then [0%nat] else []) ++ map S (eps_positions_of eps rhs).
Proof.
  unfold eps_positions_of. rewrite enumerate_filter_cons. cbn [fst snd].
  f_equal. rewrite map_map.
  rewrite (filter_ext (fun p : nat * Symbol => symbol_in (snd p) eps)
                      (fun '(_, symbol) => symbol_in symbol eps)) by now intros [].
  reflexivity.
Qed.

(** [mask & (1 << i)] is zero when bit [i] of the mask is. *)
Lemma mask_bit (mask i : Z) :
  0 <= i -> (Z.land mask (Z.shiftl 1 i) =? 0) = negb (Z.testbit mask i).
Proof.
  intros Hi. rewrite Z.shiftl_1_l. destruct (Z.testbit mask i) eqn:E; simpl.
  - apply Z.eqb_neq. intros H.
    assert (Hb : Z.testbit (Z.land mask (2 ^ i)) i = true)
      by (now rewrite Z.land_spec, E, Z.pow2_bits_true).
    rewrite H, Z.bits_0 in Hb. discriminate.
  - apply Z.eqb_eq, Z.bits_inj'. intros n Hn.
    rewrite Z.land_spec, Z.bits_0, Z.pow2_bits_eqb by exact Hi.
    destruct (Z.eqb_spec i n) as [->|_]; [now rewrite E|apply andb_false_r].
Qed.

Lemma skip_positions_of_cons (p : nat) (eps_positions : list nat) (mask : Z) :
  skip_positions_of (p :: eps_positions) mask
  = (if Z.testbit mask 0 then [] else [p])
    ++ skip_positions_of eps_positions (Z.div2 mask).
Proof.
  unfold skip_positions_of. rewrite enumerate_filter_cons. cbn [fst snd].
  rewrite (mask_bit mask (Z.of_nat 0)) by lia. change (Z.of_nat 0) with 0.
  f_equal; [now destruct (Z.testbit mask 0)|].
  rewrite (filter_ext (fun p0 : nat * nat =>
                         Z.land mask (Z.shiftl 1 (Z.of_nat (S (fst p0)))) =? 0)
                      (fun '(i, _) =>
                         Z.land (Z.div2 mask) (Z.shiftl 1 (Z.of_nat i)) =? 0)).
  - apply map_ext. now intros [].
  - intros [i y]. cbn [fst]. rewrite !mask_bit by lia. f_equal.
    rewrite Nat2Z.inj_succ, Z.div2_div, Z.div2_bits by lia. reflexivity.
Qed.

Lemma skip_positions_of_map (f : nat -> nat) (eps_positions : list nat) (mask : Z) :
  skip_positions_of (map f eps_positions) mask
  = map f (skip_positions_of eps_positions mask).
Proof.
  unfold skip_positions_of. rewrite enumerate_map, filter_map_comm, !map_map.
  rewrite (filter_ext (fun x : nat * nat =>
                         let '(i, _) := let '(i, y) := x in (i, f y) in
                         Z.land mask (Z.shiftl 1 (Z.of_nat i)) =? 0)
                      (fun '(i, _) => Z.land mask (Z.shiftl 1 (Z.of_nat i)) =? 0))
    by now intros [].
  apply map_ext. now intros [].
Qed.

Lemma existsb_eqb_S (i : nat) (l : list nat) :
  existsb (Nat.eqb (S i)) (map S l) = existsb (Nat.eqb i) l.
Proof.
  induction l as [|x l IH]; cbn [map existsb]; [reflexivity|]. now rewrite IH.
Qed.

Lemma existsb_eqb_0 (l : list nat) : existsb (Nat.eqb 0) (map S l) = false.
Proof. induction l as [|x l IH]; cbn [map existsb]; [reflexivity|exact IH]. Qed.

(** The kept symbols of [s :: rhs] when the skipped positions past the
    first are those of [rhs], moved by one. *)
Lemma keep_cons (s : Symbol) (rhs : list Symbol) (first skip : list nat) :
  (forall i, existsb (Nat.eqb (S i)) first = false) ->
  map snd (filter (fun '(i, _) => negb (existsb (Nat.eqb i) (first ++ map S skip)))
                  (enumerate (s :: rhs)))
  = (if existsb (Nat.eqb 0) first then [] else [s])
    ++ map snd (filter (fun '(i, _) => negb (existsb (Nat.eqb i) skip))
                       (enumerate rhs)).
Proof.
  intros Hfirst.
  rewrite (enumerate_filter_cons
             (fun '(i, _) => negb (existsb (Nat.eqb i) (first ++ map S skip))) snd).
  cbn [fst snd]. rewrite existsb_app, existsb_eqb_0, orb_false_r.
  f_equal; [now destruct (existsb (Nat.eqb 0) first)|].
  rewrite (filter_ext (fun p : nat * Symbol =>
                         negb (existsb (Nat.eqb (S (fst p))) (first ++ map S skip)))
                      (fun '(i, _) => negb (existsb (Nat.eqb i) skip))).
  - reflexivity.
  - intros [i y]. cbn [fst]. now rewrite existsb_app, Hfirst, existsb_eqb_S.
Qed.

Lemma masked_rhs_cons (eps : list Symbol) (s : Symbol) (rhs : list Symbol)
  (mask : Z) :
  masked_rhs (s :: rhs) (eps_positions_of eps (s :: rhs)) mask
  = if symbol_in s eps
    then (if Z.testbit mask 0 then [s] else [])
         ++ masked_rhs rhs (eps_positions_of eps rhs) (Z.div2 mask)
    else s :: masked_rhs rhs (eps_positions_of eps rhs) mask.
Proof.
  unfold masked_rhs. rewrite eps_positions_of_cons.
  destruct (symbol_in s eps); cbn [app].
  - rewrite skip_positions_of_cons, skip_positions_of_map, keep_cons.
    + now destruct (Z.testbit mask 0).
    + intros i. now destruct (Z.testbit mask 0).
  - rewrite skip_positions_of_map.
    exact (keep_cons s rhs [] _ (fun _ => eq_refl)).
Qed.

Lemma In_eps_variants (eps : list Symbol) (rhs new_rhs : list Symbol) :
  In new_rhs (eps_variants eps rhs)
  <-> exists mask : nat,
        (mask < 2 ^ length (eps_positions_of eps rhs))%nat
        /\ new_rhs = masked_rhs rhs (eps_positions_of eps rhs) (Z.of_nat mask).
Proof.
  unfold eps_variants. rewrite in_map_iff. split.
  - intros (mask & <- & Hm). apply in_seq in Hm. exists mask. split; [lia|reflexivity].
  - intros (mask & Hm & ->). exists mask. split; [reflexivity|]. apply in_seq. lia.
Qed.

Lemma eps_positions_of_length (eps : list Symbol) (rhs : list Symbol) :
  length (eps_positions_of eps rhs)
  = length (filter (fun symbol => symbol_in symbol eps) rhs).
Proof.
  induction rhs as [|s rhs IH]; [reflexivity|].
  rewrite eps_positions_of_cons, length_app, length_map, IH. cbn [filter].
  now destruct (symbol_in s eps).
Qed.

Lemma eps_variants_omits (eps : list Symbol) (rhs : list Symbol) :
  forall new_rhs, In new_rhs (eps_variants eps rhs) <-> omits eps rhs new_rhs.
Proof.
  induction rhs as [|s rhs IH]; intros new_rhs.
  - split.
    + intros [<-|[]]. constructor.
    + intros H. inversion H. now left.
  - rewrite In_eps_variants. split.
    + intros (mask & Hm & ->). rewrite masked_rhs_cons.
      rewrite eps_positions_of_cons, length_app, length_map in Hm.
      destruct (symbol_in s eps) eqn:Hs.
      * assert (Hrest : omits eps rhs
                          (masked_rhs rhs (eps_positions_of eps rhs)
                             (Z.div2 (Z.of_nat mask)))).
        { apply IH, In_eps_variants. exists (Nat.div2 mask). split.
          - cbn [length Nat.add] in Hm. rewrite Nat.pow_succ_r' in Hm.
            rewrite Nat.div2_div. apply Nat.Div0.div_lt_upper_bound. lia.
          - now rewrite Nat2Z.inj_div2. }
        destruct (Z.testbit (Z.of_nat mask) 0); cbn [app];
          [now apply omits_keep | now apply omits_drop].
      * apply omits_keep, IH, In_eps_variants. now exists mask.
    + intros H.
      assert (Hlen : length (eps_positions_of eps (s :: rhs))
                     = ((if symbol_in s eps then 1 else 0)
                        + length (eps_positions_of eps rhs))%nat).
      { rewrite eps_positions_of_cons, length_app, length_map.
        now destruct (symbol_in s eps). }
      rewrite Hlen.
      inversion H as [|s' l l' Hrest|s' l l' Hs Hrest]; subst.
      * apply IH, In_eps_variants in Hrest as (mask & Hm & ->).
        destruct (symbol_in s eps) eqn:Hs.
        -- exists (2 * mask + 1)%nat. split.
           ++ cbn [Nat.add]. rewrite Nat.pow_succ_r'. lia.
           ++ rewrite masked_rhs_cons, Hs.
              replace (Z.of_nat (2 * mask + 1)) with (2 * Z.of_nat mask + 1) by lia.
              rewrite Z.testbit_odd_0, Z.div2_div.
              replace ((2 * Z.of_nat mask + 1) / 2) with (Z.of_nat mask);
                [reflexivity|].
              apply (Z.div_unique _ 2 _ 1); lia.
        -- exists mask. split; [exact Hm|]. now rewrite masked_rhs_cons, Hs.
      * apply IH, In_eps_variants in Hrest as (mask & Hm & ->).
        exists (2 * mask)%nat. rewrite Hs. split.
        -- cbn [Nat.add]. rewrite Nat.pow_succ_r'. lia.
        -- rewrite masked_rhs_cons, Hs.
           replace (Z.of_nat (2 * mask)) with (2 * Z.of_nat mask) by lia.
           rewrite Z.testbit_even_0, Z.div2_div.
           replace (2 * Z.of_nat mask / 2) with (Z.of_nat mask); [reflexivity|].
           apply (Z.div_unique _ 2 _ 0); lia.
Qed.

(** X16.  For a rule with nullable symbols in its right-hand side,
    [remove_epsilon_rules] builds exactly the right-hand sides that leave
    out some of the nullable symbols and keep the other symbols in their
    order, one for each of the 2^k choices among the k nullable symbols. *)
Theorem eps_variants_exact (eps_producers : list Symbol) (rhs : list Symbol) :
  (forall new_rhs,
     In new_rhs (eps_variants eps_producers rhs) <-> omits eps_producers rhs new_rhs)
  /\ length (eps_variants eps_producers rhs)
     = (2 ^ length (filter (fun symbol => symbol_in symbol eps_producers) rhs))%nat.
Proof.
  split; [apply eps_variants_omits|].
  unfold eps_variants. now rewrite length_map, length_seq, eps_positions_of_length.
Qed.

(** *** A parser as [CYKParser] builds it *)

Lemma sorted_nil (l : list GrammarRule) : sorted l = [] -> l = [].
Proof.
  intros H. pose proof (sorted_Permutation l) as Hp. rewrite H in Hp.
  now apply Permutation_nil in Hp.
Qed.

Lemma numbers_NoDup (n : nat) :
  NoDup (map (fun i => Some (Z.of_nat i)) (seq 1 n)).
Proof.
  generalize 1%nat. induction n as [|n IH]; intros start; simpl; constructor.
  - intros H. apply in_map_iff in H as (i & [= Hi] & Hin). apply in_seq in Hin. lia.
  - apply IH.
Qed.

Lemma CYKParser_init_numbers (g : Grammar) (self : CYKParser) :
  CYKParser_init g = Ok self ->
  Permutation (map rule_number (rules (grammar self)))
    (map (fun i => Some (Z.of_nat i))
         (seq 1 (length (rules (grammar self))))).
Proof.
  unfold CYKParser_init. destruct (get_rules_list g) as [|first rest] eqn:E.
  - intros [= <-]. cbn [grammar].
    apply sorted_nil in E. rewrite E. constructor.
  - intros H.
    apply rbind_Ok in H as (g1 & _ & H). apply rbind_Ok in H as (g2 & _ & H).
    apply rbind_Ok in H as (g3 & _ & H). apply rbind_Ok in H as (g4 & _ & H).
    apply rbind_Ok in H as (g5 & H5 & H). injection H as <-.
    cbn [grammar].
    apply to_chomsky_normal_form_renumber in H5 as (g' & -> & Hd).
    replace (length (rules (renumber g'))) with (length (rules g'))
      by (unfold renumber; cbn [rules]; now rewrite length_map).
    now apply renumber_numbers.
Qed.

(** X15.  When [parse] accepts a word from a parser that [CYKParser] has
    built, no two rules of the parser's grammar carry the same number, and
    the list [parse] returns is a derivation of the word from the start
    symbol by these rules, written as their numbers from the root down and
    from left to right, [2 n - 1] of them for a word of [n] characters. *)
Theorem CYKParser_derivation_valid (g : Grammar) (self : CYKParser)
  (word : str) (d : option (list (option Z))) :
  CYKParser_init g = Ok self ->
  fst (parse self word) = Ok (true, d) ->
  NoDup (map rule_number (rules (grammar self)))
  /\ exists start rule_numbers,
       start_symbol self = Some start
       /\ d = Some rule_numbers
       /\ derivation_of (rules (grammar self)) (value start) word
                        rule_numbers
       /\ (length rule_numbers + 1 = 2 * length word)%nat.
Proof.
  intros Hinit Hparse. apply CYKParser_init_numbers in Hinit. split.
  - apply (Permutation_NoDup (Permutation_sym Hinit)), numbers_NoDup.
  - revert Hparse. apply parse_derivation_ok. intros rule Hrule.
    apply (in_map rule_number) in Hrule.
    apply (Permutation_in _ Hinit), in_map_iff in Hrule as (i & <- & Hi).
    apply in_seq in Hi. simpl. apply Z.eqb_neq. lia.
Qed.

Lemma CYKParser_derivation_valid_witness :
  exists self,
    CYKParser_init (grammar_of ["S -> A b C"; "A -> a"; "C -> c"]%string) = Ok self
    /\ NoDup (map rule_number (rules (grammar self)))
    /\ exists start rule_numbers,
         start_symbol self = Some start
         /\ Some [Some 5; Some 2; Some 4; Some 1; Some 3] = Some rule_numbers
         /\ derivation_of (rules (grammar self)) (value start)
                          (lit "abc") rule_numbers
         /\ (length rule_numbers + 1 = 2 * length (lit "abc"))%nat.
Proof.
  eexists. split; [vm_compute; reflexivity|].
  apply (CYKParser_derivation_valid
           (grammar_of ["S -> A b C"; "A -> a"; "C -> c"]%string)).
  - vm_compute. reflexivity.
  - vm_compute. reflexivity.
Defined.

(** *** New nonterminals of the Chomsky normal form *)

Lemma lit_injective (s t : string) : lit s = lit t -> s = t.
Proof.
  unfold lit. intros H.
  assert (E : list_ascii_of_string s = list_ascii_of_string t).
  { revert H. generalize (list_ascii_of_string s) (list_ascii_of_string t).
    induction l as [|a l IH]; intros [|b l']; simpl; intros H;
      try discriminate; [reflexivity|].
    injection H as -> H. f_equal. now apply IH. }
  rewrite <- (string_of_list_ascii_of_string s), E.
  apply string_of_list_ascii_of_string.
Qed.

Lemma str_of_nat_injective (m n : nat) : str_of_nat m = str_of_nat n -> m = n.
Proof.
  unfold str_of_nat. intros H. apply lit_injective in H.
  assert (E : Some (Nat.to_uint m) = Some (Nat.to_uint n))
    by (rewrite <- !NilEmpty.usu; now rewrite H).
  injection E as E.
  rewrite <- (DecimalNat.Unsigned.of_to m), E. apply DecimalNat.Unsigned.of_to.
Qed.

Lemma str_of_Z_injective (m n : Z) :
  0 <= m -> 0 <= n -> str_of_Z m = str_of_Z n -> m = n.
Proof.
  intros Hm Hn H.
  assert (E : forall k, 0 <= k -> str_of_Z k = str_of_nat (Z.to_nat k))
    by (intros [|p|p] Hk; [reflexivity | reflexivity | lia]).
  rewrite !E in H by assumption. apply str_of_nat_injective in H. lia.
Qed.

Section NewNonterminal.

Variable rs : list GrammarRule.

(** [any(rule.lhs.value == new_nt for rule in grammar.rules)] for the name
    with the number [k]. *)
Let used (k : Z) : bool :=
  existsb (fun rule => str_eqb (value (lhs rule)) (lit "X" ++ str_of_Z k)) rs.

Lemma used_names_bound (start : Z) (n : nat) :
  0 <= start ->
  (forall k, start <= k < start + Z.of_nat n -> used k = true) ->
  (n <= length rs)%nat.
Proof.
  intros Hstart Hused.
  rewrite <- (length_map (fun rule => value (lhs rule)) rs).
  rewrite <- (length_seq n 0) at 1.
  rewrite <- (length_map (fun i => lit "X" ++ str_of_Z (start + Z.of_nat i)) (seq 0 n)).
  apply NoDup_incl_length.
  - clear Hused. generalize 0%nat. induction n as [|n IH]; intros a; simpl;
      constructor; [|apply IH].
    intros H. apply in_map_iff in H as (i & Hi & Hin). apply in_seq in Hin.
    injection Hi as Hi. apply str_of_Z_injective in Hi; lia.
  - intros v Hv. apply in_map_iff in Hv as (i & <- & Hi). apply in_seq in Hi.
    specialize (Hused (start + Z.of_nat i) ltac:(lia)).
    apply existsb_exists in Hused as (rule & Hrule & Heq).
    apply str_eqb_eq in Heq. apply in_map_iff. now exists rule.
Qed.

Lemma get_new_nonterminal_first_free (start : Z) :
  0 <= start ->
  forall fuel next,
    start <= next ->
    (forall k, start <= k < next -> used k = true) ->
    (length rs < Z.to_nat (next - start) + fuel)%nat ->
    exists k,
      next <= k
      /\ (forall j, start <= j < k -> used j = true)
      /\ used k = false
      /\ get_new_nonterminal fuel rs next
         = rbind (Nonterminal_init (lit "X" ++ str_of_Z k))
                 (fun nt => Ok (nt, k + 1)).
Proof.
  intros Hstart. induction fuel as [|fuel IH]; intros next Hnext Hused Hfuel.
  - exfalso.
    assert (Z.to_nat (next - start) <= length rs)%nat; [|lia].
    apply (used_names_bound start); [exact Hstart|].
    intros k Hk. apply Hused. lia.
  - cbn [get_new_nonterminal]. fold (used next).
    destruct (used next) eqn:E; cbn [negb].
    + destruct (IH (next + 1)) as (k & Hk & Hbelow & Hfree & Hget).
      * lia.
      * intros k Hk. destruct (Z.eq_dec k next) as [->|]; [exact E|].
        apply Hused. lia.
      * lia.
      * exists k. repeat split; try assumption. lia.
    + exists next. repeat split; try assumption. lia.
Qed.

Lemma get_new_nonterminal_returns (next : Z) :
  0 <= next ->
  exists k,
    next <= k <= next + Z.of_nat (length rs)
    /\ (forall j, next <= j < k ->
          exists rule, In rule rs /\ value (lhs rule) = lit "X" ++ str_of_Z j)
    /\ (forall rule, In rule rs -> value (lhs rule) <> lit "X" ++ str_of_Z k)
    /\ get_new_nonterminal (S (length rs)) rs next
       = if (2 <? length (str_of_Z k))%nat
         then Raise (ValueError "Nonterminal can't be longer than 3 characters")
         else Ok (Nonterminal (lit "X" ++ str_of_Z k), k + 1).
Proof.
  intros Hnext.
  destruct (get_new_nonterminal_first_free next Hnext (S (length rs)) next)
    as (k & Hk & Hbelow & Hfree & Hget); [lia | intros; lia | lia |].
  exists k. split; [|split; [|split]].
  - split; [exact Hk|].
    assert (Z.to_nat (k - next) <= length rs)%nat; [|lia].
    apply (used_names_bound next); [exact Hnext|].
    intros j Hj. apply Hbelow. lia.
  - intros j Hj. specialize (Hbelow j Hj).
    apply existsb_exists in Hbelow as (rule & Hrule & Heq).
    apply str_eqb_eq in Heq. now exists rule.
  - intros rule Hrule Heq.
    assert (used k = true); [|congruence].
    apply existsb_exists. exists rule. split; [exact Hrule|]. now apply str_eqb_eq.
  - rewrite Hget. unfold Nonterminal_init. cbn [lit list_ascii_of_string map app].
    change (isupper (Latin1 "X")) with true. cbn [negb length].
    destruct (length (str_of_Z k)) as [|[|[|n]]]; try reflexivity.
    replace (3 <? Z.of_nat (S (S (S (S n))))) with true
      by (symmetry; apply Z.ltb_lt; lia).
    reflexivity.
Qed.

End NewNonterminal.

(** X17.  A call of [get_new_nonterminal] with the counter at [next]
    returns within [len(grammar.rules) + 1] turns of its loop.  The name
    it settles on is the first of [X<next>], [X<next + 1>], ... that is the
    left-hand side of no rule of the grammar, and the counter is left
    after it; when that name has more than three characters, [Nonterminal]
    raises [ValueError]. *)
Theorem get_new_nonterminal_fresh (rs : list GrammarRule) (next : Z) :
  0 <= next ->
  exists k,
    next <= k <= next + Z.of_nat (length rs)
    /\ (forall j, next <= j < k ->
          exists rule, In rule rs /\ value (lhs rule) = lit "X" ++ str_of_Z j)
    /\ (forall rule, In rule rs -> value (lhs rule) <> lit "X" ++ str_of_Z k)
    /\ get_new_nonterminal (S (length rs)) rs next
       = if (2 <? length (str_of_Z k))%nat
         then Raise (ValueError "Nonterminal can't be longer than 3 characters")
         else Ok (Nonterminal (lit "X" ++ str_of_Z k), k + 1).
Proof. apply get_new_nonterminal_returns. Qed.

Lemma get_new_nonterminal_fresh_witness :
  exists k,
    1 <= k <= 1 + Z.of_nat (length (rules (grammar_of ["X1 -> a X2"; "X2 -> b"]%string)))
    /\ (forall j, 1 <= j < k ->
          exists rule,
            In rule (rules (grammar_of ["X1 -> a X2"; "X2 -> b"]%string))
            /\ value (lhs rule) = lit "X" ++ str_of_Z j)
    /\ (forall rule,
          In rule (rules (grammar_of ["X1 -> a X2"; "X2 -> b"]%string)) ->
          value (lhs rule) <> lit "X" ++ str_of_Z k)
    /\ get_new_nonterminal
         (S (length (rules (grammar_of ["X1 -> a X2"; "X2 -> b"]%string))))
         (rules (grammar_of ["X1 -> a X2"; "X2 -> b"]%string)) 1
       = if (2 <? length (str_of_Z k))%nat
         then Raise (ValueError "Nonterminal can't be longer than 3 characters")
         else Ok (Nonterminal (lit "X" ++ str_of_Z k), k + 1).
Proof.
  apply (get_new_nonterminal_fresh
           (rules (grammar_of ["X1 -> a X2"; "X2 -> b"]%string)) 1).
  lia.
Defined.

(** *** Chomsky normal form: the shape of the rules *)

Lemma nonterminal_symbol_read (s : Symbol) : nonterminal_symbol s -> read_symbol s.
Proof. intros (v & -> & Hv). exact Hv. Qed.

Lemma nonterminal_symbol_is (s : Symbol) :
  nonterminal_symbol s -> is_Nonterminal s = true.
Proof. now intros (v & -> & _). Qed.

Lemma read_symbol_nonterminal (s : Symbol) :
  read_symbol s -> is_Terminal s = false -> nonterminal_symbol s.
Proof.
  destruct s as [v|v|]; simpl; intros H Ht; try discriminate; [|destruct H].
  now exists v.
Qed.

Lemma read_symbol_terminal (s : Symbol) :
  read_symbol s -> is_Terminal s = true -> exists c, value s = [c].
Proof.
  destruct s as [v|v|]; simpl; intros H Ht; try discriminate.
  destruct v as [|c [|? ?]]; try destruct H. now exists c.
Qed.

Lemma read_symbol_value_length (s : Symbol) :
  read_symbol s -> (1 <= length (value s))%nat.
Proof.
  destruct s as [v|v|]; simpl; intros H.
  - destruct v as [|c [|? ?]]; try destruct H. simpl. lia.
  - apply valid_name_upper in H as (c & rest & -> & _). simpl. lia.
  - destruct H.
Qed.

Lemma rhs_text_length (l : list Symbol) :
  Forall read_symbol l -> (length l <= length (rhs_text l))%nat.
Proof.
  unfold rhs_text, join. induction 1 as [|s l Hs Hl IH]; simpl; [lia|].
  rewrite length_app. apply read_symbol_value_length in Hs. lia.
Qed.

Lemma strip_length (s : str) : (length (strip s) <= length s)%nat.
Proof.
  destruct (strip_segment s) as (a & b & E). rewrite E at 2.
  rewrite !length_app. lia.
Qed.

Lemma remove_spaces_length (s : str) : (length (remove_spaces s) <= length s)%nat.
Proof. unfold remove_spaces. apply filter_length_le. Qed.

(** The right-hand side decoded from a text has no more symbols than the
    text has characters after the separator. *)
Lemma decode_rule_rhs_length (v w : str) (rule : GrammarRule) :
  decode_rule (v ++ lit " -> " ++ w) = Ok rule ->
  (length (rhs rule) <= length w)%nat.
Proof.
  intros H. pose proof (decode_rule_read _ _ H) as [_ [_ Hsym]].
  unfold decode_rule in H.
  destruct (split_arrow (v ++ lit " -> " ++ w)) as [|p0 [|p1 [|? ?]]] eqn:Hsplit;
    try discriminate.
  apply split_arrow_two in Hsplit as (E & H0 & H1).
  change (v ++ lit " -> " ++ w)
    with (v ++ [space] ++ minus_sign :: greater_sign :: space :: w) in E.
  rewrite app_assoc in E. symmetry in E.
  apply (arrow_unique p0 p1 H0 H1) in E as [_ E]. subst p1.
  apply rbind_Ok in H as (nt & _ & H).
  destruct (is_epsilon_text (strip (space :: w))).
  - injection H as <-. simpl. lia.
  - apply rbind_Ok in H as (symbols & Hr & H). injection H as <-.
    cbn [rhs] in *.
    apply (read_rhs_text _ _ _ _ (Nat.le_refl _)) in Hr. cbn [rhs_text join map concat app] in Hr.
    pose proof (rhs_text_length symbols Hsym) as Hlen. rewrite Hr in Hlen.
    pose proof (remove_spaces_length (strip (space :: w))).
    rewrite strip_space_before in *. pose proof (strip_length w). lia.
Qed.

Lemma add_rule_rules (rule_str : str) (g g' : Grammar) :
  add_rule rule_str None g = (Ok tt, g') ->
  rules g' = rules g
  \/ exists rule, decode_rule rule_str = Ok rule
                  /\ rules g' = rules g ++ [set_number rule (next_rule_number g)].
Proof.
  unfold add_rule, bind, lift, get, put, ret.
  destruct (decode_rule rule_str) as [new_rule| |]; try discriminate.
  destruct (rule_in new_rule (rules g)); intros [= <-]; [now left|].
  right. now exists new_rule.
Qed.

Lemma rules_add_shaped (g : Grammar) (lhs0 : Symbol) (rhs0 : list Symbol) :
  shaped g ->
  nonterminal_symbol lhs0 -> Forall read_symbol rhs0 ->
  binary_shape (mkRule lhs0 rhs0 None) ->
  shaped (cnf_rules_add g lhs0 rhs0).
Proof.
  intros [Hread Hshape] Hl Hr Hb. unfold shaped, cnf_rules_add, rules_add.
  cbn [rules]. destruct (rule_in _ (rules g)); [now split|].
  split; apply Forall_app; (split; [assumption|]).
  - constructor; [|constructor].
    destruct Hl as (v & -> & Hv). split; [now exists v | exact Hr].
  - constructor; [exact Hb|constructor].
Qed.

Lemma get_new_nonterminal_symbol (rs : list GrammarRule) :
  forall fuel next nt next',
    get_new_nonterminal fuel rs next = Ok (nt, next') -> nonterminal_symbol nt.
Proof.
  induction fuel as [|fuel IH]; intros next nt next' H; [discriminate|].
  cbn [get_new_nonterminal] in H.
  destruct (negb (existsb _ rs)); [|now apply IH in H].
  apply rbind_Ok in H as (nt0 & Hnt & H). injection H as <- _.
  apply Nonterminal_init_valid in Hnt as [-> Hv]. now eexists.
Qed.

Lemma dict_get_In (d : list (str * Symbol)) (k : str) (nt : Symbol) :
  dict_get d k = Some nt -> exists k', In (k', nt) d.
Proof.
  unfold dict_get. destruct (find _ d) as [[k' nt']|] eqn:E; [|discriminate].
  intros [= <-]. apply find_some in E as [E _]. now exists k'.
Qed.

Lemma isolate_terminals_ok (rs : list GrammarRule) (symbols : list Symbol) :
  forall new_rhs st new_rhs' st',
    isolate_terminals rs symbols new_rhs st = Ok (new_rhs', st') ->
    Forall read_symbol symbols ->
    Forall nonterminal_symbol new_rhs ->
    cnf_state_ok st ->
    Forall nonterminal_symbol new_rhs'
    /\ cnf_state_ok st' /\ new_rules st' = new_rules st.
Proof.
  induction symbols as [|symbol symbols IH];
    intros new_rhs st new_rhs' st' H Hsym Hacc Hst; cbn [isolate_terminals] in H.
  - injection H as <- <-. split; [exact Hacc | split; [exact Hst | reflexivity]].
  - inversion Hsym as [|? ? Hs Hrest]; subst.
    destruct (is_Terminal symbol) eqn:Ht.
    + destruct (dict_get (terminal_rules st) (value symbol)) as [nt|] eqn:Hd.
      * apply IH in H; try assumption.
        apply Forall_app. split; [exact Hacc|]. constructor; [|constructor].
        apply dict_get_In in Hd as (k' & Hin).
        destruct Hst as (_ & _ & Hterm). rewrite Forall_forall in Hterm.
        exact (Hterm _ Hin).
      * apply rbind_Ok in H as ([new_nt next] & Hnew & H).
        apply get_new_nonterminal_symbol in Hnew.
        destruct (add_rule (value new_nt ++ lit " -> " ++ value symbol) None (cnf st))
          as [[[]| |] cnf'] eqn:Hadd; try discriminate.
        apply IH in H; try assumption.
        -- apply Forall_app. split; [exact Hacc|]. now repeat constructor.
        -- destruct Hst as ([Hread Hshape] & Hnr & Hterm).
           split; [|split]; cbn [cnf new_rules terminal_rules].
           ++ unfold shaped.
              apply add_rule_rules in Hadd as [->|(rule & Hdec & ->)]; [now split|].
              pose proof (decode_rule_read _ _ Hdec) as [_ Hrule].
              destruct (read_symbol_terminal _ Hs Ht) as (c & Hc).
              rewrite Hc in Hdec. apply decode_rule_rhs_length in Hdec.
              split; apply Forall_app; (split; [assumption|]).
              ** constructor; [exact Hrule|constructor].
              ** constructor; [|constructor].
                 unfold binary_shape. cbn [set_number rhs]. simpl in Hdec.
                 split; lia.
           ++ exact Hnr.
           ++ apply Forall_app. split; [exact Hterm|]. now repeat constructor.
    + apply IH in H; try assumption.
      apply Forall_app. split; [exact Hacc|]. constructor; [|constructor].
      now apply read_symbol_nonterminal.
Qed.

Lemma new_rules_set_ok (d : list (GrammarRule * (Symbol * list Symbol)))
  (rule : GrammarRule) (lhs0 : Symbol) (rhs0 : list Symbol) :
  Forall (fun '(_, (lhs, rhs)) =>
            nonterminal_symbol lhs /\ Forall nonterminal_symbol rhs) d ->
  nonterminal_symbol lhs0 -> Forall nonterminal_symbol rhs0 ->
  Forall (fun '(_, (lhs, rhs)) =>
            nonterminal_symbol lhs /\ Forall nonterminal_symbol rhs)
         (new_rules_set d rule (lhs0, rhs0)).
Proof.
  intros Hd Hl Hr. induction Hd as [|[k w] d Hk Hd IH]; cbn [new_rules_set].
  - constructor; [now split|constructor].
  - destruct (GrammarRule_eq rule k); constructor; try assumption. now split.
Qed.

Lemma split_last_two_app (l front : list Symbol) (y z : Symbol) :
  split_last_two l = Some (front, y, z) -> l = front ++ [y; z].
Proof.
  unfold split_last_two. intros H.
  destruct (rev l) as [|z' [|y' front']] eqn:E; try discriminate.
  injection H as <- <- <-.
  rewrite <- (rev_involutive l), E. simpl. now rewrite <- app_assoc.
Qed.

Lemma nonterminal_pair_shape (lhs0 : Symbol) (l : list Symbol) :
  (length l <= 2)%nat -> Forall nonterminal_symbol l ->
  binary_shape (mkRule lhs0 l None).
Proof.
  intros Hlen Hl. split; [exact Hlen|]. intros _. cbn [rhs].
  eapply Forall_impl; [|exact Hl]. apply nonterminal_symbol_is.
Qed.

Lemma binarize_ok (rs : list GrammarRule) :
  forall fuel current_rhs g next current_rhs' g' next',
    binarize fuel rs current_rhs g next = Ok (current_rhs', g', next') ->
    Forall nonterminal_symbol current_rhs -> shaped g ->
    Forall nonterminal_symbol current_rhs' /\ (length current_rhs' <= 2)%nat
    /\ shaped g'.
Proof.
  induction fuel as [|fuel IH]; intros current_rhs g next current_rhs' g' next' H Hc Hg;
    cbn [binarize] in H; destruct (2 <? length current_rhs)%nat eqn:E;
    try discriminate;
    try (injection H as <- <- _; apply Nat.ltb_ge in E;
         split; [exact Hc | split; [exact E | exact Hg]]).
  apply rbind_Ok in H as ([new_nt next1] & Hnew & H).
  apply get_new_nonterminal_symbol in Hnew.
  destruct (split_last_two current_rhs) as [[[front y] z]|] eqn:Hsplit;
    [|discriminate].
  apply split_last_two_app in Hsplit. subst current_rhs.
  apply Forall_app in Hc as [Hfront Hyz].
  apply IH in H; [exact H | |].
  - apply Forall_app. split; [exact Hfront|]. now repeat constructor.
  - apply rules_add_shaped; [exact Hg | exact Hnew | |].
    + eapply Forall_impl; [|exact Hyz]. apply nonterminal_symbol_read.
    + apply nonterminal_pair_shape; [simpl; lia | exact Hyz].
Qed.

Lemma renumber_shaped (g : Grammar) : shaped g -> shaped (renumber g).
Proof.
  intros [Hread Hshape]. unfold shaped, renumber. cbn [rules].
  split; apply Forall_forall; intros r Hr; apply in_map_iff in Hr as (r0 & <- & Hr0).
  - rewrite Forall_forall in Hread. exact (Hread r0 Hr0).
  - rewrite Forall_forall in Hshape. exact (Hshape r0 Hr0).
Qed.

Lemma to_chomsky_normal_form_shaped (grammar normal : Grammar) :
  Forall read_rule (rules grammar) ->
  to_chomsky_normal_form grammar = Ok normal -> shaped normal.
Proof.
  intros Hin H. unfold to_chomsky_normal_form in H.
  apply rbind_Ok in H as (st & H1 & H).
  apply rbind_Ok in H as ([g next] & H2 & H). injection H as <-.
  apply renumber_shaped.
  assert (Hst : cnf_state_ok st).
  { eapply (fold_left_result_invariant cnf_state_ok); [| |exact H1|].
    - intros rule r Hr. now apply rbind_not_Ok.
    - intros st0 rule st' Hrule E Hst0. cbn [rbind] in E.
      apply (proj1 (sorted_In _ _)) in Hrule. rewrite Forall_forall in Hin.
      pose proof (Hin rule Hrule) as [(v & Hl & Hv) Hsym].
      destruct (2 <=? length (rhs rule))%nat eqn:Hlen.
      + apply rbind_Ok in E as ([new_rhs st1] & E & E'). injection E' as <-.
        apply isolate_terminals_ok in E as (Hnew & (Hg & Hnr & Hterm) & Heq);
          [|exact Hsym|constructor|exact Hst0].
        split; [exact Hg|]. split; [|exact Hterm]. cbn [new_rules].
        apply new_rules_set_ok; [exact Hnr | now exists v | exact Hnew].
      + injection E as <-. destruct Hst0 as (Hg & Hnr & Hterm).
        split; [|now split]. cbn [cnf].
        apply rules_add_shaped; [exact Hg | now exists v | exact Hsym |].
        apply Nat.leb_gt in Hlen. split; cbn [rhs]; lia.
    - repeat split; constructor. }
  destruct Hst as (Hg & Hnr & _).
  change (shaped (fst (g, next))).
  eapply (fold_left_result_invariant (fun p => shaped (fst p))); [| |exact H2|].
  - intros [_ [l r]] acc Hacc. now apply rbind_not_Ok.
  - intros [g0 next0] [k [l r]] [g1 next1] Hk E Hg0. cbn [rbind fst] in *.
    rewrite Forall_forall in Hnr. destruct (Hnr _ Hk) as [Hl Hr].
    apply rbind_Ok in E as ([[current_rhs g'] next'] & E & E').
    apply binarize_ok in E as (Hc & Hlen & Hg'); [|exact Hr|exact Hg0].
    destruct current_rhs as [|s current_rhs]; injection E' as <- _; [exact Hg'|].
    apply rules_add_shaped; [exact Hg' | exact Hl | |].
    + eapply Forall_impl; [|exact Hc]. apply nonterminal_symbol_read.
    + now apply nonterminal_pair_shape.
  - exact Hg.
Qed.

(** X18.  Given a grammar whose rules are as [add_rule] decodes them,
    [to_chomsky_normal_form] returns a grammar whose rules are again so,
    with right-hand sides of at most two symbols, and of two nonterminals
    when they have two: every terminal of a longer rule has been replaced
    by a nonterminal, and every longer rule cut into pairs. *)
Theorem to_chomsky_normal_form_shape (grammar normal : Grammar) :
  Forall read_rule (rules grammar) ->
  to_chomsky_normal_form grammar = Ok normal ->
  forall rule,
    In rule (rules normal) ->
    read_rule rule
    /\ (length (rhs rule) <= 2)%nat
    /\ ((length (rhs rule) = 2)%nat ->
        exists b c, rhs rule = [Nonterminal b; Nonterminal c]).
Proof.
  intros Hin H rule Hrule.
  destruct (to_chomsky_normal_form_shaped _ _ Hin H) as [Hread Hshape].
  rewrite Forall_forall in Hread, Hshape.
  destruct (Hshape rule Hrule) as [Hlen Hnt]. split; [now apply Hread|].
  split; [exact Hlen|]. intros H2. specialize (Hnt H2).
  destruct (rhs rule) as [|s0 [|s1 [|? ?]]]; try discriminate.
  inversion Hnt as [|? ? H0 Hrest]; subst. inversion Hrest as [|? ? H1' _]; subst.
  destruct s0, s1; try discriminate. now eexists _, _.
Qed.

Lemma to_chomsky_normal_form_shape_witness :
  exists normal,
    to_chomsky_normal_form (grammar_of ["S -> A b C"; "A -> a"; "C -> c"]%string)
    = Ok normal
    /\ forall rule,
         In rule (rules normal) ->
         read_rule rule
         /\ (length (rhs rule) <= 2)%nat
         /\ ((length (rhs rule) = 2)%nat ->
             exists b c, rhs rule = [Nonterminal b; Nonterminal c]).
Proof.
  eexists. split; [vm_compute; reflexivity|].
  apply (to_chomsky_normal_form_shape
           (grammar_of ["S -> A b C"; "A -> a"; "C -> c"]%string)).
  - apply grammar_of_ok.
  - vm_compute. reflexivity.
Defined.

Lemma CYKParser_init_shaped (g : Grammar) (self : CYKParser) :
  CYKParser_init g = Ok self -> shaped (grammar self).
Proof.
  unfold CYKParser_init. destruct (get_rules_list g) as [|first rest] eqn:E.
  - intros [= <-]. cbn [grammar]. apply sorted_nil in E.
    unfold shaped. rewrite E. split; constructor.
  - intros H.
    apply rbind_Ok in H as (g1 & _ & H). apply rbind_Ok in H as (g2 & _ & H).
    apply rbind_Ok in H as (g3 & _ & H). apply rbind_Ok in H as (g4 & H4 & H).
    apply rbind_Ok in H as (g5 & H5 & H). injection H as <-. cbn [grammar].
    apply (to_chomsky_normal_form_shaped g4); [|exact H5].
    apply (eliminate_chain_rules_keeps grammar_ok grammar_init_ok add_rule_keeps_ok)
      in H4.
    apply H4.
Qed.

(** X19.  Whatever grammar [CYKParser] was given, when it returns, the
    rules of the parser's grammar are as [add_rule] decodes them, and a
    word [parse] accepts is derived from the start symbol by these rules in
    the usual sense: by replacing a left-hand side with the right-hand side
    of one of its rules down to the characters of the word. *)
Theorem CYKParser_accepts_derived (g : Grammar) (self : CYKParser)
  (word : str) (d : option (list (option Z))) :
  CYKParser_init g = Ok self ->
  fst (parse self word) = Ok (true, d) ->
  Forall read_rule (rules (grammar self))
  /\ exists name,
       option_map value (start_symbol self) = Some name
       /\ derives (rules (grammar self)) (Nonterminal name) word.
Proof.
  intros Hinit H. apply CYKParser_init_shaped in Hinit as [Hread _].
  split; [exact Hread|].
  apply parse_sound_rules in H as (start & Hs & H).
  exists (value start). rewrite Hs. split; [reflexivity|].
  now apply cnf_derives_derives.
Qed.

Lemma CYKParser_accepts_derived_witness :
  exists self,
    CYKParser_init (grammar_of ["S -> A b C"; "A -> a"; "C -> c"]%string) = Ok self
    /\ Forall read_rule (rules (grammar self))
    /\ exists name,
         option_map value (start_symbol self) = Some name
         /\ derives (rules (grammar self)) (Nonterminal name) (lit "abc").
Proof.
  eexists. split; [vm_compute; reflexivity|].
  apply (CYKParser_accepts_derived
           (grammar_of ["S -> A b C"; "A -> a"; "C -> c"]%string) _ (lit "abc")
           (Some [Some 5; Some 2; Some 4; Some 1; Some 3])).
  - vm_compute. reflexivity.
  - vm_compute. reflexivity.
Defined.

(** *** The chain of a nonterminal *)

Lemma In_value_dec (v : str) (l : list Symbol) :
  In v (map value l) \/ ~ In v (map value l).
Proof.
  destruct (str_in v (map value l)) eqn:E.
  - left. now apply str_in_In.
  - right. intros H. apply str_in_In in H. congruence.
Qed.

Lemma str_eq_dec (a b : str) : a = b \/ a <> b.
Proof.
  destruct (str_eqb a b) eqn:E.
  - left. now apply str_eqb_eq.
  - right. intros H. apply str_eqb_eq in H. congruence.
Qed.

Lemma symbol_add_value (set : list Symbol) (s : Symbol) (v : str) :
  In v (map value (symbol_add set s)) <-> In v (map value set) \/ v = value s.
Proof.
  unfold symbol_add. destruct (symbol_in s set) eqn:E.
  - apply symbol_in_value in E. split; [now left|]. now intros [H| ->].
  - rewrite map_app, in_app_iff. simpl. intuition congruence.
Qed.

Lemma symbols_update_value (chain other : list Symbol) (v : str) :
  In v (map value (symbols_update chain other))
  <-> In v (map value chain) \/ In v (map value other).
Proof.
  unfold symbols_update. revert chain.
  induction other as [|s other IH]; intros chain; simpl; [tauto|].
  rewrite IH, symbol_add_value. intuition congruence.
Qed.

Lemma chain_of_prepend (rs : list GrammarRule) (a b c : str) :
  chain_step rs a b -> chain_of rs b c -> chain_of rs a c.
Proof.
  intros Hab Hbc. induction Hbc as [|c d _ IH Hcd].
  - apply (chain_of_step rs a a b); [constructor | exact Hab].
  - now apply (chain_of_step rs a c d).
Qed.

Lemma unvisited_le (rs : list GrammarRule) (visited visited' : list Symbol) :
  (forall v, In v (map value visited) -> In v (map value visited')) ->
  (length (unvisited rs visited') <= length (unvisited rs visited))%nat.
Proof.
  intros Hsub. unfold unvisited. induction rs as [|r rs IH]; simpl; [lia|].
  destruct (symbol_in (lhs r) visited) eqn:E; simpl.
  - apply symbol_in_value, Hsub, symbol_in_value in E. now rewrite E.
  - destruct (symbol_in (lhs r) visited'); simpl; lia.
Qed.

Lemma unvisited_lt (rs : list GrammarRule) (visited visited' : list Symbol)
  (rule : GrammarRule) :
  (forall v, In v (map value visited) -> In v (map value visited')) ->
  In rule rs ->
  symbol_in (lhs rule) visited = false -> symbol_in (lhs rule) visited' = true ->
  (length (unvisited rs visited') < length (unvisited rs visited))%nat.
Proof.
  intros Hsub Hin Hout Hnow. induction rs as [|r rs IH]; [destruct Hin|].
  pose proof (unvisited_le rs visited visited' Hsub) as Hle.
  unfold unvisited in *. simpl.
  destruct Hin as [->|Hin].
  - rewrite Hout, Hnow. simpl. lia.
  - specialize (IH Hin).
    destruct (symbol_in (lhs r) visited) eqn:E; simpl.
    + apply symbol_in_value, Hsub, symbol_in_value in E. now rewrite E.
    + destruct (symbol_in (lhs r) visited'); simpl; lia.
Qed.

Section FindChain.

Variable rs : list GrammarRule.

(** The body of the loop of [find_chain] over the rules. *)
Let step (fuel : nat) (nt : Symbol)
  (acc : result (list Symbol * list Symbol)) (rule : GrammarRule)
  : result (list Symbol * list Symbol) :=
  rbind acc (fun '(chain, visited) =>
    if Symbol_eq (lhs rule) nt && is_chain_rule rule then
      match rhs rule with
      | s :: _ =>
          rbind (find_chain fuel rs s visited) (fun '(sub, visited') =>
            Ok (symbols_update chain sub, visited'))
      | [] => Ok (chain, visited)
      end
    else Ok (chain, visited)).

Lemma find_chain_step (fuel : nat) (nt : Symbol) (visited : list Symbol) :
  find_chain (S fuel) rs nt visited
  = if symbol_in nt visited then Ok ([], visited)
    else fold_left (step fuel nt) rs (Ok ([nt], symbol_add visited nt)).
Proof. reflexivity. Qed.

Lemma find_chain_loop (fuel : nat) (nt : Symbol) (visited : list Symbol) :
  (forall s visited0,
     (length (unvisited rs visited0) < fuel)%nat ->
     exists chain visited',
       find_chain fuel rs s visited0 = Ok (chain, visited')
       /\ find_chain_post rs s visited0 chain visited') ->
  symbol_in nt visited = false ->
  (length (unvisited rs visited) <= fuel)%nat ->
  forall todo done chain visited0,
    rs = done ++ todo ->
    find_chain_during rs nt visited done chain visited0 ->
    exists chain' visited',
      fold_left (step fuel nt) todo (Ok (chain, visited0)) = Ok (chain', visited')
      /\ find_chain_during rs nt visited rs chain' visited'.
Proof.
  intros IH Hnew Hfuel.
  induction todo as [|rule todo IHtodo]; intros done chain visited0 Hrs Hd.
  - rewrite app_nil_r in Hrs. subst done. now exists chain, visited0.
  - cbn [fold_left]. unfold step at 2. cbn [rbind].
    assert (Hrs' : rs = (done ++ [rule]) ++ todo) by now rewrite <- app_assoc.
    destruct Hd as (Hsub & Hchain & Hnt & Hclosed & Hedges & Hsound).
    destruct (Symbol_eq (lhs rule) nt && is_chain_rule rule) eqn:Hcond.
    + destruct (rhs rule) as [|s rest] eqn:Hrhs.
      { unfold is_chain_rule in Hcond. rewrite Hrhs, andb_false_r in Hcond.
        discriminate. }
      assert (Hrule : In rule rs)
        by (rewrite Hrs; apply in_or_app; right; now left).
      pose proof Hcond as Hcond'. apply andb_true_iff in Hcond' as [Hlhs Hchainrule].
      apply Symbol_eq_value in Hlhs.
      assert (Hs : rest = [] /\ is_Nonterminal s = true).
      { unfold is_chain_rule in Hchainrule. rewrite Hrhs in Hchainrule.
        destruct rest; [now split | discriminate]. }
      destruct Hs as [-> Hsnt].
      assert (Hstep : chain_step rs (value nt) (value s))
        by (exists rule, s; now repeat split).
      destruct (IH s visited0) as (sub & visited1 & Hcall & Hpost).
      { apply (Nat.lt_le_trans _ (length (unvisited rs visited))); [|exact Hfuel].
        apply (unvisited_lt rs visited visited0 rule Hsub Hrule).
        - apply not_true_is_false. intros H. apply symbol_in_value in H.
          rewrite Hlhs in H. apply symbol_in_value in H. congruence.
        - apply symbol_in_value. rewrite Hlhs. now apply Hchain. }
      rewrite Hcall. cbn [rbind].
      destruct Hpost as (Psub & Pchain & Pnt & Pclosed & Psound).
      apply (IHtodo (done ++ [rule])); [exact Hrs'|].
      split; [|split; [|split; [|split; [|split]]]].
      * intros v Hv. now apply Psub, Hsub.
      * intros v. rewrite symbols_update_value, Hchain, Pchain. split.
        -- intros [[H1 H2]|[H1 H2]]; split; auto.
        -- intros [H1 H2]. destruct (In_value_dec v visited0); [left|right]; auto.
      * apply symbols_update_value. now left.
      * intros u w Hu Hne Huw. apply symbols_update_value in Hu as [Hu|Hu].
        -- apply Psub. now apply (Hclosed u w).
        -- now apply (Pclosed u w).
      * intros rule' s' rest' Hin' Hcond'' Hrhs'.
        apply in_app_or in Hin' as [Hin'|[<-|[]]].
        -- apply Psub. now apply (Hedges rule' s' rest').
        -- rewrite Hrhs in Hrhs'. now injection Hrhs' as <- _.
      * intros u Hu. apply symbols_update_value in Hu as [Hu|Hu].
        -- now apply Hsound.
        -- apply (chain_of_prepend rs _ (value s)); [exact Hstep|]. now apply Psound.
    + apply (IHtodo (done ++ [rule])); [exact Hrs'|].
      split; [|split; [|split; [|split; [|split]]]]; try assumption.
      intros rule' s' rest' Hin' Hcond'' Hrhs'.
      apply in_app_or in Hin' as [Hin'|[<-|[]]].
      * now apply (Hedges rule' s' rest').
      * congruence.
Qed.

Lemma find_chain_returns :
  forall fuel nt visited,
    (length (unvisited rs visited) < fuel)%nat ->
    exists chain visited',
      find_chain fuel rs nt visited = Ok (chain, visited')
      /\ find_chain_post rs nt visited chain visited'.
Proof.
  induction fuel as [|fuel IH]; intros nt visited Hfuel; [lia|].
  rewrite find_chain_step. destruct (symbol_in nt visited) eqn:Hnt.
  - exists [], visited. split; [reflexivity|].
    split; [|split; [|split; [|split]]].
    + auto.
    + intros v. simpl. tauto.
    + now apply symbol_in_value.
    + intros u w [].
    + intros u [].
  - assert (Hnotin : ~ In (value nt) (map value visited)).
    { intros H. apply symbol_in_value in H. congruence. }
    destruct (find_chain_loop fuel nt visited IH Hnt ltac:(lia) rs []
                [nt] (symbol_add visited nt) eq_refl)
      as (chain & visited' & Hfold & Hd).
    { split; [|split; [|split; [|split; [|split]]]].
      - intros v Hv. apply symbol_add_value. now left.
      - intros v. rewrite symbol_add_value. simpl. split.
        + intros [<-|[]]. split; [now right | exact Hnotin].
        + intros [[H| ->] H']; [contradiction | now left].
      - now left.
      - intros u w [<-|[]] Hne. now destruct Hne.
      - intros rule s rest [].
      - intros u [<-|[]]. constructor. }
    exists chain, visited'. split; [exact Hfold|].
    destruct Hd as (Hsub & Hchain & Hin & Hclosed & Hedges & Hsound).
    split; [exact Hsub|]. split; [exact Hchain|]. split; [|split].
    + now apply Hchain.
    + intros u w Hu Huw. destruct (str_eq_dec u (value nt)) as [->|Hne].
      * destruct Huw as (rule & s & Hrule & Hlhs & Hrhs & Hsnt & <-).
        apply (Hedges rule s []); [exact Hrule | | exact Hrhs].
        apply andb_true_iff. split; [now apply Symbol_eq_value|].
        unfold is_chain_rule. now rewrite Hrhs.
      * now apply (Hclosed u w).
    + exact Hsound.
Qed.

End FindChain.

Lemma find_chain_exact (rs : list GrammarRule) (nt : Symbol) :
  exists chain visited,
    find_chain (2 + length rs) rs nt [] = Ok (chain, visited)
    /\ forall s, symbol_in s chain = true <-> chain_of rs (value nt) (value s).
Proof.
  destruct (find_chain_returns rs (2 + length rs) nt [])
    as (chain & visited & Hcall & Hsub & Hchain & Hnt & Hclosed & Hsound).
  { unfold unvisited. pose proof (filter_length_le
      (fun rule => negb (symbol_in (lhs rule) [])) rs). lia. }
  exists chain, visited. split; [exact Hcall|]. intros s.
  rewrite symbol_in_value. split; [apply Hsound|].
  intros H. induction H as [|b c _ IH Hbc].
  - apply Hchain. split; [exact Hnt | intros []].
  - apply Hchain. split; [|intros []]. now apply (Hclosed b c).
Qed.

(** X20.  For every nonterminal, [find_chain] returns, also when the chain
    rules of the grammar go in a circle, and the set it returns holds
    exactly the nonterminals reached from the given one through chain
    rules [A -> B], the given one among them. *)
Theorem find_chain_is_chain (grammar : Grammar) (nt : Symbol) :
  exists chain visited,
    find_chain (2 + length (rules grammar)) (rules grammar) nt []
    = Ok (chain, visited)
    /\ forall s, symbol_in s chain = true
                 <-> chain_of (rules grammar) (value nt) (value s).
Proof. apply find_chain_exact. Qed.

(** *** The stages on rules that read back from their text *)

(** What makes a rule read back: its name and its right-hand side are read
    for themselves, and neither holds the separator. *)
Lemma stable_parts (rule : GrammarRule) :
  stable rule ->
  no_arrow (value (lhs rule) ++ [space]) = true
  /\ no_arrow (space :: rhs_text (rhs rule)) = true
  /\ Nonterminal_init (strip (value (lhs rule) ++ [space])) = Ok (lhs rule)
  /\ (if is_epsilon_text (strip (rhs_text (rhs rule))) then Ok []
      else read_rhs (remove_spaces (strip (rhs_text (rhs rule)))) [])
     = Ok (rhs rule).
Proof.
  unfold stable. intros Hdec.
  assert (Hparts : no_arrow (value (lhs rule) ++ [space]) = true
                   /\ no_arrow (space :: rhs_text (rhs rule)) = true).
  { unfold decode_rule in Hdec.
    destruct (split_arrow (stage_text rule)) as [|p0 [|p1 [|? ?]]] eqn:Hs;
      try discriminate.
    apply split_arrow_two in Hs as (Htext & Hp0 & Hp1).
    rewrite stage_text_arrow in Htext. symmetry in Htext.
    apply (arrow_unique _ _ Hp0 Hp1) in Htext as [-> ->]. now split. }
  destruct Hparts as [Hv Hc]. split; [exact Hv|]. split; [exact Hc|].
  rewrite stage_text_arrow, (decode_rule_text _ _ Hv Hc) in Hdec.
  apply rbind_Ok in Hdec as (nt & Hnt & Hdec). unfold without_number in Hdec.
  destruct (is_epsilon_text (strip (rhs_text (rhs rule)))).
  - injection Hdec as -> <-. now split.
  - apply rbind_Ok in Hdec as (symbols & Hr & Hdec). injection Hdec as -> ->.
    now split.
Qed.

(** The text a stage writes from the name of one rule and the right-hand
    side of another is read as the rule of that name and right-hand side. *)
Lemma decode_rule_mixed (a b : GrammarRule) :
  stable a -> stable b ->
  decode_rule (value (lhs a) ++ lit " -> " ++ rhs_text (rhs b))
  = Ok (mkRule (lhs a) (rhs b) None).
Proof.
  intros Ha Hb.
  destruct (stable_parts a Ha) as (Hv & _ & Hnt & _).
  destruct (stable_parts b Hb) as (_ & Hc & _ & Hrhs).
  change (value (lhs a) ++ lit " -> " ++ rhs_text (rhs b))
    with (value (lhs a) ++ [space]
          ++ minus_sign :: greater_sign :: space :: rhs_text (rhs b)).
  rewrite app_assoc, (decode_rule_text _ _ Hv Hc), Hnt. cbn [rbind].
  destruct (is_epsilon_text (strip (rhs_text (rhs b)))).
  - now injection Hrhs as <-.
  - now rewrite Hrhs.
Qed.

Lemma stable_name_clean (rule : GrammarRule) :
  stable rule ->
  strip (value (lhs rule)) = value (lhs rule)
  /\ strip (value (lhs rule) ++ [space]) = value (lhs rule)
  /\ no_arrow (value (lhs rule)) = true.
Proof.
  intros H. destruct (stable_parts rule H) as (Hv & _ & Hnt & _).
  apply Nonterminal_init_Ok in Hnt.
  assert (E : strip (value (lhs rule) ++ [space]) = value (lhs rule))
    by (rewrite Hnt at 2; reflexivity).
  split; [|split; [exact E|]].
  - apply clean_strip. rewrite <- E. apply strip_clean.
  - now apply no_arrow_app in Hv as [Hv _].
Qed.

(** The same for the text of [remove_unreachable], which has no space
    around the separator. *)
Lemma decode_rule_tight (rule : GrammarRule) :
  stable rule ->
  decode_rule (value (lhs rule) ++ lit "->" ++ rhs_text (rhs rule))
  = Ok (without_number rule).
Proof.
  intros H. destruct (stable_parts rule H) as (_ & Hc & Hnt & Hrhs).
  destruct (stable_name_clean rule H) as (Hclean & Hstrip & Hv).
  rewrite no_arrow_space_before in Hc.
  unfold decode_rule.
  change (value (lhs rule) ++ lit "->" ++ rhs_text (rhs rule))
    with (value (lhs rule) ++ minus_sign :: greater_sign :: rhs_text (rhs rule)).
  rewrite (split_arrow_first _ _ Hv), (split_arrow_one _ Hc).
  rewrite Hclean, <- Hstrip at 1. rewrite Hnt. cbn [rbind].
  unfold without_number.
  destruct (is_epsilon_text (strip (rhs_text (rhs rule)))).
  - now injection Hrhs as <-.
  - now rewrite Hrhs.
Qed.

Lemma stable_without_number (rule : GrammarRule) (n : option Z) :
  stable rule -> stable (mkRule (lhs rule) (rhs rule) n).
Proof. intros H. exact H. Qed.

Lemma add_rule_decoded (rule_str : str) (rule : GrammarRule) (g : Grammar) :
  decode_rule rule_str = Ok rule ->
  add_rule rule_str None g = (Ok tt, add_decoded g rule).
Proof.
  intros H. unfold add_rule, bind, lift, get, put, ret, add_decoded. rewrite H.
  now destruct (rule_in rule (rules g)).
Qed.

(** A loop that adds the rules of the elements it keeps. *)
Lemma for_each_add {A} (keep : A -> bool) (text : A -> str)
  (rule_of : A -> GrammarRule) (l : list A) :
  (forall x, In x l -> keep x = true -> decode_rule (text x) = Ok (rule_of x)) ->
  forall g,
    for_each l (fun x => if keep x then add_rule (text x) None else ret tt) g
    = (Ok tt, fold_left add_decoded (map rule_of (filter keep l)) g).
Proof.
  induction l as [|x l IH]; intros Hdec g; [reflexivity|].
  cbn [for_each filter]. unfold bind at 1.
  destruct (keep x) eqn:E.
  - rewrite (add_rule_decoded _ _ g (Hdec x (or_introl eq_refl) E)).
    cbn [map fold_left]. apply IH. intros y Hy. apply Hdec. now right.
  - unfold ret at 1. apply IH. intros y Hy. apply Hdec. now right.
Qed.

Lemma rule_in_without_number (r : GrammarRule) (l : list GrammarRule) :
  rule_in r (map without_number l) = rule_in r l.
Proof.
  induction l as [|x l IH]; simpl; [reflexivity|]. now rewrite <- IH.
Qed.

Lemma distinct_app (l1 l2 : list GrammarRule) :
  distinct (l1 ++ l2) ->
  distinct l1 /\ distinct l2
  /\ forall r, In r l2 -> rule_in r l1 = false.
Proof.
  induction l1 as [|x l1 IH]; simpl.
  - intros H. now repeat split.
  - intros [Hx H]. destruct (IH H) as (H1 & H2 & H12).
    rewrite rule_in_app in Hx. apply orb_false_iff in Hx as [Hx1 Hx2].
    split; [now split|]. split; [exact H2|].
    intros r Hr. rewrite (H12 r Hr), orb_false_r.
    rewrite GrammarRule_eq_sym. now apply (rule_in_false_In x l2).
Qed.

(** Adding rules of which no two are equal, and none is in the grammar,
    puts them after the rules of the grammar, in their order, with the
    next numbers. *)
Lemma fold_add_decoded (l : list GrammarRule) :
  forall g,
    distinct (rules g ++ l) ->
    map without_number (rules (fold_left add_decoded l g))
    = map without_number (rules g) ++ map without_number l
    /\ next_rule_number (fold_left add_decoded l g)
       = next_rule_number g + Z.of_nat (length l)
    /\ (numbered (rules g) 1 ->
        next_rule_number g = 1 + Z.of_nat (length (rules g)) ->
        numbered (rules (fold_left add_decoded l g)) 1).
Proof.
  induction l as [|r l IH]; intros g Hd; cbn [fold_left].
  - rewrite app_nil_r. split; [reflexivity|]. split; [simpl; lia|auto].
  - assert (Hnew : rule_in r (rules g) = false).
    { apply distinct_app in Hd as (_ & _ & H). apply H. now left. }
    set (g1 := mkGrammar (rules g ++ [set_number r (next_rule_number g)])
                         (next_rule_number g + 1)).
    assert (E : add_decoded g r = g1) by (unfold add_decoded; now rewrite Hnew).
    rewrite E.
    destruct (IH g1) as (Hrules & Hnext & Hnum).
    { cbn [g1 rules]. rewrite <- app_assoc. cbn [app].
      revert Hd. clear. generalize (rules g) as l0.
      induction l0 as [|x l0 IH]; simpl.
      - intros [H1 H2]. now split.
      - intros [Hx H]. split; [|now apply IH].
        rewrite rule_in_app in *. apply orb_false_iff in Hx as [-> Hx].
        exact Hx. }
    split; [|split].
    + rewrite Hrules. cbn [g1 rules]. rewrite map_app, <- app_assoc. reflexivity.
    + rewrite Hnext. cbn [g1 next_rule_number length]. lia.
    + intros Hn Hnx. apply Hnum; cbn [g1 rules next_rule_number].
      * apply numbered_snoc; [exact Hn|]. cbn [set_number rule_number].
        now rewrite Hnx.
      * rewrite length_app. simpl. lia.
Qed.

Lemma distinct_filter (keep : GrammarRule -> bool) (l : list GrammarRule) :
  distinct l -> distinct (filter keep l).
Proof.
  induction l as [|x l IH]; simpl; [trivial|]. intros [Hx Hl].
  destruct (keep x); [|now apply IH]. split; [|now apply IH].
  apply not_true_is_false. intros H. apply existsb_exists in H as (y & Hy & E).
  apply filter_In in Hy as [Hy _].
  rewrite (rule_in_false_In x l Hx y Hy) in E. discriminate.
Qed.

Lemma distinct_without_number (l : list GrammarRule) :
  distinct l -> distinct (map without_number l).
Proof.
  induction l as [|x l IH]; simpl; [trivial|]. intros [Hx Hl].
  split; [|now apply IH]. now rewrite rule_in_without_number.
Qed.

(** A stage that goes through the rules of a grammar and adds the text of
    those it keeps. *)
Lemma stage_filter (keep : GrammarRule -> bool) (text : GrammarRule -> str)
  (grammar : Grammar) :
  distinct (rules grammar) ->
  (forall rule, In rule (rules grammar) -> keep rule = true ->
                decode_rule (text rule) = Ok (without_number rule)) ->
  exists g,
    build (for_each (get_rules_list grammar) (fun rule =>
             if keep rule then add_rule (text rule) None else ret tt)) = Ok g
    /\ map without_number (rules g)
       = map without_number (filter keep (get_rules_list grammar))
    /\ numbered (rules g) 1.
Proof.
  intros Hd Hdec. unfold build.
  rewrite (for_each_add keep text without_number)
    by (intros x Hx; apply Hdec; now apply sorted_In).
  eexists. split; [reflexivity|].
  destruct (fold_add_decoded
              (map without_number (filter keep (get_rules_list grammar)))
              Grammar_init) as (Hrules & _ & Hnum).
  - cbn [Grammar_init rules app]. apply distinct_without_number, distinct_filter.
    apply (distinct_Permutation (rules grammar)); [|exact Hd].
    symmetry. apply sorted_Permutation.
  - split.
    + rewrite Hrules. cbn [Grammar_init rules map app]. rewrite map_map.
      reflexivity.
    + apply Hnum; [exact I | reflexivity].
Qed.

Lemma stage_filter_stable (keep : GrammarRule -> bool) (grammar g : Grammar) :
  Forall stable (rules grammar) ->
  map without_number (rules g)
  = map without_number (filter keep (get_rules_list grammar)) ->
  Forall stable (rules g).
Proof.
  intros Hst E. apply Forall_forall. intros r Hr.
  apply (in_map without_number) in Hr. rewrite E in Hr.
  apply in_map_iff in Hr as (r0 & E0 & Hr0). apply filter_In in Hr0 as [Hr0 _].
  apply (proj1 (sorted_In _ _)) in Hr0.
  rewrite Forall_forall in Hst. specialize (Hst r0 Hr0).
  unfold stable, stage_text in *. injection E0 as El Er.
  unfold without_number. now rewrite <- El, <- Er.
Qed.

Lemma remove_nonproductive_filter (grammar : Grammar) :
  distinct (rules grammar) -> Forall stable (rules grammar) ->
  exists keep g,
    remove_nonproductive grammar = Ok g
    /\ (forall rule,
          In rule (rules grammar) ->
          (keep rule = true
           <-> forall s, In s (rhs rule) -> is_Nonterminal s = true ->
                         productive (rules grammar) (value s)))
    /\ map without_number (rules g)
       = map without_number (filter keep (get_rules_list grammar))
    /\ numbered (rules g) 1
    /\ Forall stable (rules g).
Proof.
  intros Hd Hst. unfold remove_nonproductive.
  destruct (find_productive_nonterminals_returns grammar) as (p & Hp & Hexact).
  rewrite Hp. cbn [rbind].
  set (keep := fun rule => str_in (value (lhs rule)) p
                           && all_productive p (rhs rule)).
  destruct (stage_filter keep
              (fun rule => value (lhs rule) ++ lit " -> " ++ rhs_text (rhs rule))
              grammar Hd) as (g & Hg & Hrules & Hnum).
  { intros rule Hrule _. rewrite Forall_forall in Hst. exact (Hst rule Hrule). }
  exists keep, g. split; [exact Hg|]. split; [|split; [exact Hrules|split]].
  - intros rule Hrule. unfold keep. rewrite andb_true_iff, Hexact.
    rewrite (all_productive_spec (rules grammar)). split.
    + intros [_ H] s Hs Hnt. apply Hexact, str_in_In. now apply H.
    + intros H. split.
      * apply productive_rule; [exact Hrule | exact H].
      * intros s Hs Hnt. apply str_in_In, Hexact. now apply H.
  - exact Hnum.
  - now apply (stage_filter_stable keep grammar).
Qed.

(** X21.  On a grammar whose rules read back from their text, no two of
    them equal, [remove_nonproductive] returns, and the grammar it returns
    holds exactly the rules whose right-hand side has only productive
    nonterminals, as they were and in the order of the iteration, with the
    numbers 1, 2, ...; they read back from their text again. *)
Theorem remove_nonproductive_exact (grammar : Grammar) :
  distinct (rules grammar) -> Forall stable (rules grammar) ->
  exists keep g,
    remove_nonproductive grammar = Ok g
    /\ (forall rule,
          In rule (rules grammar) ->
          (keep rule = true
           <-> forall s, In s (rhs rule) -> is_Nonterminal s = true ->
                         productive (rules grammar) (value s)))
    /\ map without_number (rules g)
       = map without_number (filter keep (get_rules_list grammar))
    /\ numbered (rules g) 1
    /\ Forall stable (rules g).
Proof. apply remove_nonproductive_filter. Qed.

Lemma remove_nonproductive_exact_witness :
  exists keep g,
    remove_nonproductive (grammar_of ["S -> A b"; "A -> a"; "B -> C"]%string) = Ok g
    /\ (forall rule,
          In rule (rules (grammar_of ["S -> A b"; "A -> a"; "B -> C"]%string)) ->
          (keep rule = true
           <-> forall s, In s (rhs rule) -> is_Nonterminal s = true ->
                         productive
                           (rules (grammar_of ["S -> A b"; "A -> a"; "B -> C"]%string))
                           (value s)))
    /\ map without_number (rules g)
       = map without_number
           (filter keep
              (get_rules_list (grammar_of ["S -> A b"; "A -> a"; "B -> C"]%string)))
    /\ numbered (rules g) 1
    /\ Forall stable (rules g).
Proof.
  apply (remove_nonproductive_exact
           (grammar_of ["S -> A b"; "A -> a"; "B -> C"]%string)).
  - exact (proj1 (proj2 (proj2 (grammar_of_ok _)))).
  - vm_compute. repeat constructor.
Defined.

Lemma remove_unreachable_filter (grammar : Grammar) (start : str) (nt : Symbol) :
  Nonterminal_init start = Ok nt ->
  distinct (rules grammar) -> Forall stable (rules grammar) ->
  exists keep g,
    remove_unreachable grammar start = Ok g
    /\ (forall rule,
          keep rule = true
          <-> reachable_from (rules grammar) start (value (lhs rule)))
    /\ map without_number (rules g)
       = map without_number (filter keep (get_rules_list grammar))
    /\ numbered (rules g) 1
    /\ Forall stable (rules g).
Proof.
  intros Hnt Hd Hst. unfold remove_unreachable. rewrite Hnt. cbn [rbind]. cbv zeta.
  destruct (reachable_loop_exact grammar start nt Hnt) as (reachable & Hloop & Hexact).
  rewrite Hloop. cbn [rbind].
  set (keep := fun rule => symbol_in (lhs rule) reachable).
  destruct (stage_filter keep
              (fun rule => value (lhs rule) ++ lit "->" ++ rhs_text (rhs rule))
              grammar Hd) as (g & Hg & Hrules & Hnum).
  { intros rule Hrule _. rewrite Forall_forall in Hst.
    apply decode_rule_tight. exact (Hst rule Hrule). }
  exists keep, g. split; [exact Hg|]. split; [|split; [exact Hrules|split]].
  - intros rule. apply Hexact.
  - exact Hnum.
  - now apply (stage_filter_stable keep grammar).
Qed.

(** X22.  On a grammar whose rules read back from their text, no two of
    them equal, and for a start name [Nonterminal] accepts,
    [remove_unreachable] returns, and the grammar it returns holds exactly
    the rules whose left-hand side is reachable from the start symbol, as
    they were and in the order of the iteration, with the numbers 1, 2,
    ...; they read back from their text again. *)
Theorem remove_unreachable_exact (grammar : Grammar) (start : str) (nt : Symbol) :
  Nonterminal_init start = Ok nt ->
  distinct (rules grammar) -> Forall stable (rules grammar) ->
  exists keep g,
    remove_unreachable grammar start = Ok g
    /\ (forall rule,
          keep rule = true
          <-> reachable_from (rules grammar) start (value (lhs rule)))
    /\ map without_number (rules g)
       = map without_number (filter keep (get_rules_list grammar))
    /\ numbered (rules g) 1
    /\ Forall stable (rules g).
Proof. apply remove_unreachable_filter. Qed.

Lemma remove_unreachable_exact_witness :
  exists keep g,
    remove_unreachable (grammar_of ["S -> A b"; "A -> a"; "B -> b"]%string)
                       (lit "S") = Ok g
    /\ (forall rule,
          keep rule = true
          <-> reachable_from
                (rules (grammar_of ["S -> A b"; "A -> a"; "B -> b"]%string))
                (lit "S") (value (lhs rule)))
    /\ map without_number (rules g)
       = map without_number
           (filter keep
              (get_rules_list (grammar_of ["S -> A b"; "A -> a"; "B -> b"]%string)))
    /\ numbered (rules g) 1
    /\ Forall stable (rules g).
Proof.
  apply (remove_unreachable_exact
           (grammar_of ["S -> A b"; "A -> a"; "B -> b"]%string)
           (lit "S") (Nonterminal (lit "S"))).
  - reflexivity.
  - exact (proj1 (proj2 (proj2 (grammar_of_ok _)))).
  - vm_compute. repeat constructor.
Defined.

(** *** The chain rules eliminated *)

Lemma rule_in_add_decoded_keeps (g : Grammar) (r r' : GrammarRule) :
  rule_in r (rules g) = true -> rule_in r (rules (add_decoded g r')) = true.
Proof.
  intros H. unfold add_decoded. destruct (rule_in r' (rules g)); [exact H|].
  cbn [rules]. now rewrite rule_in_app, H.
Qed.

Lemma rule_in_add_decoded_self (g : Grammar) (r : GrammarRule) :
  rule_in r (rules (add_decoded g r)) = true.
Proof.
  unfold add_decoded. destruct (rule_in r (rules g)) eqn:E; [exact E|].
  cbn [rules]. rewrite rule_in_app. cbn [rule_in existsb].
  now rewrite GrammarRule_eq_set_number, GrammarRule_eq_refl, orb_true_r.
Qed.

Lemma add_decoded_rules (g : Grammar) (r rule : GrammarRule) :
  In rule (rules (add_decoded g r)) ->
  In rule (rules g) \/ (lhs rule = lhs r /\ rhs rule = rhs r).
Proof.
  unfold add_decoded. destruct (rule_in r (rules g)); [now left|].
  cbn [rules]. intros H. apply in_app_or in H as [H|[<-|[]]]; [now left|].
  right. now split.
Qed.

(** A loop in the monad that, as long as a property of its variables and
    the grammar holds, does what a function says. *)
Lemma fold_M_pure {A S} (Inv : S * Grammar -> Prop) (body : S -> A -> M S)
  (f : S * Grammar -> A -> S * Grammar) (l : list A) :
  (forall x, In x l -> forall acc g,
     Inv (acc, g) ->
     body acc x g = (Ok (fst (f (acc, g) x)), snd (f (acc, g) x))
     /\ Inv (f (acc, g) x)) ->
  forall acc g,
    Inv (acc, g) ->
    fold_M l acc body g
    = (Ok (fst (fold_left f l (acc, g))), snd (fold_left f l (acc, g)))
    /\ Inv (fold_left f l (acc, g)).
Proof.
  induction l as [|x l IH]; intros Hbody acc g Hinv; [now split|].
  cbn [fold_M fold_left]. unfold bind.
  destruct (Hbody x (or_introl eq_refl) acc g Hinv) as [E Hinv'].
  rewrite E. destruct (f (acc, g) x) as [acc' g'] eqn:Ef. cbn [fst snd].
  apply IH; [|exact Hinv']. intros y Hy. apply Hbody. now right.
Qed.

Section ChainRules.

Variable rs : list GrammarRule.
Hypothesis rs_stable : Forall stable rs.

Lemma chain_rule_text_decoded (a b : GrammarRule) :
  In a rs -> In b rs -> decode_rule (chain_rule_text a b) = Ok (chain_rule_of a b).
Proof.
  intros Ha Hb. rewrite Forall_forall in rs_stable.
  exact (decode_rule_mixed a b (rs_stable a Ha) (rs_stable b Hb)).
Qed.

Lemma chain_rule_step_keeps_processed (a b : GrammarRule) (c : Symbol)
  (st : list str * Grammar) :
  In a rs -> In b rs -> processed_ok st -> processed_ok (chain_rule_step a c st b).
Proof.
  intros Ha Hb Hst. unfold chain_rule_step.
  destruct (Symbol_eq (lhs b) c); [|exact Hst].
  destruct (is_chain_rule b); [exact Hst|].
  intros text Hin. cbn [fst snd] in *.
  assert (Hold : In text (fst st) ->
                 exists rule, decode_rule text = Ok rule
                   /\ rule_in rule (rules (add_decoded (snd st) (chain_rule_of a b)))
                      = true).
  { intros H. destruct (Hst text H) as (rule & Hdec & Hrule).
    exists rule. split; [exact Hdec|]. now apply rule_in_add_decoded_keeps. }
  destruct (negb (str_in (chain_rule_text a b) (fst st))); [|now apply Hold].
  apply in_app_or in Hin as [Hin|[<-|[]]]; [now apply Hold|].
  exists (chain_rule_of a b). split; [now apply chain_rule_text_decoded|].
  apply rule_in_add_decoded_self.
Qed.

(** The innermost loop body does what [chain_rule_step] says. *)
Lemma chain_rule_body (a b : GrammarRule) (c : Symbol)
  (processed_rules : list str) (g : Grammar) :
  In a rs -> In b rs -> processed_ok (processed_rules, g) ->
  (if Symbol_eq (lhs b) c then
     if is_chain_rule b then ret processed_rules
     else
       let new_rule_str :=
         Symbol_str (lhs a) ++ lit " -> " ++ join (map Symbol_str (rhs b)) in
       if negb (str_in new_rule_str processed_rules) then
         add_rule new_rule_str None ;;;
         ret (processed_rules ++ [new_rule_str])
       else ret processed_rules
   else ret processed_rules) g
  = (Ok (fst (chain_rule_step a c (processed_rules, g) b)),
     snd (chain_rule_step a c (processed_rules, g) b)).
Proof.
  intros Ha Hb Hst. unfold chain_rule_step. cbn [fst snd].
  destruct (Symbol_eq (lhs b) c); [|reflexivity].
  destruct (is_chain_rule b); [reflexivity|]. cbv zeta.
  fold (chain_rule_text a b).
  destruct (str_in (chain_rule_text a b) processed_rules) eqn:E; cbn [negb].
  - unfold ret. f_equal.
    apply str_in_In in E. destruct (Hst _ E) as (rule & Hdec & Hrule).
    rewrite (chain_rule_text_decoded a b Ha Hb) in Hdec. injection Hdec as <-.
    cbn [snd] in Hrule. unfold add_decoded. now rewrite Hrule.
  - unfold bind.
    rewrite (add_rule_decoded _ _ g (chain_rule_text_decoded a b Ha Hb)).
    reflexivity.
Qed.

Lemma chain_of_rule_exact (a : GrammarRule) :
  exists visited,
    find_chain (2 + length rs) rs (lhs a) [] = Ok (chain_of_rule rs a, visited)
    /\ forall s, symbol_in s (chain_of_rule rs a) = true
                 <-> chain_of rs (value (lhs a)) (value s).
Proof.
  unfold chain_of_rule.
  destruct (find_chain_exact rs (lhs a)) as (chain & visited & -> & H).
  now exists visited.
Qed.

Lemma chain_rules_pass_keeps_processed (a : GrammarRule)
  (st : list str * Grammar) :
  In a rs -> processed_ok st -> processed_ok (chain_rules_pass rs st a).
Proof.
  intros Ha Hst. unfold chain_rules_pass.
  apply fold_left_invariant; [exact Hst|]. intros st1 c _ H1.
  apply fold_left_invariant; [exact H1|]. intros st2 b Hb H2.
  now apply chain_rule_step_keeps_processed.
Qed.

Lemma eliminate_chain_rules_pure (grammar : Grammar) :
  rules grammar = rs ->
  eliminate_chain_rules grammar
  = Ok (snd (fold_left (chain_rules_pass rs) rs ([], Grammar_init))).
Proof.
  intros Hrs. unfold eliminate_chain_rules, build. cbv zeta. rewrite Hrs.
  unfold bind at 1.
  match goal with
  | |- context [fold_M rs [] ?body Grammar_init] =>
      destruct (fold_M_pure processed_ok body (chain_rules_pass rs) rs)
        with (acc := @nil str) (g := Grammar_init) as [E _]
  end.
  - intros a Ha acc g Hinv. unfold bind at 1, lift.
    destruct (chain_of_rule_exact a) as (visited & Hfind & _).
    rewrite Hfind. cbn [rbind fst].
    unfold chain_rules_pass.
    apply (fold_M_pure processed_ok).
    + intros c _ acc1 g1 Hinv1.
      apply (fold_M_pure processed_ok).
      * intros b Hb acc2 g2 Hinv2. split.
        -- now apply chain_rule_body.
        -- now apply chain_rule_step_keeps_processed.
      * exact Hinv1.
    + exact Hinv.
  - intros text [].
  - rewrite E. reflexivity.
Qed.

Lemma chain_rules_sound (st : list str * Grammar) :
  (forall rule, In rule (rules (snd st)) -> chain_made rs rule) ->
  forall rule,
    In rule (rules (snd (fold_left (chain_rules_pass rs) rs st))) ->
    chain_made rs rule.
Proof.
  intros Hst. apply (fold_left_invariant
    (fun st => forall rule, In rule (rules (snd st)) -> chain_made rs rule));
    [exact Hst|].
  intros st0 a Ha H0. unfold chain_rules_pass.
  destruct (chain_of_rule_exact a) as (_ & _ & Hchain).
  apply fold_left_invariant; [exact H0|]. intros st1 c Hc H1.
  apply fold_left_invariant; [exact H1|]. intros st2 b Hb H2.
  unfold chain_rule_step. destruct (Symbol_eq (lhs b) c) eqn:Hbc; [|exact H2].
  destruct (is_chain_rule b) eqn:Hchainrule; [exact H2|].
  cbn [snd]. intros rule Hrule.
  apply add_decoded_rules in Hrule as [Hrule|[Hl Hr]]; [now apply H2|].
  exists a, b. repeat split; try assumption.
  apply Symbol_eq_value in Hbc. rewrite Hbc. apply Hchain.
  apply existsb_exists. exists c. split; [exact Hc | apply Symbol_eq_refl].
Qed.

Lemma chain_rule_step_keeps_rule (r a b : GrammarRule) (c : Symbol)
  (st : list str * Grammar) :
  rule_in r (rules (snd st)) = true ->
  rule_in r (rules (snd (chain_rule_step a c st b))) = true.
Proof.
  intros H. unfold chain_rule_step.
  destruct (Symbol_eq (lhs b) c); [|exact H].
  destruct (is_chain_rule b); [exact H|]. cbn [snd].
  now apply rule_in_add_decoded_keeps.
Qed.

Lemma chain_rules_pass_keeps_rule (r a : GrammarRule) (st : list str * Grammar) :
  rule_in r (rules (snd st)) = true ->
  rule_in r (rules (snd (chain_rules_pass rs st a))) = true.
Proof.
  intros H. unfold chain_rules_pass.
  apply fold_left_invariant; [exact H|]. intros st1 c _ H1.
  apply fold_left_invariant; [exact H1|]. intros st2 b _ H2.
  now apply chain_rule_step_keeps_rule.
Qed.

Lemma chain_rules_complete (a b : GrammarRule) (st : list str * Grammar) :
  In a rs -> In b rs ->
  chain_of rs (value (lhs a)) (value (lhs b)) -> is_chain_rule b = false ->
  rule_in (chain_rule_of a b)
          (rules (snd (fold_left (chain_rules_pass rs) rs st))) = true.
Proof.
  intros Ha Hb Hchain Hnot.
  apply (fold_left_establish
           (fun st => rule_in (chain_rule_of a b) (rules (snd st)) = true)
           (chain_rules_pass rs) rs a Ha).
  - intros st0 a0. apply chain_rules_pass_keeps_rule.
  - intros st0. unfold chain_rules_pass.
    destruct (chain_of_rule_exact a) as (_ & _ & Hexact).
    apply Hexact in Hchain. apply existsb_exists in Hchain as (c & Hc & Hbc).
    apply (fold_left_establish
             (fun st => rule_in (chain_rule_of a b) (rules (snd st)) = true)
             (fun st c => fold_left (chain_rule_step a c) rs st) _ c Hc).
    + intros st1 c1 H1. apply fold_left_invariant; [exact H1|].
      intros st2 b2 _ H2. now apply chain_rule_step_keeps_rule.
    + intros st1.
      apply (fold_left_establish
               (fun st => rule_in (chain_rule_of a b) (rules (snd st)) = true)
               (chain_rule_step a c) rs b Hb).
      * intros st2 b2. apply chain_rule_step_keeps_rule.
      * intros st2. unfold chain_rule_step. rewrite Hbc, Hnot. cbn [snd].
        apply rule_in_add_decoded_self.
Qed.

End ChainRules.

Lemma read_symbol_eq (s t : Symbol) :
  read_symbol s -> read_symbol t -> Symbol_eq s t = true -> s = t.
Proof.
  intros Hs Ht E. apply Symbol_eq_value in E.
  destruct s as [v|v|], t as [w|w|]; simpl in *; try contradiction;
    try (now subst).
  - destruct v as [|c [|? ?]]; try contradiction. destruct Hs as [Hup _].
    apply valid_name_upper in Ht as (c' & rest & -> & Hup').
    injection E as <- _. congruence.
  - destruct w as [|c [|? ?]]; try contradiction. destruct Ht as [Hup _].
    apply valid_name_upper in Hs as (c' & rest & -> & Hup').
    injection E as <- _. congruence.
Qed.

Lemma read_symbols_eq (l1 l2 : list Symbol) :
  Forall read_symbol l1 -> Forall read_symbol l2 ->
  length l1 = length l2 -> all_eq l1 l2 = true -> l1 = l2.
Proof.
  intros H1. revert l2. induction H1 as [|s l1 Hs _ IH]; intros [|t l2] H2 Hlen E;
    try discriminate; [reflexivity|].
  inversion H2 as [|? ? Ht Hl2]; subst. cbn [all_eq] in E.
  apply andb_true_iff in E as [Est El]. f_equal.
  - now apply read_symbol_eq.
  - apply IH; [exact Hl2 | now injection Hlen | exact El].
Qed.

Lemma stable_read_rule (rule : GrammarRule) : stable rule -> read_rule rule.
Proof. intros H. now apply decode_rule_read in H as [_ H]. Qed.

Lemma eliminate_chain_rules_made (grammar : Grammar) :
  Forall stable (rules grammar) ->
  exists g,
    eliminate_chain_rules grammar = Ok g
    /\ (forall rule, In rule (rules g) -> chain_made (rules grammar) rule)
    /\ (forall a b,
          In a (rules grammar) -> In b (rules grammar) ->
          chain_of (rules grammar) (value (lhs a)) (value (lhs b)) ->
          is_chain_rule b = false ->
          exists rule, In rule (rules g) /\ lhs rule = lhs a /\ rhs rule = rhs b).
Proof.
  intros Hst. eexists.
  split; [exact (eliminate_chain_rules_pure (rules grammar) Hst grammar eq_refl)|].
  assert (Hsound : forall rule,
            In rule (rules (snd (fold_left (chain_rules_pass (rules grammar))
                                   (rules grammar) ([], Grammar_init)))) ->
            chain_made (rules grammar) rule).
  { apply chain_rules_sound. intros rule []. }
  split; [exact Hsound|].
  intros a b Ha Hb Hchain Hnot.
  pose proof (chain_rules_complete (rules grammar) a b ([], Grammar_init)
                Ha Hb Hchain Hnot) as Hin.
  apply existsb_exists in Hin as (rule & Hrule & E).
  exists rule. split; [exact Hrule|].
  destruct (Hsound rule Hrule) as (a' & b' & Ha' & Hb' & Hl & Hr & _).
  rewrite Forall_forall in Hst.
  pose proof (stable_read_rule a (Hst a Ha)) as [(va & Hva & _) _].
  pose proof (stable_read_rule a' (Hst a' Ha')) as [(va' & Hva' & _) _].
  pose proof (stable_read_rule b (Hst b Hb)) as [_ Hsb].
  pose proof (stable_read_rule b' (Hst b' Hb')) as [_ Hsb'].
  unfold GrammarRule_eq, chain_rule_of in E. cbn [lhs rhs] in E.
  apply andb_true_iff in E as [E Eall]. apply andb_true_iff in E as [El Elen].
  apply Nat.eqb_eq in Elen. rewrite Hl, Hr in *. split.
  - apply Symbol_eq_value in El. rewrite Hva, Hva' in *. simpl in El. now subst.
  - symmetry. now apply read_symbols_eq.
Qed.

(** X23.  On a grammar whose rules read back from their text,
    [eliminate_chain_rules] returns, and the rules of the grammar it
    returns are exactly the rules [A -> w] with [A] the left-hand side of a
    rule, [B -> w] a rule that is no chain rule, and [B] reached from [A]
    through chain rules ([B] is [A] among them).  So the grammar has no
    chain rule left, and its rules read back from their text again. *)
Theorem eliminate_chain_rules_exact (grammar : Grammar) :
  Forall stable (rules grammar) ->
  exists g,
    eliminate_chain_rules grammar = Ok g
    /\ (forall rule, In rule (rules g) -> chain_made (rules grammar) rule)
    /\ (forall a b,
          In a (rules grammar) -> In b (rules grammar) ->
          chain_of (rules grammar) (value (lhs a)) (value (lhs b)) ->
          is_chain_rule b = false ->
          exists rule, In rule (rules g) /\ lhs rule = lhs a /\ rhs rule = rhs b)
    /\ (forall rule, In rule (rules g) -> is_chain_rule rule = false)
    /\ Forall stable (rules g).
Proof.
  intros Hst.
  destruct (eliminate_chain_rules_made grammar Hst) as (g & Hg & Hsound & Hcomplete).
  exists g. split; [exact Hg|]. split; [exact Hsound|]. split; [exact Hcomplete|].
  split.
  - intros rule Hrule.
    destruct (Hsound rule Hrule) as (a & b & _ & _ & _ & Hr & _ & Hnot).
    unfold is_chain_rule in *. now rewrite Hr.
  - apply Forall_forall. intros rule Hrule.
    destruct (Hsound rule Hrule) as (a & b & Ha & Hb & Hl & Hr & _).
    rewrite Forall_forall in Hst.
    unfold stable, stage_text, without_number. rewrite Hl, Hr.
    exact (decode_rule_mixed a b (Hst a Ha) (Hst b Hb)).
Qed.

Lemma eliminate_chain_rules_exact_witness :
  exists g,
    eliminate_chain_rules (grammar_of ["S -> A"; "A -> B"; "B -> b"; "A -> a S"]%string)
    = Ok g
    /\ (forall rule,
          In rule (rules g) ->
          chain_made
            (rules (grammar_of ["S -> A"; "A -> B"; "B -> b"; "A -> a S"]%string))
            rule)
    /\ (forall a b,
          In a (rules (grammar_of ["S -> A"; "A -> B"; "B -> b"; "A -> a S"]%string)) ->
          In b (rules (grammar_of ["S -> A"; "A -> B"; "B -> b"; "A -> a S"]%string)) ->
          chain_of
            (rules (grammar_of ["S -> A"; "A -> B"; "B -> b"; "A -> a S"]%string))
            (value (lhs a)) (value (lhs b)) ->
          is_chain_rule b = false ->
          exists rule, In rule (rules g) /\ lhs rule = lhs a /\ rhs rule = rhs b)
    /\ (forall rule, In rule (rules g) -> is_chain_rule rule = false)
    /\ Forall stable (rules g).
Proof.
  apply (eliminate_chain_rules_exact
           (grammar_of ["S -> A"; "A -> B"; "B -> b"; "A -> a S"]%string)).
  vm_compute. repeat constructor.
Defined.
